(* ===== verification/_CoqProject ===== *)
-Q . S2P
Prelude.v
Interface.v
Board.v
Minimax.v
AlphaBeta.v
Game.v
Rounds.v
Scenarios.v
Distance.v
DistanceGame.v
Render.v
CharBoard.v
BFSearch.v
Reduction.v
ReductionGUI.v
HeuristicFun.v
Launcher.v
