(* ===== verification/Prelude.v ===== *)
(** * A verification library for the TicTacToe AIs of erineehab27/TicTacToe

    The repository holds six tic-tac-toe programs under [src/AI] that share
    one idea: a GUI (pygame or tkinter) keeps a board, the human plays the
    cross, and an AI picks the computer's square by searching the game
    tree.  This library models, by shallow embedding, the boards, the
    searches and the game logic of each program, and proves what makes
    them correct or shows where they are not.

    ** The parts of the program and where they are modelled

    - [Prelude.v] (this file): the state-and-error monad [St S A := S ->
      option (A * S)] in which every search threads what it mutates (a
      [nodes_expanded] counter, an in-place board, a shared [counter]
      list) and through which Python exceptions are [None]; the extended
      numbers [ext] for [float('inf')] with Python's [max]/[min]; the loop
      [argmax_loop] ("keep the first strictly better") and its
      specification [first_best]; the fail-soft relation [failsoft_ext]
      between an exhaustive and a pruned value, with the generic
      alpha-beta loops [fs_max_loop]/[fs_min_loop] (the update of
      [alpha] as a parameter) and their simulation lemmas
      [fs_max_loop_sound]/[fs_min_loop_sound]; [counter_shift], the
      property of a search that only adds to its counter (with the hint
      database [counter]); list lemmas on filters and folds; the hint
      database [ttt].
    - [Interface.v]: the class [BoardState] of the four methods every
      [AI] calls on its [Board] ([final_state], [isfull],
      [get_empty_sqrs], [mark_sqr]) and the laws [BoardLaws] the
      searches need, with the search fuel [search_fuel].
    - [Board.v]: [Module Grid], the numpy board of [tictactoe.py] and
      [Alpha_beta.py] ([class Board], lines 30-102) for any [ROW]x[COL],
      with its invariant [wf] and the lemmas on [mark_sqr] and
      [get_empty_sqrs]; [Module Board], the 3x3 [final_state] and the
      [BoardState]/[BoardLaws] instances; [Module AlphaBetaBoard] names
      the same methods for the copy of the class in [Alpha_beta.py].
    - [Minimax.v]: [class AI] of [tictactoe.py] (lines 104-189):
      [minimax] with [self.nodes_expanded] as the state of [St Z], [rnd],
      [eval]; [Module MinimaxFacts] proves it against [BoardLaws].
    - [AlphaBeta.v]: [class AI] of [Alpha_beta.py] (lines 102-188):
      [minimax_alpha_beta] and [eval]; [Module AlphaBetaFacts] proves the
      fail-soft theorem against [Minimax.minimax] by a simulation of the
      loops.
    - [Game.v]: [class Game] and the loop of [main()] of [tictactoe.py]
      (lines 191-321) as a step relation [round_step] with its
      reachability [reachable]; the events of pygame are a list argument.
      The loop is written against the class [GameAI] (what [main()]
      needs of an AI) and its laws [GameAILaws]; [GameAIs] instantiates
      it with the AIs of [tictactoe.py] and [Alpha_beta.py], whose
      [Game] and [main()] (lines 191-308) are the same code
      ([AlphaBetaGame]).
    - [Rounds.v]: the rounds of [main()] in the same two files
      ([num_rounds] 2 and 5): [play_round] is [while not game.isover()]
      over the inputs of its passes, [rounds] the [for] loop that adds
      each round's [ai.nodes_expanded] to [total_nodes_expanded], and
      [main] that loop with the printed average.
    - [Scenarios.v]: the concrete games of the specification and the
      witnesses of the general theorems of the files above.
    - [Distance.v]: [distance_improve.py]: the 5x5 [final_state] over
      [WINNING_LINES], [AI.minimax_heuristic] with the distance bonus,
      [eval]; the other board methods are [Grid] at 5x5.
    - [DistanceGame.v]: [class Game] and [main()] of
      [distance_improve.py] (lines 151-225): the [while True] loop as the
      step relation [dstep] (events, then the AI's turn) with its
      reachability [dreachable].
    - [CharBoard.v]: the list-of-lists board of [BF_Search.py] and
      [heuristic reduction.py] and their shared helpers [check_winner],
      [check_draw], [get_empty_positions].
    - [BFSearch.v]: [bfs_move] of [BF_Search.py] with its in-place trial
      marks and shared counter, and the tkinter game as the step relation
      [gui_step] over clicks and the 'r' key.
    - [Reduction.v]: [minimax] and [find_best_move] of
      [additional cose/heuristic reduction.py], and the exhaustive
      reference [red_value] they are proved against.
    - [ReductionGUI.v]: the tkinter class of the same file
      (lines 92-161): [make_move], [computer_move_with] (which calls
      [find_best_move] on the shared board and counter) and
      [restart_game], with the event loop as the step relation
      [rgui_step].
    - [HeuristicFun.v]: the flat nine-square board of
      [minimax by heuristic fun(winning moves).py]: [check_winner],
      [has_winning_move], [minimax], [get_ai_move] and the tkinter
      [make_move]/[reset_game], with the exhaustive reference
      [hf_value].

    - [Render.v]: what the pygame programs draw: [show_lines] and
      [draw_fig] as lists of shapes with pixel coordinates, over the
      constants of [constants.py] (the class [WindowConsts], since the
      file is not in the repository) or those of [distance_improve.py]
      ([DistanceWindow]).
    - [Launcher.v]: the launcher [main.py]: [program_paths], the loop
      that builds one tkinter button per path, [open_program] (with the
      child's exit status as an argument) and a click on a button.

    ** What the theorems show

    - Pruning is sound in [Alpha_beta.py]: for every window the pruned
      value is the fail-soft clamp of the exhaustive value
      ([alpha_beta_failsoft]); from the full window it is the same value
      and move with no more nodes ([alpha_beta_equiv]), so both [eval]s
      choose the same square ([eval_alpha_beta_equiv]).  In
      [distance_improve.py] it is not: the bonus added after the recursive
      call is not taken off the window, and on a concrete board the cut
      changes the move ([DistanceExamples.pruning_changes_move], a
      computed example, not a general theorem).  In the two character
      board programs pruning is sound as well: the flat-board [minimax]
      is fail-soft against the exhaustive [game_value]
      ([hf_minimax_failsoft]) and [get_ai_move] plays the first square of
      greatest game value ([get_ai_move_best]); the [minimax] of
      [heuristic reduction.py] returns the exhaustive [red_game_value]
      from the full window ([red_minimax_exact]), [find_best_move] plays
      the first best square ([find_best_move_best]), and so does its GUI
      after every cross that does not end the game
      ([red_computer_plays_best]).  Both loop kinds, [alpha = max(alpha,
      max_eval)] and [alpha = max(alpha, eval)], are instances of the
      generic loops of this file.
    - Boards: [final_state] against a reference scan of the eight lines;
      [mark_sqr] writes one square or raises; the 5x5 [final_state] reads
      only row 0 and four squares of row 1, 9 of the 25 squares
      ([final_state_reads_two_rows]), so it misses every column and lower
      row; the chained comparisons
      of the flat [check_winner] mean "three of the player in a line".
    - Searches terminate with the fuel given below, return values in
      range, return an open square on a live board, give back the board
      they mutate in place (the [cset_undo], [htrial] round trips), and
      their counters only grow; [bfs_move] implements the pure
      specification [bfs_spec] (win, else block, else best heuristic).
    - Rounds: every round of [main()] can be finished with one click per
      pass, at most nine passes ([round_can_end], a variant argument on
      the open squares), so [main()] can run to its end for any number
      of rounds ([main_can_finish]); when it does, the input is consumed
      by a chain of [num_rounds] rounds ([rounds_run]), each from a new
      game to a finished reachable game, and [total_nodes_expanded] is
      the sum of the final counters of those rounds' AIs ([main_total]).  That counter is not scoped per call as the
      specification asks: the [AI.eval] of both files adds its search to
      the count it finds ([eval_counter_carries], from [counter_shift]).
    - Drawing: for any constants that leave a margin and fit the circle
      in a square, every figure lies in its square
      ([draw_fig_in_square]); on the 600x600 window of
      [distance_improve.py] the figures of rows and columns 3 and 4 lie
      outside the window ([distance_fig_off_window]).
    - Launcher: each button runs its own program although the loop
      variable ends on the last path, because [lambda path=program_path]
      captures it ([click_runs_own_program]); the fifth button runs
      [symmtry.py], which the repository does not have.
    - Game loops: invariants of every reachable state ([reachable_inv],
      [gui_reachable_inv], [red_gui_reachable_inv], [dreachable_inv]) and
      progress of a move ([iteration_progress], [dai_turn_progress],
      [click_total], [red_click_total]); a finished 5x5 game can never be
      played again, since [main()] never calls [reset]
      ([dgame_over_frozen]), and its human can only play the top-left
      3x3 squares, since the window is cut in thirds
      ([dclick_top_left]); the
      reachable states of the [heuristic reduction.py] GUI hold only
      [' '], ['X'] and ['O'] ([red_gui_typed]) and every game there can
      be finished by clicks ([red_game_can_end]); the random corner of
      [BF_Search.py]'s
      [computer_move] is never used ([corner_unused]); in the flat-board
      GUI any mark that fills the board without a line leaves ['O'] to
      play on a full board that every later click leaves as it is
      ([draw_freezes]).
    - The divergences from the specification: on every live board whose
      trial marks all end the game, the minimizing branch counts one node
      for its loop where the maximizing branch counts one per square
      ([min_node_count]); on every board without open squares, and on
      every won board at a minimax level, [AI.eval] gives no move instead
      of an error ([full_board_no_move]); and the [depth] of
      [heuristic reduction.py] never limits the search
      ([minimax_depth_irrelevant]; [centre_full_search] computes one such
      search).

    ** Fuel

    Python recursion has no fuel; the models take a [nat] fuel and fail
    when it runs out.  Every termination theorem shows the fuel the code
    is run with is enough: [search_fuel b = 1 + #open squares] for the
    3x3 searches (each level marks one open square); the same bound for
    the character and flat boards; [dh_fuel b = 1 + (9 - marked_sqrs)] on
    the 5x5 board, where [isfull] stops the game at nine marks; 2 for the
    mutual recursion of [make_move] and [computer_move] in [BF_Search.py]
    and [heuristic reduction.py], and [red_fuel = 9] for the searches of
    the latter's GUI (a 3x3 board has at most nine empty squares).  The
    exhaustive references [hf_value] and [red_value] take fuel too; their
    [game_value]/[red_game_value] use one more than the empty squares,
    and [hf_value_stable]/[red_value_stable] show more fuel gives the
    same value, and [minimax_fuel_mono] shows extra fuel changes
    nothing for [minimax].  The rounds of [main()] take no fuel:
    [play_round] recurses on its list of inputs.

    ** Not modelled

    The tkinter widgets (button labels, message boxes), sounds, fonts,
    [pygame.display.update] and prints: output the programs never read
    back; the pygame drawing is modelled as pictures ([Render.v]) but not
    threaded through the game states;
    the psutil memory and time measurements (with [total_time_elapsed],
    [total_memory_used] and the busy loop of [main()]); the window of the
    launcher [main.py] and the programs it runs as subprocesses;
    [constants.py], which
    is not in the repository ([Board.ROW] and [Board.COL] are taken from
    the specification as 3).  Random choices ([random.randrange],
    [random.shuffle], [random.choice], [np.random.choice]) are arguments.
    [distance_improve.py] does not parse (a stray [+] at line 169); its
    model is of the code with that character removed. *)

From Stdlib Require Import ZArith Lia.
From stdpp Require Import base list numbers options.

(** ** The state and error monad of the searches

    The searches of the repository are methods that mutate one field of
    [self] (the counter [nodes_expanded], or in-place board cells) and can
    raise (an [IndexError] of numpy, a [ValueError] of [random]).  We thread
    that state explicitly: [St S A] is a computation from the state [S] to
    [None] (an exception, or a search that ran out of fuel) or to a result
    and the new state. *)

Declare Scope ttt_scope.
Delimit Scope ttt_scope with ttt.

Definition St (S A : Type) : Type := S -> option (A * S).

Definition st_ret {S A} (a : A) : St S A := fun s => Some (a, s).

Definition st_bind {S A B} (m : St S A) (k : A -> St S B) : St S B :=
  fun s => match m s with
           | Some (a, s') => k a s'
           | None => None
           end.

Definition st_fail {S A} : St S A := fun _ => None.

(** [lift o] raises when the fallible operation [o] raised. *)
Definition st_lift {S A} (o : option A) : St S A :=
  fun s => match o with Some a => Some (a, s) | None => None end.

Definition st_modify {S} (f : S -> S) : St S unit := fun s => Some (tt, f s).

Definition st_get {S} : St S S := fun s => Some (s, s).

Notation "x <- m ;; k" := (st_bind m (fun x => k))
  (at level 100, m at next level, right associativity) : ttt_scope.
Notation "m ;;; k" := (st_bind m (fun _ => k))
  (at level 100, right associativity) : ttt_scope.

Open Scope ttt_scope.

(** [self.nodes_expanded += 1] *)
Definition incr_nodes : St Z unit := st_modify (fun n => (n + 1)%Z).

Lemma st_bind_Some {S A B} (m : St S A) (k : A -> St S B) s b s2 :
  st_bind m k s = Some (b, s2) <->
  exists a s1, m s = Some (a, s1) /\ k a s1 = Some (b, s2).
Proof.
  unfold st_bind. split.
  - destruct (m s) as [[a s1]|]; [eauto | discriminate].
  - intros (a & s1 & -> & ?). done.
Qed.

Lemma st_bind_None {S A B} (m : St S A) (k : A -> St S B) s :
  m s = None -> st_bind m k s = None.
Proof. unfold st_bind. by intros ->. Qed.

Lemma st_bind_ret {S A B} (m : St S A) (k : A -> St S B) s a s1 :
  m s = Some (a, s1) -> st_bind m k s = k a s1.
Proof. unfold st_bind. by intros ->. Qed.

(** ** Counters that only add

    The searches only ever increment their counter, so a run started
    from [n + d] is the run started from [n] with [d] added to the final
    counter: the counter the code reads after a search is the one it
    passed in plus what the search counted.  [counter_shift m] states
    this of a computation [m]; it is closed under [st_ret], [st_fail],
    [st_lift], [incr_nodes] and [st_bind]. *)
Definition shift_res {A} (d : Z) (r : option (A * Z)) : option (A * Z) :=
  (fun p => (p.1, p.2 + d)%Z) <$> r.

Definition counter_shift {A} (m : St Z A) : Prop :=
  forall n d, m (n + d)%Z = shift_res d (m n).

Lemma counter_shift_ret {A} (a : A) : counter_shift (st_ret a).
Proof. intros n d. reflexivity. Qed.

Lemma counter_shift_fail {A} : counter_shift (@st_fail Z A).
Proof. intros n d. reflexivity. Qed.

Lemma counter_shift_lift {A} (o : option A) : counter_shift (st_lift o).
Proof. intros n d. by destruct o. Qed.

Lemma counter_shift_incr : counter_shift incr_nodes.
Proof. intros n d. unfold incr_nodes, st_modify. cbn. do 2 f_equal. lia. Qed.

Lemma counter_shift_bind {A B} (m : St Z A) (k : A -> St Z B) :
  counter_shift m -> (forall a, counter_shift (k a)) -> counter_shift (st_bind m k).
Proof.
  intros Hm Hk n d. unfold st_bind. rewrite Hm.
  destruct (m n) as [[a s]|]; [apply Hk|done].
Qed.

Lemma shift_res_Some {A} d r (a : A) k :
  shift_res d r = Some (a, k) -> exists k0, r = Some (a, k0) /\ k = (k0 + d)%Z.
Proof. destruct r as [[a0 k0]|]; cbn; [intros [= <- <-]; eauto|done]. Qed.

Create HintDb counter.
#[export] Hint Resolve counter_shift_ret counter_shift_fail counter_shift_lift
  counter_shift_incr counter_shift_bind : counter.

(** ** Python numbers extended with [float('inf')] and [-float('inf')]

    The alpha-beta searches start from [alpha = -float('inf')] and
    [beta = float('inf')] and compare them with integer evaluations. *)

Inductive ext : Type := NegInf | Fin (z : Z) | PosInf.

#[export] Instance ext_eq_dec : EqDecision ext.
Proof. solve_decision. Defined.

(** [x < y] on extended numbers. *)
Definition ext_lt (x y : ext) : bool :=
  match x, y with
  | NegInf, NegInf => false
  | NegInf, _ => true
  | Fin a, Fin b => (a <? b)%Z
  | Fin _, PosInf => true
  | _, _ => false
  end.

Definition ext_le (x y : ext) : bool := negb (ext_lt y x).

(** Python's [max(x, y)] keeps [x] unless [y > x]; [min(x, y)] keeps [x]
    unless [y < x]. *)
Definition ext_max (x y : ext) : ext := if ext_lt x y then y else x.
Definition ext_min (x y : ext) : ext := if ext_lt y x then y else x.

(** [x + d] for an integer [d]: infinities absorb it. *)
Definition ext_add (x : ext) (d : Z) : ext :=
  match x with Fin z => Fin (z + d) | _ => x end.

(** [ext_cases] splits every extended number of the goal and its
    hypotheses into its three forms and turns the comparisons on [Z]
    into arithmetic, for [lia]. *)
Ltac ext_cases :=
  repeat match goal with
         | x : ext |- _ => destruct x
         end;
  unfold ext_le, ext_max, ext_min in *; simpl in *;
  repeat match goal with
         | |- context [(?a <? ?b)%Z] => destruct (Z.ltb_spec a b)
         | H : context [(?a <? ?b)%Z] |- _ => destruct (Z.ltb_spec a b)
         end; simpl in *; try discriminate; try congruence.

Ltac ext_lia := ext_cases; try lia.

Lemma ext_le_refl x : ext_le x x = true.
Proof. ext_lia. Qed.

Lemma ext_le_trans x y z : ext_le x y = true -> ext_le y z = true -> ext_le x z = true.
Proof. ext_lia. Qed.

Lemma ext_lt_le x y : ext_lt x y = true -> ext_le x y = true.
Proof. ext_lia. Qed.

Lemma ext_not_le x y : ext_le x y = false -> ext_lt y x = true.
Proof. unfold ext_le. by destruct (ext_lt y x). Qed.

Lemma ext_le_max_l x y : ext_le x (ext_max x y) = true.
Proof. ext_lia. Qed.

Lemma ext_min_le_l x y : ext_le (ext_min x y) x = true.
Proof. ext_lia. Qed.


(** The orders on extended numbers as propositions, for [lia]. *)
Definition ext_leP (x y : ext) : Prop :=
  match x, y with
  | NegInf, _ => True
  | _, PosInf => True
  | Fin a, Fin b => (a <= b)%Z
  | _, _ => False
  end.

Definition ext_ltP (x y : ext) : Prop := ~ ext_leP y x.

Lemma ext_le_leP x y : ext_le x y = true <-> ext_leP x y.
Proof.
  unfold ext_le. destruct x, y; cbn -[Z.ltb]; rewrite ?negb_true_iff, ?Z.ltb_ge;
    intuition congruence.
Qed.

Lemma ext_lt_ltP x y : ext_lt x y = true <-> ext_ltP x y.
Proof.
  unfold ext_ltP. destruct x, y; cbn -[Z.ltb]; rewrite ?Z.ltb_lt; intuition (try congruence; lia).
Qed.

Lemma ext_le_false x y : ext_le x y = false <-> ext_ltP y x.
Proof.
  unfold ext_ltP. rewrite <- ext_le_leP. destruct (ext_le x y); intuition congruence.
Qed.

(** [ext_solve] closes goals of linear arithmetic over extended numbers:
    it splits the extended variables and hands the rest to [lia]. *)
Ltac ext_solve :=
  unfold ext_ltP in *;
  repeat match goal with
         | x : ext |- _ => destruct x
         end; simpl in *; lia.

(** ** Lists: counting what a filter keeps

    The board's open squares are a filter of all squares; marking one
    square flips exactly one entry of the filter. *)

Lemma filter_ext_in {A} (P Q : A -> Prop)
    `{!forall a, Decision (P a)} `{!forall a, Decision (Q a)} (l : list A) :
  (forall y, y ∈ l -> (P y <-> Q y)) -> filter P l = filter Q l.
Proof.
  induction l as [|a l IH]; intros Heq; [done|]. rewrite !filter_cons.
  rewrite IH by (intros y Hy; apply Heq; by right).
  assert (P a <-> Q a) by (apply Heq; left).
  destruct (decide (P a)), (decide (Q a)); naive_solver.
Qed.

Lemma filter_none {A} (P : A -> Prop) `{!forall a, Decision (P a)} (l : list A) :
  (forall y, y ∈ l -> ~ P y) -> filter P l = [].
Proof.
  induction l as [|a l IH]; intros Hn; [done|]. rewrite filter_cons.
  rewrite decide_False by (apply Hn; left). apply IH. intros y Hy. apply Hn. by right.
Qed.

Lemma filter_filter_and {A} (P Q : A -> Prop)
    `{!forall a, Decision (P a)} `{!forall a, Decision (Q a)} (l : list A) :
  filter P (filter Q l) = filter (fun a => P a /\ Q a) l.
Proof.
  induction l as [|a l IH]; [done|]. rewrite !filter_cons.
  destruct (decide (Q a)); [rewrite filter_cons|]; rewrite IH;
    destruct (decide (P a)); repeat case_decide; naive_solver.
Qed.

Lemma length_filter_flip {A} `{EqDecision A} (P Q : A -> Prop)
    `{!forall a, Decision (P a)} `{!forall a, Decision (Q a)} (l : list A) x :
  NoDup l -> x ∈ l -> P x -> ~ Q x ->
  (forall y, y ∈ l -> y <> x -> (P y <-> Q y)) ->
  length (filter P l) = S (length (filter Q l)).
Proof.
  induction l as [|a l IH]; intros Hnd Hx HP HQ Heq; [by apply not_elem_of_nil in Hx|].
  inversion Hnd as [|? ? Ha Hnd2]; subst; clear Hnd; rename Hnd2 into Hnd.
  rewrite !filter_cons.
  destruct (decide (a = x)) as [->|Hne].
  - rewrite decide_True by done. rewrite decide_False by done.
    simpl. do 2 f_equal. apply filter_ext_in. intros y Hy.
    apply Heq; [by right|]. intros ->; done.
  - assert (x ∈ l) as Hxl by (apply elem_of_cons in Hx as [?|?]; congruence).
    assert (P a <-> Q a) as Ha' by (apply Heq; [left|]; done).
    assert (length (filter P l) = S (length (filter Q l))) as IH'.
    { apply IH; try done. intros y Hy Hyx. apply Heq; [by right|done]. }
    destruct (decide (P a)), (decide (Q a)); simpl; rewrite ?IH'; naive_solver.
Qed.

Lemma length_filter_compl {A} (P : A -> Prop) `{!forall a, Decision (P a)} (l : list A) :
  length (filter P l) + length (filter (fun a => ~ P a) l) = length l.
Proof.
  induction l as [|a l IH]; [done|]. rewrite !filter_cons.
  destruct (decide (P a)).
  - rewrite decide_False by tauto. simpl. lia.
  - rewrite decide_True by done. simpl. lia.
Qed.

(** ** The first maximum of a loop with a strict comparison

    [best = float('-inf')]; [for x in l: v = f(x); if v > best: best, move
    = v, x] keeps the first element of [l] with the greatest [f]. *)
Fixpoint argmax_loop {A} (f : A -> Z) (l : list A) (best : ext) (bm : option A) : option A :=
  match l with
  | [] => bm
  | x :: l' => if ext_lt best (Fin (f x)) then argmax_loop f l' (Fin (f x)) (Some x)
               else argmax_loop f l' best bm
  end.

(** Its specification: the first element of [l] that no element beats. *)
Definition first_best {A} (f : A -> Z) (l : list A) : option A :=
  find (fun x => forallb (fun y => (f y <=? f x)%Z) l) l.

Lemma forallb_ext_in {A} (p q : A -> bool) (l : list A) :
  (forall x, x ∈ l -> p x = q x) -> forallb p l = forallb q l.
Proof.
  induction l as [|a l IH]; intros Heq; [done|]. cbn.
  rewrite (Heq a) by left. f_equal. apply IH. intros x Hx. apply Heq. by right.
Qed.

Lemma foldl_ext_in {A B} (f g : B -> A -> B) (l : list A) (acc : B) :
  (forall x acc, x ∈ l -> f acc x = g acc x) -> foldl f acc l = foldl g acc l.
Proof.
  revert acc. induction l as [|a l IH]; intros acc Heq; [done|]. cbn.
  rewrite (Heq a) by left. apply IH. intros x acc' Hx. apply Heq. by right.
Qed.

Lemma find_ext_in {A} (f g : A -> bool) (l : list A) :
  (forall x, x ∈ l -> f x = g x) -> find f l = find g l.
Proof.
  induction l as [|a l IH]; intros Heq; [done|]. cbn.
  rewrite (Heq a) by left. destruct (g a); [done|]. apply IH. intros x Hx. apply Heq. by right.
Qed.

(** The first best of [x :: l] is the first best of [l] when some
    element of [l] beats [x]. *)
Lemma first_best_cons_beaten {A} (f : A -> Z) x l y :
  y ∈ l -> (f x < f y)%Z -> first_best f (x :: l) = first_best f l.
Proof.
  intros Hy Hlt. unfold first_best. cbn.
  replace ((f x <=? f x)%Z && forallb (fun z => (f z <=? f x)%Z) l) with false.
  2:{ symmetry. apply andb_false_iff. right. apply not_true_iff_false.
      rewrite forallb_forall. intros Hall. apply list_elem_of_In, Hall in Hy. lia. }
  apply find_ext_in. intros z Hz. cbn.
  destruct (forallb (fun w => (f w <=? f z)%Z) l) eqn:Hall; [|by rewrite andb_false_r].
  rewrite andb_true_r. apply Z.leb_le. rewrite forallb_forall in Hall.
  apply list_elem_of_In, Hall, Z.leb_le in Hy. lia.
Qed.

Lemma first_best_cons_top {A} (f : A -> Z) x l :
  (forall y, y ∈ l -> (f y <= f x)%Z) -> first_best f (x :: l) = Some x.
Proof.
  intros Hall. unfold first_best. cbn. rewrite Z.leb_refl. cbn.
  replace (forallb _ l) with true; [done|]. symmetry. apply forallb_forall.
  intros y Hy. apply Z.leb_le, Hall, list_elem_of_In, Hy.
Qed.

Lemma first_best_ext_in {A} (f g : A -> Z) l :
  (forall x, x ∈ l -> f x = g x) -> first_best f l = first_best g l.
Proof.
  intros Heq. unfold first_best. apply find_ext_in. intros x Hx.
  rewrite (Heq x Hx). apply forallb_ext_in. intros y Hy. by rewrite (Heq y Hy).
Qed.

Lemma argmax_loop_spec {A} (f : A -> Z) l best bm :
  argmax_loop f l best bm =
  if existsb (fun y => ext_lt best (Fin (f y))) l then first_best f l else bm.
Proof.
  revert best bm. induction l as [|x l IH]; intros best bm; [done|]. cbn.
  destruct (ext_lt best (Fin (f x))) eqn:Hx; cbn; rewrite IH.
  - destruct (existsb _ l) eqn:Hex.
    + apply existsb_exists in Hex as (y & Hy & Hlt). apply list_elem_of_In in Hy.
      cbn in Hlt. apply Z.ltb_lt in Hlt. symmetry. by apply (first_best_cons_beaten f x l y).
    + symmetry. apply first_best_cons_top. intros y Hy. apply list_elem_of_In in Hy.
      destruct (Z.le_gt_cases (f y) (f x)) as [|Hgt]; [done|].
      assert (existsb (fun y => ext_lt (Fin (f x)) (Fin (f y))) l = true); [|congruence].
      apply existsb_exists. exists y. split; [done|]. cbn. by apply Z.ltb_lt.
  - destruct (existsb _ l) eqn:Hex; [|done].
    apply existsb_exists in Hex as (y & Hy & Hlt). apply list_elem_of_In in Hy.
    symmetry. apply (first_best_cons_beaten f x l y); [done|].
    destruct best; cbn -[Z.ltb] in *; rewrite ?Z.ltb_lt, ?Z.ltb_ge in *; try lia; congruence.
Qed.

(** From [float('-inf')] and no move the loop finds the first best
    element. *)
Lemma argmax_loop_first_best {A} (f : A -> Z) l :
  argmax_loop f l NegInf None = first_best f l.
Proof. rewrite argmax_loop_spec. by destruct l. Qed.

Lemma argmax_loop_in {A} (f : A -> Z) l best bm r :
  argmax_loop f l best bm = Some r -> bm = Some r \/ r ∈ l.
Proof.
  revert best bm. induction l as [|x l IH]; intros best bm; cbn; [by left|].
  destruct (ext_lt best (Fin (f x))); intros H%IH; destruct H as [[= ->]|H];
    rewrite ?elem_of_cons; tauto.
Qed.

Lemma argmax_loop_is_Some {A} (f : A -> Z) l best x : is_Some (argmax_loop f l best (Some x)).
Proof.
  revert best x. induction l as [|y l IH]; intros best x; cbn; [by eexists|].
  destruct (ext_lt best (Fin (f y))); apply IH.
Qed.

Lemma first_best_Some {A} (f : A -> Z) l : l <> [] -> exists x, first_best f l = Some x /\ x ∈ l.
Proof.
  intros Hne. rewrite <- argmax_loop_first_best. destruct l as [|y l]; [done|]. cbn.
  destruct (argmax_loop_is_Some f l (Fin (f y)) y) as [x Hx]. exists x. split; [done|].
  apply argmax_loop_in in Hx as [[= ->]|Hx]; [left|by right].
Qed.

(** The values of the character-board searches: finite, between -1
    and 1. *)
Definition in_range (v : ext) : Prop := exists z, v = Fin z /\ (-1 <= z <= 1)%Z.

Lemma max_in_range M e : M = NegInf \/ in_range M -> in_range e -> in_range (ext_max M e).
Proof.
  intros [->|(z & -> & Hz)] (z' & -> & Hz'); unfold ext_max; cbn -[Z.ltb];
    [by exists z'|destruct (z <? z')%Z; eexists; eauto].
Qed.

Lemma min_in_range M e : M = PosInf \/ in_range M -> in_range e -> in_range (ext_min M e).
Proof.
  intros [->|(z & -> & Hz)] (z' & -> & Hz'); unfold ext_min; cbn -[Z.ltb];
    [by exists z'|destruct (z' <? z)%Z; eexists; eauto].
Qed.

(** A fold of [max] ([min]) from [-inf] ([+inf]) over values in range
    is in range as soon as the list is not empty. *)
Lemma foldl_max_in_range {A} (g : A -> ext) l M :
  (forall x, x ∈ l -> in_range (g x)) -> M = NegInf \/ in_range M -> l <> [] \/ in_range M ->
  in_range (foldl (fun M x => ext_max M (g x)) M l).
Proof.
  revert M. induction l as [|x l IH]; intros M Hg HM Hne; [by destruct Hne|]. cbn.
  pose proof (max_in_range M (g x) HM (Hg x ltac:(left))) as Hx.
  apply IH; [intros y Hy; apply Hg; by right|by right|by right].
Qed.

Lemma foldl_min_in_range {A} (g : A -> ext) l M :
  (forall x, x ∈ l -> in_range (g x)) -> M = PosInf \/ in_range M -> l <> [] \/ in_range M ->
  in_range (foldl (fun M x => ext_min M (g x)) M l).
Proof.
  revert M. induction l as [|x l IH]; intros M Hg HM Hne; [by destruct Hne|]. cbn.
  pose proof (min_in_range M (g x) HM (Hg x ltac:(left))) as Hx.
  apply IH; [intros y Hy; apply Hg; by right|by right|by right].
Qed.

(** ** Fail-soft windows over extended values

    [failsoft_ext alpha beta v v'] relates the exhaustive value [v] of a
    node to the value [v'] a fail-soft alpha-beta search computes in the
    window [(alpha, beta)]: below the window [v <= v' <= alpha], inside it
    [v' = v], above it [beta <= v' <= v]. *)
Definition failsoft_ext (alpha beta v v' : ext) : Prop :=
  (ext_leP v alpha -> ext_leP v v' /\ ext_leP v' alpha) /\
  (ext_ltP alpha v -> ext_ltP v beta -> ext_leP v v' /\ ext_leP v' v) /\
  (ext_leP beta v -> ext_leP v' v /\ ext_leP beta v').

(** [ext_arith] decides linear goals over extended numbers with [ext_max],
    [ext_min] and [failsoft_ext]: it splits each extended number, drops
    the impossible cases at once, then splits the comparisons on [Z]. *)
Ltac ext_arith :=
  unfold failsoft_ext, ext_ltP, ext_max, ext_min in *; intros;
  repeat match goal with
         | x : ext |- _ => destruct x; cbn -[Z.ltb] in *; try tauto
         end;
  repeat (match goal with
          | |- context [(?a <? ?b)%Z] => destruct (Z.ltb_spec a b)
          | H : context [(?a <? ?b)%Z] |- _ => destruct (Z.ltb_spec a b)
          end; cbn -[Z.ltb] in * ); lia.

#[export] Instance ext_leP_dec x y : Decision (ext_leP x y).
Proof. destruct x, y; cbn; apply _. Defined.

Lemma ext_leP_antisym x y : ext_leP x y -> ext_leP y x -> x = y.
Proof. destruct x, y; cbn; intros; try done; f_equal; lia. Qed.

Lemma ext_leP_refl x : ext_leP x x.
Proof. ext_arith. Qed.

Lemma ext_leP_ltP_trans x y z : ext_leP x y -> ext_ltP y z -> ext_ltP x z.
Proof. ext_arith. Qed.

Lemma ext_ltP_leP_trans x y z : ext_ltP x y -> ext_leP y z -> ext_ltP x z.
Proof. ext_arith. Qed.

Lemma ext_max_idem x : ext_max x x = x.
Proof. unfold ext_max. destruct x; cbn -[Z.ltb]; rewrite ?Z.ltb_irrefl; done. Qed.

(** The number of a finite value ([0] for the infinities). *)
Definition zval (e : ext) : Z := match e with Fin z => z | _ => 0%Z end.

Lemma ext_leP_trans x y z : ext_leP x y -> ext_leP y z -> ext_leP x z.
Proof. ext_arith. Qed.

Lemma ext_leP_max_r x y z : ext_leP x y -> ext_leP x (ext_max y z).
Proof. ext_arith. Qed.

Lemma ext_min_leP_r x y z : ext_leP x y -> ext_leP (ext_min x z) y.
Proof. ext_arith. Qed.

Lemma failsoft_ext_refl alpha beta v : failsoft_ext alpha beta v v.
Proof. ext_arith. Qed.

(** In the full window the search is exact. *)
Lemma failsoft_ext_full v v' : failsoft_ext NegInf PosInf v v' -> v' = v.
Proof. intros H. apply ext_leP_antisym; revert H; ext_arith. Qed.

(** At the root, a child searched in [(alpha, +inf)] beats [alpha]
    exactly when its exhaustive value does, and is then that value. *)
Lemma failsoft_ext_root alpha z v' :
  failsoft_ext alpha PosInf (Fin z) v' ->
  ext_lt alpha v' = ext_lt alpha (Fin z) /\ (ext_lt alpha (Fin z) = true -> v' = Fin z).
Proof.
  intros Hf. destruct (decide (ext_leP (Fin z) alpha)) as [Hle|Hnle].
  - assert (~ ext_ltP alpha v' /\ ~ ext_ltP alpha (Fin z)) as [H1 H2] by (revert Hf Hle; ext_arith).
    rewrite <- ext_lt_ltP, not_true_iff_false in H1, H2. rewrite H1, H2. by split.
  - assert (v' = Fin z) as -> by (apply ext_leP_antisym; revert Hf Hnle; ext_arith). by split.
Qed.

(** One step of a maximizing loop: the running value [M'] of the search
    follows the exhaustive [M] when the child was searched in the window
    [(A, beta)] of the loop's current alpha [A]. *)
Lemma failsoft_ext_max_step alpha beta A M M' c c' :
  ext_leP alpha A -> ext_leP A (ext_max alpha M') -> ext_ltP A beta ->
  failsoft_ext alpha beta M M' -> failsoft_ext A beta c c' ->
  failsoft_ext alpha beta (ext_max M c) (ext_max M' c').
Proof. ext_arith. Qed.

Lemma failsoft_ext_min_step alpha beta Bt M M' c c' :
  ext_leP Bt beta -> ext_leP (ext_min beta M') Bt -> ext_ltP alpha Bt ->
  failsoft_ext alpha beta M M' -> failsoft_ext alpha Bt c c' ->
  failsoft_ext alpha beta (ext_min M c) (ext_min M' c').
Proof. ext_arith. Qed.

(** A cut: the value that reached [beta] (fell to [alpha]) bounds every
    larger (smaller) exhaustive value, whatever the squares left. *)
Lemma failsoft_ext_raise alpha beta v v' Mf :
  ext_ltP alpha beta -> failsoft_ext alpha beta v v' -> ext_leP beta v' -> ext_leP v Mf ->
  failsoft_ext alpha beta Mf v'.
Proof. ext_arith. Qed.

Lemma failsoft_ext_lower alpha beta v v' Mf :
  ext_ltP alpha beta -> failsoft_ext alpha beta v v' -> ext_leP v' alpha -> ext_leP Mf v ->
  failsoft_ext alpha beta Mf v'.
Proof. ext_arith. Qed.

(** A left fold with [max] ([min]) only grows (shrinks) its start. *)
Lemma foldl_ext_max_ge {A} (g : A -> ext) l M :
  ext_leP M (foldl (fun M x => ext_max M (g x)) M l).
Proof.
  revert M. induction l as [|x l IH]; intros M; cbn; [ext_arith|].
  eapply ext_leP_trans; [|apply IH]. generalize (g x). clear IH. ext_arith.
Qed.

Lemma foldl_ext_min_le {A} (g : A -> ext) l M :
  ext_leP (foldl (fun M x => ext_min M (g x)) M l) M.
Proof.
  revert M. induction l as [|x l IH]; intros M; cbn; [ext_arith|].
  eapply ext_leP_trans; [apply IH|]. generalize (g x). clear IH. ext_arith.
Qed.

(** ** Alpha-beta loops over a state, against the exhaustive fold

    The maximizing loops of the searches keep [max_eval = max(max_eval,
    eval)] and move [alpha] by an update [upd alpha max_eval eval] that
    differs between the programs ([max(alpha, max_eval)] or
    [max(alpha, eval)]), then [break] when [beta <= alpha]; the
    minimizing loops are their mirror.  [fs_max_loop] and [fs_min_loop]
    are these loops with the update as a parameter; each program's loop
    is shown equal to one of them. *)
Section FailsoftLoops.
  Context {S B X : Type} (brd : S -> B) (b : B).
  Context (ev : ext -> ext -> X -> St S ext) (val : X -> ext).

Fixpoint fs_max_loop (upd : ext -> ext -> ext -> ext) (l : list X) (alpha beta M : ext)
    : St S ext :=
  match l with
  | [] => st_ret M
  | x :: l' =>
      e <- ev alpha beta x ;;
      if ext_le beta (upd alpha (ext_max M e) e) then st_ret (ext_max M e)
      else fs_max_loop upd l' (upd alpha (ext_max M e) e) beta (ext_max M e)
  end.

Fixpoint fs_min_loop (upd : ext -> ext -> ext -> ext) (l : list X) (alpha beta M : ext)
    : St S ext :=
  match l with
  | [] => st_ret M
  | x :: l' =>
      e <- ev alpha beta x ;;
      if ext_le (upd beta (ext_min M e) e) alpha then st_ret (ext_min M e)
      else fs_min_loop upd l' alpha (upd beta (ext_min M e) e) (ext_min M e)
  end.

(** Each child search that returns gives the board back and is
    fail-soft with respect to the child's exhaustive value [val x]. *)
Definition child_sound (l : list X) : Prop :=
  forall x, x ∈ l -> forall a bt s e s', brd s = b -> ev a bt x s = Some (e, s') ->
    ext_ltP a bt -> brd s' = b /\ failsoft_ext a bt (val x) e.

Lemma child_sound_cons x l : child_sound (x :: l) -> child_sound l.
Proof. intros Hl y Hy. apply Hl. by right. Qed.

(** What the update of [alpha] must do: not lower it, keep it below the
    running best, and reach [beta] only when the running best does. *)
Definition max_upd_ok (upd : ext -> ext -> ext -> ext) : Prop :=
  forall alpha0 alpha beta M' e,
    ext_leP alpha (upd alpha (ext_max M' e) e) /\
    (ext_leP alpha (ext_max alpha0 M') ->
     ext_leP (upd alpha (ext_max M' e) e) (ext_max alpha0 (ext_max M' e))) /\
    (ext_ltP alpha beta -> ext_leP beta (upd alpha (ext_max M' e) e) -> ext_leP beta (ext_max M' e)).

Definition min_upd_ok (upd : ext -> ext -> ext -> ext) : Prop :=
  forall beta0 alpha beta M' e,
    ext_leP (upd beta (ext_min M' e) e) beta /\
    (ext_leP (ext_min beta0 M') beta ->
     ext_leP (ext_min beta0 (ext_min M' e)) (upd beta (ext_min M' e) e)) /\
    (ext_ltP alpha beta -> ext_leP (upd beta (ext_min M' e) e) alpha -> ext_leP (ext_min M' e) alpha).

Lemma fs_max_loop_sound upd l alpha0 alpha beta M M' s r s' :
  max_upd_ok upd -> child_sound l -> brd s = b ->
  ext_leP alpha0 alpha -> ext_leP alpha (ext_max alpha0 M') -> ext_ltP alpha beta ->
  failsoft_ext alpha0 beta M M' -> fs_max_loop upd l alpha beta M' s = Some (r, s') ->
  brd s' = b /\ failsoft_ext alpha0 beta (foldl (fun M x => ext_max M (val x)) M l) r.
Proof.
  intros Hu. revert alpha M M' s.
  induction l as [|x l IH]; intros alpha M M' s Hl Hs H0 H1 H2 HM Hrun.
  { injection Hrun as <- <-. by split. }
  cbn [fs_max_loop foldl] in *. apply st_bind_Some in Hrun as (e & s1 & He & Hk).
  destruct (Hl x (list_elem_of_here _ _) _ _ _ _ _ Hs He H2) as [Hs1 Hc].
  pose proof (failsoft_ext_max_step _ _ _ _ _ _ _ H0 H1 H2 HM Hc) as Hstep.
  destruct (Hu alpha0 alpha beta M' e) as (Hup1 & Hup2 & Hup3).
  destruct (ext_le beta _) eqn:Hcut.
  - injection Hk as <- <-. split; [done|]. apply ext_le_leP in Hcut.
    eapply failsoft_ext_raise; [eapply ext_leP_ltP_trans; eauto|exact Hstep|auto|].
    apply foldl_ext_max_ge.
  - apply ext_le_false in Hcut.
    eapply IH; [by eapply child_sound_cons|exact Hs1|by eapply ext_leP_trans|auto|exact Hcut|
                exact Hstep|exact Hk].
Qed.

Lemma fs_min_loop_sound upd l beta0 alpha beta M M' s r s' :
  min_upd_ok upd -> child_sound l -> brd s = b ->
  ext_leP beta beta0 -> ext_leP (ext_min beta0 M') beta -> ext_ltP alpha beta ->
  failsoft_ext alpha beta0 M M' -> fs_min_loop upd l alpha beta M' s = Some (r, s') ->
  brd s' = b /\ failsoft_ext alpha beta0 (foldl (fun M x => ext_min M (val x)) M l) r.
Proof.
  intros Hu. revert beta M M' s.
  induction l as [|x l IH]; intros beta M M' s Hl Hs H0 H1 H2 HM Hrun.
  { injection Hrun as <- <-. by split. }
  cbn [fs_min_loop foldl] in *. apply st_bind_Some in Hrun as (e & s1 & He & Hk).
  destruct (Hl x (list_elem_of_here _ _) _ _ _ _ _ Hs He H2) as [Hs1 Hc].
  pose proof (failsoft_ext_min_step _ _ _ _ _ _ _ H0 H1 H2 HM Hc) as Hstep.
  destruct (Hu beta0 alpha beta M' e) as (Hup1 & Hup2 & Hup3).
  destruct (ext_le _ alpha) eqn:Hcut.
  - injection Hk as <- <-. split; [done|]. apply ext_le_leP in Hcut.
    eapply failsoft_ext_lower; [eapply ext_ltP_leP_trans; eauto|exact Hstep|auto|].
    apply foldl_ext_min_le.
  - apply ext_le_false in Hcut.
    eapply IH; [by eapply child_sound_cons|exact Hs1|by eapply ext_leP_trans|auto|exact Hcut|
                exact Hstep|exact Hk].
Qed.

End FailsoftLoops.

(** The two updates of [alpha] ([beta]) the programs use. *)
Lemma max_upd_ok_running : max_upd_ok (fun alpha M _ => ext_max alpha M).
Proof. intros ? ? ? ? ?. split_and!; ext_arith. Qed.

Lemma max_upd_ok_child : max_upd_ok (fun alpha _ e => ext_max alpha e).
Proof. intros ? ? ? ? ?. split_and!; ext_arith. Qed.

Lemma min_upd_ok_running : min_upd_ok (fun beta M _ => ext_min beta M).
Proof. intros ? ? ? ? ?. split_and!; ext_arith. Qed.

Lemma min_upd_ok_child : min_upd_ok (fun beta _ e => ext_min beta e).
Proof. intros ? ? ? ? ?. split_and!; ext_arith. Qed.

Create HintDb ttt.
#[export] Hint Resolve ext_le_refl ext_lt_le ext_le_max_l ext_min_le_l : ttt.
