(* ===== verification/Interface.v ===== *)
(** * The board interface the search engine is written against

    Every [AI] class of the repository calls exactly four methods of its
    [Board]: [final_state()], [isfull()], [get_empty_sqrs()] and
    [mark_sqr(row, col, player)] (on a [copy.deepcopy] of the board, which
    in this functional model is the board value itself).  [BoardState]
    collects them, so that the searches of [Minimax.v] and [AlphaBeta.v]
    are proved once for every board with these methods; [Board.v] gives
    the instance of the 3x3 board of [tictactoe.py] and [Alpha_beta.py].

    [BoardLaws] states what the searches need of the board: on a
    well-formed board, marking an open square with a nonzero player
    succeeds and closes one square (termination) and preserves the
    well-formedness, and a well-formed board that is not full has an open
    square. *)

From stdpp Require Import base list numbers.
From S2P Require Import Prelude.

Class BoardState (B : Type) := {
  final_state : B -> Z;
  isfull : B -> bool;
  get_empty_sqrs : B -> list (nat * nat);
  mark_sqr : B -> nat -> nat -> Z -> option B
}.

Class BoardLaws (B : Type) `{!BoardState B} := {
  board_wf : B -> Prop;
  mark_sqr_open : forall b r c p, board_wf b -> p <> 0%Z -> (r, c) ∈ get_empty_sqrs b ->
    exists b', mark_sqr b r c p = Some b' /\
               length (get_empty_sqrs b') < length (get_empty_sqrs b);
  mark_sqr_wf : forall b r c p b', board_wf b -> isfull b = false -> p <> 0%Z ->
    (r, c) ∈ get_empty_sqrs b -> mark_sqr b r c p = Some b' -> board_wf b';
  wf_not_full_open : forall b, board_wf b -> isfull b = false -> get_empty_sqrs b <> []
}.

(** The fuel the searches are run with: one more than the number of open
    squares, which bounds the depth of the game tree below [b]. *)
Definition search_fuel {B} `{!BoardState B} (b : B) : nat :=
  S (length (get_empty_sqrs b)).
