(* ===== verification/Board.v ===== *)
(** * The board: [class Board] of [tictactoe.py] and [Alpha_beta.py]

    [Module Grid] holds the methods that the 3x3 board of [tictactoe.py]
    / [Alpha_beta.py] and the 5x5 board of [distance_improve.py] share
    word for word ([mark_sqr], [empty_sqr], [get_empty_sqrs], [isfull],
    [isempty]) over a numpy array of [ROW] rows and [COL] columns, with its
    invariant [wf]: the array keeps its shape and [marked_sqrs] counts the
    nonzero squares.  [Module Board] adds the 3x3 [final_state] and the
    [BoardState]/[BoardLaws] instances. *)

From Stdlib Require Import ZArith Lia.
From stdpp Require Import base list numbers options.
From S2P Require Import Prelude Interface.

Module Grid.

(** [self.squares] (a numpy array of floats holding 0, 1 or 2) and
    [self.marked_sqrs].  The attribute [self.empty_sqrs] is an alias of
    [self.squares] that no method reads; it is not modelled. *)
Record board := mkBoard { squares : list (list Z); marked_sqrs : Z }.

(** [self.squares[row][col]] for an index inside the array.  Every read of
    the code uses indices from [range(ROW)], [range(COL)] or fixed indices
    below 3, inside the array's shape (see [wf]); the default [0] is never
    observed on such boards. *)
Definition cell (b : board) (row col : nat) : Z :=
  default 0%Z (squares b !! row ≫= fun r => r !! col).

(** [Board.mark_sqr]: a numpy item assignment raises [IndexError] outside
    the array (indices are natural numbers: the GUI computes them as
    [pos // SQSIZE]); the counter is incremented whatever the old value of
    the square. *)
Definition mark_sqr (b : board) (row col : nat) (player : Z) : option board :=
  match squares b !! row with
  | Some r =>
      if decide (col < length r)
      then Some (mkBoard (<[row := <[col := player]> r]> (squares b)) (marked_sqrs b + 1))
      else None
  | None => None
  end.

(** [Board.empty_sqr]: [self.squares[row][col] == 0]. *)
Definition empty_sqr (b : board) (row col : nat) : bool := bool_decide (cell b row col = 0%Z).

(** [Board.isfull] compares the counter with 9 on every board size. *)
Definition isfull (b : board) : bool := bool_decide (marked_sqrs b = 9%Z).

Definition isempty (b : board) : bool := bool_decide (marked_sqrs b = 0%Z).

Section Shape.
  Variables ROW COL : nat.

  (** [Board.__init__]: [np.zeros((ROW, COL))] and [marked_sqrs = 0]. *)
Definition new_board : board := mkBoard (replicate ROW (replicate COL 0%Z)) 0.

  (** [Board.get_empty_sqrs]: the two nested loops over [range(ROW)] and
      [range(COL)], appending [(row, col)] when the square is empty. *)
Definition get_empty_sqrs (b : board) : list (nat * nat) :=
    flat_map (fun row =>
      flat_map (fun col => if empty_sqr b row col then [(row, col)] else [])
               (seq 0 COL))
      (seq 0 ROW).

  (** All squares, in the order of the loops. *)
Definition all_sqrs : list (nat * nat) :=
    flat_map (fun row => map (fun col => (row, col)) (seq 0 COL)) (seq 0 ROW).

Definition shaped (b : board) : Prop :=
    length (squares b) = ROW /\ Forall (fun r => length r = COL) (squares b).

Definition count_marked (b : board) : nat :=
    length (filter (fun rc => cell b rc.1 rc.2 <> 0%Z) all_sqrs).

  (** The board invariant: the array keeps its shape, and [marked_sqrs]
      is the number of nonzero squares. *)
Definition wf (b : board) : Prop :=
    shaped b /\ marked_sqrs b = Z.of_nat (count_marked b).

End Shape.

Section ShapeLemmas.
  Variables ROW COL : nat.

Lemma empty_sqr_true b r c : empty_sqr b r c = true <-> cell b r c = 0%Z.
  Proof. unfold empty_sqr. apply bool_decide_eq_true. Qed.

Lemma flat_map_if_filter (e : nat -> nat -> bool) (rows cols : list nat) :
    flat_map (fun r => flat_map (fun c => if e r c then [(r, c)] else []) cols) rows =
    filter (fun rc => e rc.1 rc.2 = true) (flat_map (fun r => map (fun c => (r, c)) cols) rows).
  Proof.
    induction rows as [|r rows IH]; [done|]. simpl. rewrite list.filter_app, IH. f_equal. clear IH.
    induction cols as [|c cols IHc]; [done|]. simpl. rewrite filter_cons, IHc.
    destruct (e r c) eqn:E; simpl; case_decide; congruence.
  Qed.

  (** The open squares are the squares of [all_sqrs] whose value is 0,
      in the same (row-major) order. *)
Lemma get_empty_sqrs_filter b :
    get_empty_sqrs ROW COL b = filter (fun rc => cell b rc.1 rc.2 = 0%Z) (all_sqrs ROW COL).
  Proof.
    unfold get_empty_sqrs, all_sqrs. rewrite flat_map_if_filter.
    apply list_filter_iff. intros [r c]. apply empty_sqr_true.
  Qed.

Lemma elem_of_all_sqrs_gen s n r c :
    (r, c) ∈ flat_map (fun row => map (fun col => (row, col)) (seq 0 COL)) (seq s n) <->
    s <= r < s + n /\ c < COL.
  Proof.
    rewrite list_elem_of_In, in_flat_map. split.
    - intros (r' & Hr' & Hin). apply in_map_iff in Hin as (c' & [= -> ->] & Hc).
      apply in_seq in Hr', Hc. lia.
    - intros [Hr Hc]. exists r. split; [apply in_seq; lia|].
      apply in_map_iff. exists c. split; [done|]. apply in_seq; lia.
  Qed.

Lemma elem_of_all_sqrs r c : (r, c) ∈ all_sqrs ROW COL <-> r < ROW /\ c < COL.
  Proof. unfold all_sqrs. rewrite elem_of_all_sqrs_gen. lia. Qed.

Lemma NoDup_map_pair (r : nat) (l : list nat) :
    NoDup l -> NoDup (map (fun c => (r, c)) l).
  Proof.
    induction 1 as [|c l Hc Hl IH]; simpl; constructor; [|done].
    rewrite list_elem_of_In, in_map_iff. intros (c' & [= ->] & Hin).
    apply Hc, list_elem_of_In, Hin.
  Qed.

Lemma NoDup_all_sqrs_gen s n :
    NoDup (flat_map (fun row => map (fun col => (row, col)) (seq 0 COL)) (seq s n)).
  Proof.
    revert s. induction n as [|n IH]; intros s; simpl; [constructor|].
    apply list.NoDup_app. split_and!.
    - apply NoDup_map_pair, NoDup_seq.
    - intros [r c] Hin Hin'. rewrite elem_of_all_sqrs_gen in Hin'.
      rewrite list_elem_of_In, in_map_iff in Hin. destruct Hin as (c' & [= -> ->] & _). lia.
    - apply IH.
  Qed.

Lemma NoDup_all_sqrs : NoDup (all_sqrs ROW COL).
  Proof. apply NoDup_all_sqrs_gen. Qed.

Lemma elem_of_get_empty_sqrs b r c :
    (r, c) ∈ get_empty_sqrs ROW COL b <-> r < ROW /\ c < COL /\ cell b r c = 0%Z.
  Proof. rewrite get_empty_sqrs_filter, list_elem_of_filter, elem_of_all_sqrs. simpl. tauto. Qed.

Lemma length_all_sqrs_gen s n :
    length (flat_map (fun row => map (fun col => (row, col)) (seq 0 COL)) (seq s n)) = n * COL.
  Proof.
    revert s. induction n as [|n IH]; intros s; simpl; [done|].
    rewrite length_app, length_map, length_seq, IH. lia.
  Qed.

Lemma length_all_sqrs : length (all_sqrs ROW COL) = ROW * COL.
  Proof. apply length_all_sqrs_gen. Qed.

  (** Open squares and marked squares partition the board. *)
Lemma length_empty_count b :
    length (get_empty_sqrs ROW COL b) + count_marked ROW COL b = ROW * COL.
  Proof.
    pose proof (length_filter_compl (fun rc => cell b rc.1 rc.2 = 0%Z) (all_sqrs ROW COL)) as H.
    rewrite get_empty_sqrs_filter, <- length_all_sqrs, <- H. unfold count_marked.
    f_equal.
  Qed.

  (** A successful [mark_sqr] writes the one square it names. *)
Lemma cell_mark_sqr b r c p b' r' c' :
    mark_sqr b r c p = Some b' ->
    cell b' r' c' = if decide ((r', c') = (r, c)) then p else cell b r' c'.
  Proof.
    unfold mark_sqr, cell. destruct (squares b !! r) as [row|] eqn:Er; [|discriminate].
    case_decide as Hc; [|discriminate]. intros [= <-]. simpl.
    rewrite list_lookup_insert. pose proof (lookup_lt_Some _ _ _ Er).
    destruct (decide (r = r')) as [<-|Hr].
    - rewrite decide_True by (split; [done|lia]). simpl. rewrite list_lookup_insert.
      destruct (decide (c = c')) as [<-|Hcc].
      + rewrite decide_True by (split; [done|lia]). by rewrite decide_True.
      + rewrite decide_False by lia. rewrite decide_False by congruence. by rewrite Er.
    - rewrite decide_False by lia. by rewrite decide_False by congruence.
  Qed.

Lemma mark_sqr_marked b r c p b' :
    mark_sqr b r c p = Some b' -> marked_sqrs b' = (marked_sqrs b + 1)%Z.
  Proof.
    unfold mark_sqr. destruct (squares b !! r); [|discriminate].
    case_decide; [|discriminate]. by intros [= <-].
  Qed.

Lemma mark_sqr_shaped b r c p b' :
    shaped ROW COL b -> mark_sqr b r c p = Some b' -> shaped ROW COL b'.
  Proof.
    unfold mark_sqr, shaped. intros [Hlen Hrows].
    destruct (squares b !! r) as [row|] eqn:Er; [|discriminate].
    case_decide; [|discriminate]. intros [= <-]. simpl. split.
    - by rewrite length_insert.
    - apply Forall_insert; [done|]. rewrite length_insert.
      rewrite Forall_lookup in Hrows. by apply (Hrows r).
  Qed.

  (** [mark_sqr] succeeds on every square inside a well-shaped board. *)
Lemma mark_sqr_in_range b r c p :
    shaped ROW COL b -> r < ROW -> c < COL -> is_Some (mark_sqr b r c p).
  Proof.
    unfold mark_sqr, shaped. intros [Hlen Hrows] Hr Hc.
    destruct (lookup_lt_is_Some_2 (squares b) r) as [row Er]; [lia|]. rewrite Er.
    rewrite decide_True; [eauto|]. rewrite Forall_lookup in Hrows. by rewrite (Hrows r row Er).
  Qed.

  (** Marking an open square with a nonzero player closes exactly that
      square and marks exactly one more. *)
Lemma mark_sqr_open_counts b r c p b' :
    r < ROW -> c < COL -> cell b r c = 0%Z -> p <> 0%Z -> mark_sqr b r c p = Some b' ->
    length (get_empty_sqrs ROW COL b) = S (length (get_empty_sqrs ROW COL b')) /\
    count_marked ROW COL b' = S (count_marked ROW COL b).
  Proof.
    intros Hr Hc H0 Hp Hm. rewrite !get_empty_sqrs_filter. unfold count_marked.
    assert ((r, c) ∈ all_sqrs ROW COL) as Hin by (apply elem_of_all_sqrs; lia).
    pose proof (fun r2 c2 => cell_mark_sqr _ _ _ _ _ r2 c2 Hm) as Hcell.
    assert (forall y, y ∈ all_sqrs ROW COL -> y <> (r, c) -> cell b' y.1 y.2 = cell b y.1 y.2)
      as Hother by (intros [r' c'] _ Hne; rewrite Hcell; by rewrite decide_False).
    split; apply (length_filter_flip _ _ _ (r, c) NoDup_all_sqrs Hin); simpl;
      rewrite ?Hcell, ?decide_True by done; try done;
      try (intros y Hy Hne; by rewrite (Hother y Hy Hne)); tauto.
  Qed.

Lemma mark_sqr_wf b r c p b' :
    wf ROW COL b -> r < ROW -> c < COL -> cell b r c = 0%Z -> p <> 0%Z ->
    mark_sqr b r c p = Some b' -> wf ROW COL b'.
  Proof.
    intros [Hsh Hcnt] Hr Hc H0 Hp Hm. split; [by eapply mark_sqr_shaped|].
    rewrite (mark_sqr_marked _ _ _ _ _ Hm), Hcnt.
    destruct (mark_sqr_open_counts b r c p b') as [_ ->]; [done..|]. lia.
  Qed.

  (** The number of squares holding the value [v]. *)
Definition count_val (v : Z) (b : board) : nat :=
    length (filter (fun rc => cell b rc.1 rc.2 = v) (all_sqrs ROW COL)).

Lemma mark_sqr_range b r c p b' :
    shaped ROW COL b -> mark_sqr b r c p = Some b' -> r < ROW /\ c < COL.
  Proof.
    unfold mark_sqr, shaped. intros [Hlen Hrows].
    destruct (squares b !! r) as [row|] eqn:Er; [|discriminate].
    case_decide as Hc; [|discriminate]. intros _.
    pose proof (lookup_lt_Some _ _ _ Er). rewrite Forall_lookup in Hrows.
    rewrite (Hrows r row Er) in Hc. lia.
  Qed.

  (** Marking an open square with [p] adds one square of value [p] and
      keeps the count of every other nonzero value. *)
Lemma mark_sqr_count_val b r c p b' :
    r < ROW -> c < COL -> cell b r c = 0%Z -> p <> 0%Z -> mark_sqr b r c p = Some b' ->
    count_val p b' = S (count_val p b) /\
    forall q, q <> p -> q <> 0%Z -> count_val q b' = count_val q b.
  Proof.
    intros Hr Hc H0 Hp Hm. unfold count_val.
    assert ((r, c) ∈ all_sqrs ROW COL) as Hin by (apply elem_of_all_sqrs; lia).
    pose proof (fun r2 c2 => cell_mark_sqr _ _ _ _ _ r2 c2 Hm) as Hcell.
    split.
    - apply (length_filter_flip _ _ _ (r, c) NoDup_all_sqrs Hin); simpl.
      + rewrite Hcell. by rewrite decide_True.
      + congruence.
      + intros [r' c'] _ Hne. simpl. rewrite Hcell. by rewrite decide_False.
    - intros q Hq Hq0. f_equal. apply filter_ext_in. intros [r' c'] _. simpl.
      rewrite Hcell. destruct (decide ((r', c') = (r, c))) as [[= -> ->]|]; [|done].
      split; intros; congruence.
  Qed.

Lemma cell_new_board r c : cell (new_board ROW COL) r c = 0%Z.
  Proof.
    unfold cell, new_board. simpl.
    destruct (decide (r < ROW)).
    - rewrite lookup_replicate_2 by done. simpl.
      destruct (decide (c < COL)); [by rewrite lookup_replicate_2|].
      rewrite (proj1 (lookup_replicate_None _ _ _)) by lia. done.
    - rewrite (proj1 (lookup_replicate_None _ _ _)) by lia. done.
  Qed.

Lemma count_val_new_board v : v <> 0%Z -> count_val v (new_board ROW COL) = 0.
  Proof.
    intros Hv. unfold count_val.
    rewrite filter_none; [done|]. intros [r c] _. simpl. rewrite cell_new_board. congruence.
  Qed.

Lemma new_board_wf : wf ROW COL (new_board ROW COL).
  Proof.
    split; [split|].
    - simpl. by rewrite length_replicate.
    - apply Forall_replicate. by rewrite length_replicate.
    - unfold count_marked. simpl.
      rewrite filter_none; [done|]. intros [r c] _. simpl. rewrite cell_new_board. congruence.
  Qed.

  (** Crosses move first and the sides alternate: the side to move [p]
      is 1 when both sides have as many marks, 2 when crosses have one
      more. *)
Definition alternating (p : Z) (b : board) : Prop :=
    (p = 1%Z /\ count_val 1 b = count_val 2 b) \/ (p = 2%Z /\ count_val 1 b = S (count_val 2 b)).

Lemma alternating_new : alternating 1 (new_board ROW COL).
  Proof. left. split; [done|]. by rewrite !count_val_new_board. Qed.

  (** [make_move] followed by [next_turn] on an open square keeps the
      board well-formed and the sides alternating. *)
Lemma mark_sqr_alternating b r c p b' :
    wf ROW COL b -> alternating p b -> cell b r c = 0%Z -> mark_sqr b r c p = Some b' ->
    wf ROW COL b' /\ alternating (p mod 2 + 1) b'.
  Proof.
    intros Hwf Hbal H0 Hm.
    destruct (mark_sqr_range _ _ _ _ _ (proj1 Hwf) Hm) as [Hr Hc].
    assert (p <> 0%Z) as Hp by (destruct Hbal as [[-> _]|[-> _]]; done).
    destruct (mark_sqr_count_val _ _ _ _ _ Hr Hc H0 Hp Hm) as [Hpc Hq].
    split; [exact (mark_sqr_wf _ _ _ _ _ Hwf Hr Hc H0 Hp Hm)|].
    destruct Hbal as [[-> Heq]|[-> Heq]].
    - right. split; [done|]. rewrite Hpc, (Hq 2%Z) by lia. lia.
    - left. split; [done|]. rewrite Hpc, (Hq 1%Z) by lia. lia.
  Qed.

  (** C29: marking an open square of a well-formed board with a nonzero
      player succeeds, keeps the board well-formed, writes the player in
      that square and nowhere else, and removes exactly that square from
      the open squares, which keep their row-major order. *)
Theorem mark_sqr_spec b r c p :
    wf ROW COL b -> (r, c) ∈ get_empty_sqrs ROW COL b -> p <> 0%Z ->
    exists b', mark_sqr b r c p = Some b' /\ wf ROW COL b' /\ cell b' r c = p /\
      (forall r' c', (r', c') <> (r, c) -> cell b' r' c' = cell b r' c') /\
      get_empty_sqrs ROW COL b' = filter (fun rc => rc <> (r, c)) (get_empty_sqrs ROW COL b).
  Proof.
    intros Hwf Hin Hp. apply elem_of_get_empty_sqrs in Hin as (Hr & Hc & H0).
    destruct (mark_sqr_in_range b r c p) as [b' Hm]; [apply Hwf|done|done|].
    pose proof (fun r2 c2 => cell_mark_sqr _ _ _ _ _ r2 c2 Hm) as Hcell.
    exists b'. split_and!; [done|by eapply mark_sqr_wf| |..].
    - rewrite Hcell. by rewrite decide_True.
    - intros r' c' Hne. rewrite Hcell. by rewrite decide_False.
    - rewrite !get_empty_sqrs_filter, filter_filter_and. apply filter_ext_in.
      intros [r' c'] _. simpl. rewrite Hcell.
      destruct (decide ((r', c') = (r, c))); naive_solver.
  Qed.

  (** C30: outside the array, [mark_sqr] raises (numpy's [IndexError])
      instead of writing anything. *)
Theorem mark_sqr_out_of_range b r c p :
    shaped ROW COL b -> (ROW <= r \/ COL <= c) -> mark_sqr b r c p = None.
  Proof.
    intros Hsh Hout. destruct (mark_sqr b r c p) as [b'|] eqn:Hm; [|done].
    apply mark_sqr_range in Hm as [? ?]; [lia|done].
  Qed.

End ShapeLemmas.

End Grid.

Module Board.
Import Grid.

(** [ROW] and [COL] come from the repository's [constants.py]. *)
Definition ROW : nat := 3.
Definition COL : nat := 3.

(** The condition [a == b == c != 0] of [final_state]: Python chains it
    as [a == b and b == c and c != 0]. *)
Definition line_win (a b c : Z) : bool := (a =? b)%Z && (b =? c)%Z && negb (c =? 0)%Z.

(** [for x in xs: if found(x): return value(x)] *)
Fixpoint scan (f : nat -> option Z) (xs : list nat) : option Z :=
  match xs with
  | [] => None
  | x :: xs' => match f x with Some v => Some v | None => scan f xs' end
  end.

(** [Board.final_state(show=False)]: columns, then rows, then the
    descending and the ascending diagonal; 0 when no line is complete. *)
Definition final_state (b : board) : Z :=
  match scan (fun col => if line_win (cell b 0 col) (cell b 1 col) (cell b 2 col)
                        then Some (cell b 0 col) else None) (seq 0 COL) with
  | Some v => v
  | None =>
    match scan (fun row => if line_win (cell b row 0) (cell b row 1) (cell b row 2)
                          then Some (cell b row 0) else None) (seq 0 ROW) with
    | Some v => v
    | None =>
      if line_win (cell b 0 0) (cell b 1 1) (cell b 2 2) then cell b 1 1
      else if line_win (cell b 2 0) (cell b 1 1) (cell b 0 2) then cell b 1 1
      else 0%Z
    end
  end.

(** ** Reference specification of [final_state]

    The eight winning lines in the order [final_state] tries them, and the
    owner of the first complete one. *)
Definition winning_lines : list ((nat * nat) * (nat * nat) * (nat * nat)) :=
  [ ((0,0),(1,0),(2,0)); ((0,1),(1,1),(2,1)); ((0,2),(1,2),(2,2));
    ((0,0),(0,1),(0,2)); ((1,0),(1,1),(1,2)); ((2,0),(2,1),(2,2));
    ((0,0),(1,1),(2,2)); ((2,0),(1,1),(0,2)) ].

Definition sq (b : board) (rc : nat * nat) : Z := cell b rc.1 rc.2.

Definition line_complete (b : board) (ln : (nat * nat) * (nat * nat) * (nat * nat)) : Prop :=
  sq b ln.1.1 = sq b ln.1.2 /\ sq b ln.1.2 = sq b ln.2 /\ sq b ln.2 <> 0%Z.

#[export] Instance line_complete_dec b ln : Decision (line_complete b ln).
Proof. unfold line_complete. apply _. Defined.

Definition final_state_ref (b : board) : Z :=
  match list_find (line_complete b) winning_lines with
  | Some (_, ln) => sq b ln.1.1
  | None => 0%Z
  end.

Lemma line_win_complete a b c : line_win a b c = true <-> a = b /\ b = c /\ c <> 0%Z.
Proof.
  unfold line_win. rewrite !andb_true_iff, negb_true_iff, !Z.eqb_eq, Z.eqb_neq. tauto.
Qed.

(** The interface instance: the 3x3 board of [tictactoe.py]. *)
#[export] Instance board_state : BoardState board :=
  Build_BoardState board final_state isfull (get_empty_sqrs ROW COL) mark_sqr.

Lemma wf_count_le b : count_marked ROW COL b <= 9.
Proof.
  pose proof (length_empty_count ROW COL b) as H. unfold ROW, COL in *. lia.
Qed.

Lemma board_mark_open b r c p :
  wf ROW COL b -> p <> 0%Z -> (r, c) ∈ get_empty_sqrs ROW COL b ->
  exists b', mark_sqr b r c p = Some b' /\
             length (get_empty_sqrs ROW COL b') < length (get_empty_sqrs ROW COL b).
Proof.
  intros Hwf Hp Hin. apply elem_of_get_empty_sqrs in Hin as (Hr & Hc & H0).
  destruct (mark_sqr_in_range ROW COL b r c p) as [b' Hm]; [apply Hwf|done|done|].
  exists b'. split; [done|].
  destruct (mark_sqr_open_counts ROW COL b r c p b') as [-> _]; [done..|]. lia.
Qed.

Lemma board_mark_wf b r c p b' :
  wf ROW COL b -> isfull b = false -> p <> 0%Z -> (r, c) ∈ get_empty_sqrs ROW COL b ->
  mark_sqr b r c p = Some b' -> wf ROW COL b'.
Proof.
  intros Hwf _ Hp Hin Hm. apply elem_of_get_empty_sqrs in Hin as (Hr & Hc & H0).
  exact (mark_sqr_wf ROW COL b r c p b' Hwf Hr Hc H0 Hp Hm).
Qed.

Lemma board_not_full_open b :
  wf ROW COL b -> isfull b = false -> get_empty_sqrs ROW COL b <> [].
Proof.
  intros [Hsh Hcnt] Hfull Hnil. unfold isfull in Hfull.
  apply bool_decide_eq_false in Hfull.
  pose proof (length_empty_count ROW COL b) as H. rewrite Hnil in H.
  assert (count_marked ROW COL b = 9) by (simpl in H; unfold ROW, COL in *; lia). lia.
Qed.

#[export] Instance board_laws : BoardLaws board :=
  Build_BoardLaws board _ (wf ROW COL) board_mark_open board_mark_wf board_not_full_open.

(** ** Theorems on [final_state] *)

Lemma decide_line_complete {A} b ln (x y : A) :
  (if decide (line_complete b ln) then x else y) =
  (if line_win (sq b ln.1.1) (sq b ln.1.2) (sq b ln.2) then x else y).
Proof.
  destruct (line_win _ _ _) eqn:E.
  - apply line_win_complete in E. by rewrite decide_True.
  - rewrite decide_False; [done|]. intros H. apply line_win_complete in H. congruence.
Qed.

Lemma final_state_ref_eq b : final_state b = final_state_ref b.
Proof.
  unfold final_state, final_state_ref, winning_lines. simpl.
  rewrite !decide_line_complete. unfold sq. simpl.
  repeat match goal with
  | |- context [if line_win ?x ?y ?z then _ else _] =>
      let E := fresh "E" in
      destruct (line_win x y z) eqn:E; simpl;
      [try (apply line_win_complete in E as (? & ? & ?); congruence)|]
  end; reflexivity.
Qed.

(** C5: [final_state] returns the owner of the first complete line among
    the eight winning lines (columns, rows, both diagonals), and 0 when
    none is complete. *)
Theorem final_state_spec b : final_state b = final_state_ref b.
Proof. apply final_state_ref_eq. Qed.

(** Some winning line is complete exactly when [final_state] is
    nonzero. *)
Theorem final_state_nonzero_iff b :
  final_state b <> 0%Z <-> exists ln, ln ∈ winning_lines /\ line_complete b ln.
Proof.
  rewrite final_state_ref_eq. unfold final_state_ref.
  destruct (list_find (line_complete b) winning_lines) as [[i ln]|] eqn:Ef.
  - apply list_find_Some in Ef as (Hl & Hc & _).
    split; [|intros _; destruct Hc as (? & ? & ?); congruence].
    intros _. exists ln. split; [by eapply list_elem_of_lookup_2|done].
  - apply list_find_None in Ef. split; [done|].
    intros (ln & Hin & Hc). rewrite Forall_forall in Ef.
    apply list_elem_of_In in Hin. by destruct (Ef ln Hin).
Qed.

(** When every complete winning line belongs to [p], a complete line
    makes [final_state] report [p]: each of the eight lines is detected. *)
Theorem final_state_detects b ln p :
  ln ∈ winning_lines -> line_complete b ln -> sq b ln.1.1 = p ->
  (forall ln', ln' ∈ winning_lines -> line_complete b ln' -> sq b ln'.1.1 = p) ->
  final_state b = p.
Proof.
  intros Hin Hc Hp Hall. rewrite final_state_ref_eq. unfold final_state_ref.
  destruct (list_find (line_complete b) winning_lines) as [[i ln']|] eqn:Ef.
  - apply list_find_Some in Ef as (Hl & Hc' & _).
    apply Hall; [by eapply list_elem_of_lookup_2|done].
  - apply list_find_None in Ef. rewrite Forall_forall in Ef.
    apply list_elem_of_In in Hin. by destruct (Ef ln Hin).
Qed.

(** The two boards of the specification's section 8: row 0 crossed, and
    the main diagonal circled. *)
Definition row0_cross : board := mkBoard [[1;1;1];[0;0;0];[0;0;0]]%Z 3.
Definition diag_circle : board := mkBoard [[2;0;0];[0;2;0];[0;0;2]]%Z 3.

Lemma final_state_detects_witness :
  final_state row0_cross = 1%Z /\ final_state diag_circle = 2%Z.
Proof.
  split.
  - apply (final_state_detects row0_cross ((0,0),(0,1),(0,2)) 1%Z).
    + apply list_elem_of_In. simpl. tauto.
    + repeat split; vm_compute; congruence.
    + reflexivity.
    + intros ln Hin Hc. apply list_elem_of_In in Hin.
      repeat destruct Hin as [<-|Hin]; try done; vm_compute in Hc; lia.
  - apply (final_state_detects diag_circle ((0,0),(1,1),(2,2)) 2%Z).
    + apply list_elem_of_In. simpl. tauto.
    + repeat split; vm_compute; congruence.
    + reflexivity.
    + intros ln Hin Hc. apply list_elem_of_In in Hin.
      repeat destruct Hin as [<-|Hin]; try done; vm_compute in Hc; lia.
Defined.

End Board.

(** [class Board] of [Alpha_beta.py] (lines 29-100) is the code of
    [tictactoe.py] (lines 30-102) with other comments: its methods are
    those of [Grid] at 3x3 and [Board.final_state], and [AlphaBetaAI]
    searches the same [board_state] instance. *)
Module AlphaBetaBoard.
Import Grid Board.

Definition ab_board : Type := board.
Definition ab_new_board : board := new_board ROW COL.
Definition ab_final_state : board -> Z := final_state.
Definition ab_mark_sqr : board -> nat -> nat -> Z -> option board := mark_sqr.
Definition ab_empty_sqr : board -> nat -> nat -> bool := empty_sqr.
Definition ab_get_empty_sqrs : board -> list (nat * nat) := get_empty_sqrs ROW COL.
Definition ab_isfull : board -> bool := isfull.
Definition ab_isempty : board -> bool := isempty.

End AlphaBetaBoard.
