(* ===== verification/Minimax.v ===== *)
(** * Exhaustive minimax: [class AI] of [tictactoe.py]

    [minimax] is [AI.minimax(board, maximizing)] (tictactoe.py, lines
    126-173) over any board of the [BoardState] interface, in the state
    monad [St Z] whose state is [self.nodes_expanded]; [self.player] is
    read-only during a search and is the section variable [self_player].
    The two loops of the method are [max_loop] and [min_loop], with the
    recursive evaluation of one square as their parameter [ev].  The
    recursion is on a fuel argument: [search_fuel b], one more than the
    number of open squares, always suffices ([minimax_total]) and more fuel
    does not change the result ([minimax_fuel_mono]).

    [AI] is the record of the class's attributes and [eval] its move
    choice ([AI.eval], lines 178-189), with the random index drawn by
    [random.randrange] as an argument. *)

From Stdlib Require Import ZArith Lia.
From stdpp Require Import base list numbers options.
From S2P Require Import Prelude Interface.

Module TicTacToeAI.

Definition move : Type := nat * nat.

(** The attributes of [AI.__init__(level=1, player=2)]. *)
Record AI := mkAI {
  level : Z;
  player : Z;
  nodes_expanded : Z;
  total_nodes_expanded : Z
}.

Definition new_AI : AI := mkAI 1 2 0 0.

Definition set_nodes (self : AI) (n : Z) : AI :=
  mkAI (level self) (player self) n (total_nodes_expanded self).

(** The two loops of [AI.minimax] differ only in the comparison that
    replaces the running best: [best_loop better] is
    [for (row, col) in empty_sqrs: eval = ...; if better(eval, best):
    best = eval; best_move = (row, col)]. *)
Fixpoint best_loop (better : Z -> Z -> bool) (ev : move -> St Z Z) (l : list move)
    (best : Z) (best_move : option move) : St Z (Z * option move) :=
  match l with
  | [] => st_ret (best, best_move)
  | rc :: l' =>
      e <- ev rc ;;
      if better e best then best_loop better ev l' e (Some rc)
      else best_loop better ev l' best best_move
  end.

(** [if eval > max_eval] *)
Definition max_loop := best_loop (fun e max_eval => (max_eval <? e)%Z).
(** [if eval < min_eval] *)
Definition min_loop := best_loop (fun e min_eval => (e <? min_eval)%Z).

Section Search.
  Context {B : Type} `{!BoardState B}.
  Variable self_player : Z.

  (** [AI.minimax]: terminal cases first (player 1 wins: 1; player 2
      wins: -1; full board: 0), then the maximizing branch, which counts
      one node per square it tries and marks it with 1, or the minimizing
      branch, which counts one node for the whole loop and marks each
      square with [self.player]. *)
Fixpoint minimax (fuel : nat) (board : B) (maximizing : bool) : St Z (Z * option move) :=
    match fuel with
    | O => st_fail
    | S fuel' =>
      let case := final_state board in
      if (case =? 1)%Z then st_ret (1%Z, None)
      else if (case =? 2)%Z then st_ret ((-1)%Z, None)
      else if isfull board then st_ret (0%Z, None)
      else if maximizing then
        max_loop (fun rc =>
                    incr_nodes ;;;
                    temp_board <- st_lift (mark_sqr board rc.1 rc.2 1%Z) ;;
                    r <- minimax fuel' temp_board false ;;
                    st_ret r.1)
                 (get_empty_sqrs board) (-100)%Z None
      else
        incr_nodes ;;;
        min_loop (fun rc =>
                    temp_board <- st_lift (mark_sqr board rc.1 rc.2 self_player) ;;
                    r <- minimax fuel' temp_board true ;;
                    st_ret r.1)
                 (get_empty_sqrs board) 100%Z None
    end.

End Search.

(** [AI.rnd]: [random.randrange(0, len(empty_sqrs))] is the argument
    [idx]; on a board with no open square [randrange] raises
    [ValueError]. *)
Definition rnd {B} `{!BoardState B} (board : B) (idx : nat) : option move :=
  get_empty_sqrs board !! idx.

(** [AI.reset_expanded_nodes]: [total_expanded =+ self.nodes_expanded]
    assigns [+self.nodes_expanded] to a local; the counter is reset and
    its old value returned. *)
Definition reset_expanded_nodes (self : AI) : AI * Z :=
  (set_nodes self 0, nodes_expanded self).

(** [AI.eval]: level 0 plays the random square, any other level the move
    of [minimax(main_board, False)]; the counter is the one of [self]. *)
Definition eval {B} `{!BoardState B} (self : AI) (main_board : B) (idx : nat)
    : option (AI * move) :=
  if (level self =? 0)%Z then
    match rnd main_board idx with
    | Some mv => Some (self, mv)
    | None => None
    end
  else
    match minimax (player self) (search_fuel main_board) main_board false (nodes_expanded self) with
    | Some ((_, Some mv), n) => Some (set_nodes self n, mv)
    | _ => None
    end.

End TicTacToeAI.

Ltac st_simpl :=
  unfold st_bind, st_ret, st_lift, st_modify, st_fail, incr_nodes in *; simpl in *.

Module MinimaxFacts.
Import TicTacToeAI.

(** ** The loops *)
Section Loops.
  Variable better : Z -> Z -> bool.

Lemma best_loop_total ev l best bm n :
    (forall rc n, rc ∈ l -> exists e n', ev rc n = Some (e, n')) ->
    exists r n', best_loop better ev l best bm n = Some (r, n').
  Proof.
    revert best bm n. induction l as [|rc l IH]; intros best bm n Hev; simpl; [eauto|].
    destruct (Hev rc n) as (e & n1 & He); [left|]. unfold st_bind. rewrite He.
    destruct (better e best); apply IH; intros; apply Hev; by right.
  Qed.

Lemma best_loop_ext ev1 ev2 l best bm n r n' :
    (forall rc n e n', rc ∈ l -> ev1 rc n = Some (e, n') -> ev2 rc n = Some (e, n')) ->
    best_loop better ev1 l best bm n = Some (r, n') ->
    best_loop better ev2 l best bm n = Some (r, n').
  Proof.
    revert best bm n. induction l as [|rc l IH]; intros best bm n Hev; simpl; [done|].
    unfold st_bind. destruct (ev1 rc n) as [[e n1]|] eqn:He; [|discriminate].
    rewrite (Hev rc n e n1) by (done || left).
    destruct (better e best); apply IH; intros; eapply Hev; eauto; by right.
  Qed.

  (** The loop returns its initial best, or the value of one of the
      squares it tried together with that square. *)
Lemma best_loop_result (P : Z -> Prop) ev l best bm n v mv n' :
    (forall rc n e n', rc ∈ l -> ev rc n = Some (e, n') -> P e) ->
    best_loop better ev l best bm n = Some ((v, mv), n') ->
    (v = best /\ mv = bm) \/ (P v /\ exists rc, mv = Some rc /\ rc ∈ l).
  Proof.
    revert best bm n. induction l as [|rc l IH]; intros best bm n Hev Hl; simpl in Hl.
    { injection Hl as <- <- _. by left. }
    unfold st_bind in Hl. destruct (ev rc n) as [[e n1]|] eqn:He; [|discriminate].
    assert (forall rc' n e n', rc' ∈ l -> ev rc' n = Some (e, n') -> P e) as Hev'
      by (intros; eapply Hev; eauto; by right).
    destruct (better e best).
    - destruct (IH _ _ _ Hev' Hl) as [[-> ->]|(HP & rc' & -> & Hin)].
      + right. split; [eapply Hev; eauto; left|]. eexists; split; [done|left].
      + right. split; [done|]. eexists; split; [done|by right].
    - destruct (IH _ _ _ Hev' Hl) as [?|(HP & rc' & -> & Hin)]; [by left|].
      right. split; [done|]. eexists; split; [done|by right].
  Qed.

  (** When every value beats the initial best, a nonempty loop returns
      the value of one of its squares and that square. *)
Lemma best_loop_nonempty (P : Z -> Prop) ev l best bm n v mv n' :
    (forall rc n e n', rc ∈ l -> ev rc n = Some (e, n') -> P e) ->
    (forall e, P e -> better e best = true) -> l <> [] ->
    best_loop better ev l best bm n = Some ((v, mv), n') ->
    P v /\ exists rc, mv = Some rc /\ rc ∈ l.
  Proof.
    intros Hev Hbetter Hne Hl. destruct l as [|rc l]; [done|]. simpl in Hl.
    unfold st_bind in Hl. destruct (ev rc n) as [[e n1]|] eqn:He; [|discriminate].
    assert (P e) as HPe by (eapply Hev; eauto; left). rewrite (Hbetter e HPe) in Hl.
    eapply best_loop_result in Hl as [[-> ->]|(HP & rc' & -> & Hin)].
    - split; [done|]. eexists; split; [done|left].
    - split; [done|]. eexists; split; [done|by right].
    - intros; eapply Hev; eauto; by right.
  Qed.

  (** A loop never lowers the counter, when no evaluation does. *)
Lemma best_loop_nodes ev l best bm n v mv n' :
    (forall rc n e n', rc ∈ l -> ev rc n = Some (e, n') -> (n <= n')%Z) ->
    best_loop better ev l best bm n = Some ((v, mv), n') -> (n <= n')%Z.
  Proof.
    revert best bm n. induction l as [|rc l IH]; intros best bm n Hev Hl; simpl in Hl.
    { injection Hl as <- <- <-. lia. }
    unfold st_bind in Hl. destruct (ev rc n) as [[e n1]|] eqn:He; [|discriminate].
    assert (n <= n1)%Z by (eapply Hev; eauto; left).
    assert (n1 <= n')%Z; [|lia].
    destruct (better e best); (eapply IH; [|exact Hl]); intros; eapply Hev; eauto; by right.
  Qed.
(** The loop only adds to the counter what its evaluations add. *)
Lemma best_loop_shift ev l best bm :
  (forall rc, counter_shift (ev rc)) -> counter_shift (best_loop better ev l best bm).
Proof.
  intros Hev. revert best bm. induction l as [|rc l IH]; intros best bm; cbn; [auto with counter|].
  apply counter_shift_bind; [done|]. intros e. by destruct (better e best).
Qed.

  (** A loop whose every evaluation adds [k] to the counter adds [k] per
      square it tries. *)
Lemma best_loop_count ev l best bm n k :
    (forall rc m, rc ∈ l -> exists e, ev rc m = Some (e, (m + k)%Z)) ->
    exists r, best_loop better ev l best bm n = Some (r, (n + k * Z.of_nat (length l))%Z).
  Proof.
    revert best bm n. induction l as [|rc l IH]; intros best bm n Hev; cbn [best_loop length].
    { eexists. unfold st_ret. do 2 f_equal. lia. }
    destruct (Hev rc n) as [e He]; [left|]. unfold st_bind. rewrite He.
    assert (forall rc' m, rc' ∈ l -> exists e, ev rc' m = Some (e, (m + k)%Z)) as Hev'
      by (intros; apply Hev; by right).
    destruct (better e best);
      match goal with |- context [best_loop _ _ l ?b ?m _] =>
        destruct (IH b m (n + k)%Z Hev') as [r Hr] end;
      exists r; rewrite Hr; do 2 f_equal; lia.
  Qed.

End Loops.

(** The maximizing loop never lowers its best, the minimizing loop never
    raises it. *)
Lemma max_loop_ge ev l best bm n v mv n' :
  max_loop ev l best bm n = Some ((v, mv), n') -> (best <= v)%Z.
Proof.
  unfold max_loop. revert best bm n. induction l as [|rc l IH]; intros best bm n Hl; simpl in Hl.
  { injection Hl as <- <- <-. lia. }
  unfold st_bind in Hl. destruct (ev rc n) as [[e n1]|]; [|discriminate].
  destruct (Z.ltb_spec best e); apply IH in Hl; lia.
Qed.

Lemma min_loop_le ev l best bm n v mv n' :
  min_loop ev l best bm n = Some ((v, mv), n') -> (v <= best)%Z.
Proof.
  unfold min_loop. revert best bm n. induction l as [|rc l IH]; intros best bm n Hl; simpl in Hl.
  { injection Hl as <- <- <-. lia. }
  unfold st_bind in Hl. destruct (ev rc n) as [[e n1]|]; [|discriminate].
  destruct (Z.ltb_spec e best); apply IH in Hl; lia.
Qed.

(** A board on which [AI.minimax] stops at once: won by either player,
    or full. *)
Definition terminal {B} `{!BoardState B} (b : B) : Prop :=
  final_state b = 1%Z \/ final_state b = 2%Z \/ isfull b = true.

(** ** The search *)
Section Search.
  Context {B : Type} `{!BoardState B} `{!BoardLaws B}.
  Variable self_player : Z.

Lemma minimax_terminates fuel b mx n :
    board_wf b -> self_player <> 0%Z -> search_fuel b <= fuel ->
    exists r n', minimax self_player fuel b mx n = Some (r, n').
  Proof.
    revert b mx n. induction fuel as [|f IH]; intros b mx n Hwf Hp Hf;
      [unfold search_fuel in Hf; lia|].
    simpl. destruct (final_state b =? 1)%Z; [by eexists _, _|].
    destruct (final_state b =? 2)%Z; [by eexists _, _|].
    destruct (isfull b) eqn:Hfull; [by eexists _, _|].
    assert (forall p rc mx' n, p <> 0%Z -> rc ∈ get_empty_sqrs b -> exists e n',
      (temp_board <- st_lift (mark_sqr b rc.1 rc.2 p) ;;
       r <- minimax self_player f temp_board mx' ;; st_ret r.1) n = Some (e, n')) as Hchild.
    { intros p [r c] mx' n' Hp' Hin.
      destruct (mark_sqr_open b r c p) as (b' & Hm & Hlt); [done..|].
      destruct (IH b' mx' n') as (res & n2 & Hres).
      - eapply mark_sqr_wf; eauto.
      - done.
      - unfold search_fuel in *. lia.
      - st_simpl. rewrite Hm, Hres. eauto. }
    destruct mx.
    - apply best_loop_total. intros rc n' Hin. st_simpl. apply Hchild; [lia|done].
    - st_simpl. apply best_loop_total. intros rc n' Hin. apply Hchild; done.
  Qed.


  (** On a terminal board the search returns its value with no move and
      leaves the counter alone. *)
Lemma minimax_terminal f b mx n :
    terminal b -> exists v, minimax self_player (S f) b mx n = Some ((v, None), n).
  Proof.
    intros Ht. simpl.
    destruct (Z.eqb_spec (final_state b) 1); [eauto|].
    destruct (Z.eqb_spec (final_state b) 2); [eauto|].
    destruct (isfull b) eqn:Hfull; [eauto|]. unfold terminal in Ht. intuition congruence.
  Qed.

  (** A trial mark by a nonzero player on an open square of a live board
      whose every trial child is terminal: the recursive call adds nothing
      to the counter. *)
Lemma child_terminal b p f mx' rc m :
    board_wf b -> p <> 0%Z -> rc ∈ get_empty_sqrs b ->
    (forall b', mark_sqr b rc.1 rc.2 p = Some b' -> terminal b') ->
    exists e, (temp_board <- st_lift (mark_sqr b rc.1 rc.2 p) ;;
               r <- minimax self_player (S f) temp_board mx' ;; st_ret r.1) m = Some (e, m).
  Proof.
    intros Hwf Hp Hin Ht. destruct rc as [r c].
    destruct (mark_sqr_open b r c p) as (b' & Hm & _); [done..|].
    destruct (minimax_terminal f b' mx' m) as [v Hv]; [by apply Ht|].
    exists v. st_simpl. rewrite Hm, Hv. done.
  Qed.

Lemma child_inv b rc p f mx' n e n' :
    (temp_board <- st_lift (mark_sqr b rc.1 rc.2 p) ;;
     r <- minimax self_player f temp_board mx' ;; st_ret r.1) n = Some (e, n') ->
    exists b' mv, mark_sqr b rc.1 rc.2 p = Some b' /\
                  minimax self_player f b' mx' n = Some ((e, mv), n').
  Proof.
    st_simpl. destruct (mark_sqr b rc.1 rc.2 p) as [b'|]; [|discriminate].
    destruct (minimax self_player f b' mx' n) as [[[v mv] n2]|] eqn:Hr; [|discriminate].
    intros [= <- <-]. eauto.
  Qed.

Lemma minimax_wf_value fuel b mx n v mv n' :
    board_wf b -> self_player <> 0%Z ->
    minimax self_player fuel b mx n = Some ((v, mv), n') ->
    (-1 <= v <= 1)%Z /\
    (final_state b <> 1%Z -> final_state b <> 2%Z -> isfull b = false ->
     exists rc, mv = Some rc /\ rc ∈ get_empty_sqrs b).
  Proof.
    revert b mx n v mv n'. induction fuel as [|f IH]; intros b mx n v mv n' Hwf Hp Hm;
      [discriminate|]. simpl in Hm.
    destruct (Z.eqb_spec (final_state b) 1) as [|Hn1]; [injection Hm as <- <- _; split; [lia|done]|].
    destruct (Z.eqb_spec (final_state b) 2) as [|Hn2]; [injection Hm as <- <- _; split; [lia|done]|].
    destruct (isfull b) eqn:Hfull; [injection Hm as <- <- _; split; [lia|done]|].
    assert (forall p mx' rc n1 e n2, p <> 0%Z -> rc ∈ get_empty_sqrs b ->
      (temp_board <- st_lift (mark_sqr b rc.1 rc.2 p) ;;
       r <- minimax self_player f temp_board mx' ;; st_ret r.1) n1 = Some (e, n2) ->
      (-1 <= e <= 1)%Z) as Hchild.
    { intros p mx' [r c] n1 e n2 Hp' Hin (b' & mv' & Hmk & Hr)%child_inv.
      eapply IH; [|exact Hp|exact Hr]. eapply mark_sqr_wf; eauto. }
    pose proof (wf_not_full_open b Hwf Hfull) as Hne.
    destruct mx; st_simpl.
    - eapply (best_loop_nonempty _ (fun e => -1 <= e <= 1)%Z) in Hm; [naive_solver|..|done].
      + intros rc n1 e n2 Hin He. eapply (Hchild 1%Z false rc); [lia|done|exact He].
      + intros e He. apply Z.ltb_lt. lia.
    - eapply (best_loop_nonempty _ (fun e => -1 <= e <= 1)%Z) in Hm; [naive_solver|..|done].
      + intros rc n1 e n2 Hin He. eapply (Hchild self_player true rc); [done|done|exact He].
      + intros e He. apply Z.ltb_lt. lia.
  Qed.


  (** The search never lowers [self.nodes_expanded]. *)
Lemma minimax_nodes fuel b mx n r n' :
    minimax self_player fuel b mx n = Some (r, n') -> (n <= n')%Z.
  Proof.
    revert b mx n r n'. induction fuel as [|f IH]; intros b mx n [v mv] n' Hm; [discriminate|].
    simpl in Hm.
    destruct (final_state b =? 1)%Z; [injection Hm; lia|].
    destruct (final_state b =? 2)%Z; [injection Hm; lia|].
    destruct (isfull b); [injection Hm; lia|].
    destruct mx; st_simpl.
    - eapply best_loop_nodes; [|exact Hm]. intros rc n1 e n2 _ He. st_simpl.
      destruct (mark_sqr b rc.1 rc.2 1%Z); [|discriminate].
      destruct (minimax self_player f _ _ _) as [[r3 n3]|] eqn:Hr; [|discriminate].
      injection He as _ <-. apply IH in Hr. lia.
    - apply best_loop_nodes in Hm; [lia|]. intros rc n1 e n2 _ He. st_simpl.
      destruct (mark_sqr b rc.1 rc.2 self_player); [|discriminate].
      destruct (minimax self_player f _ _ _) as [[r3 n3]|] eqn:Hr; [|discriminate].
      injection He as _ <-. by apply IH in Hr.
  Qed.

  (** [self.nodes_expanded] is read at the start of the search and only
      incremented: the search from [n + d] is the search from [n] with
      [d] more on the counter. *)
Lemma minimax_shift fuel b mx : counter_shift (minimax self_player fuel b mx).
  Proof.
    revert b mx. induction fuel as [|f IH]; intros b mx; cbn; [auto with counter|].
    destruct (final_state b =? 1)%Z; [auto with counter|].
    destruct (final_state b =? 2)%Z; [auto with counter|].
    destruct (isfull b); [auto with counter|].
    destruct mx; [apply best_loop_shift; intros rc|apply counter_shift_bind; [auto with counter|intros _];
      apply best_loop_shift; intros rc]; eauto 6 with counter.
  Qed.

  (** Fuel beyond what a run needed does not change its result: once
      [minimax] returns with some fuel, it returns the same value, move and
      counter with any larger fuel. *)
Lemma minimax_fuel_mono fuel fuel' b mx n r n' :
    fuel <= fuel' ->
    minimax self_player fuel b mx n = Some (r, n') ->
    minimax self_player fuel' b mx n = Some (r, n').
  Proof.
    revert fuel' b mx n r n'. induction fuel as [|f IH]; intros fuel' b mx n r n' Hle Hm;
      [discriminate|].
    destruct fuel' as [|f']; [lia|]. simpl in *.
    destruct (final_state b =? 1)%Z; [done|]. destruct (final_state b =? 2)%Z; [done|].
    destruct (isfull b); [done|].
    destruct mx; st_simpl; (eapply best_loop_ext; [|exact Hm]);
      intros rc n1 e n2 _ He; st_simpl;
      (destruct (mark_sqr b rc.1 rc.2 _); [|discriminate]);
      (destruct (minimax self_player f _ _ _) as [[[v mv] n3]|] eqn:Hr; [|discriminate]);
      rewrite (IH f' _ _ _ _ _ ltac:(lia) Hr); done.
  Qed.
End Search.


(** Whatever move [AI.eval] returns on a live well-formed board is open,
    and [eval] changes only the counter of the AI. *)
Lemma eval_Some_open {B} `{!BoardState B} `{!BoardLaws B} (self : AI) (b : B) idx self' mv :
  board_wf b -> player self <> 0%Z ->
  final_state b <> 1%Z -> final_state b <> 2%Z -> isfull b = false ->
  eval self b idx = Some (self', mv) ->
  mv ∈ get_empty_sqrs b /\ player self' = player self /\ level self' = level self.
Proof.
  intros Hwf Hp H1 H2 Hfull. unfold eval.
  destruct (level self =? 0)%Z.
  - unfold rnd. destruct (get_empty_sqrs b !! idx) as [mv'|] eqn:Hmv; intros Heq; [|discriminate].
    injection Heq as <- <-. split; [by eapply list_elem_of_lookup_2|done].
  - match goal with |- context [minimax ?p ?f ?b ?mx ?n0] =>
      destruct (minimax p f b mx n0) as [[[v [mv'|]] n]|] eqn:Hm end;
      intros Heq; try discriminate Heq.
    injection Heq as <- <-.
    destruct (minimax_wf_value (player self) _ _ _ _ _ _ _ Hwf Hp Hm) as [_ Hmv].
    destruct (Hmv H1 H2 Hfull) as (rc & [= <-] & Hin). done.
Qed.

Lemma eval_total_open {B} `{!BoardState B} `{!BoardLaws B} (self : AI) (b : B) idx :
  board_wf b -> player self <> 0%Z ->
  final_state b <> 1%Z -> final_state b <> 2%Z -> isfull b = false ->
  (level self <> 0%Z \/ idx < length (get_empty_sqrs b)) ->
  exists self' mv, eval self b idx = Some (self', mv) /\ mv ∈ get_empty_sqrs b.
Proof.
  intros Hwf Hp H1 H2 Hfull Hlvl. unfold eval.
  destruct (Z.eqb_spec (level self) 0) as [H0|H0].
  - destruct Hlvl as [?|Hidx]; [done|]. unfold rnd.
    destruct (get_empty_sqrs b !! idx) as [mv|] eqn:Hmv;
      [|apply lookup_ge_None in Hmv; unfold move in *; lia].
    exists self, mv. split; [done|]. by eapply list_elem_of_lookup_2.
  - match goal with |- context [minimax ?p ?f ?b ?mx ?n0] =>
      destruct (minimax_terminates p f b mx n0) as ([v mv] & n & Hm); [done|done|lia|] end.
    destruct (minimax_wf_value (player self) _ _ _ _ _ _ _ Hwf Hp Hm) as [_ Hmv].
    destruct (Hmv H1 H2 Hfull) as (rc & -> & Hin). rewrite Hm. eauto.
Qed.

Lemma eval_shift {B} `{!BoardState B} (self : AI) (b : B) idx self' mv :
  eval self b idx = Some (self', mv) ->
  exists k, eval (set_nodes self 0) b idx = Some (set_nodes self k, mv) /\
            self' = set_nodes self (nodes_expanded self + k).
Proof.
  destruct self as [l p n t]. unfold eval, set_nodes. cbn [level player nodes_expanded total_nodes_expanded].
  destruct (l =? 0)%Z.
  - destruct (rnd b idx) as [mv'|]; intros Heq; [|discriminate]. injection Heq as <- <-.
    exists 0%Z. rewrite Z.add_0_r. done.
  - pose proof (minimax_shift p (search_fuel b) b false 0%Z n) as Hs. rewrite Z.add_0_l in Hs.
    rewrite Hs. destruct (minimax p (search_fuel b) b false 0%Z) as [[[v [mv'|]] k]|];
      cbn; intros Heq; try discriminate Heq.
    injection Heq as <- <-. exists k. split; [done|]. f_equal. lia.
Qed.

(** ** The properties of [AI.minimax] and [AI.eval] *)
Section Claims.
  Context {B : Type} `{!BoardState B} `{!BoardLaws B}.
  Variable self_player : Z.

  (** C9: the search terminates: on a well-formed board, and for a
      nonzero [self.player], [minimax] returns a result with the fuel
      [search_fuel b] or more, from every initial counter. *)
Theorem minimax_total fuel b mx n :
    board_wf b -> self_player <> 0%Z -> search_fuel b <= fuel ->
    exists r n', minimax self_player fuel b mx n = Some (r, n').
  Proof. apply minimax_terminates. Qed.

  (** C8: on a well-formed board and for a nonzero [self.player], the
      value of [minimax] is a game value -1, 0 or 1 (never the sentinels
      -100 and 100), and on a board that is neither won nor full the move
      it returns is an open square of the board. *)
Theorem minimax_wf_result fuel b mx n v mv n' :
    board_wf b -> self_player <> 0%Z ->
    minimax self_player fuel b mx n = Some ((v, mv), n') ->
    (-1 <= v <= 1)%Z /\
    (final_state b <> 1%Z -> final_state b <> 2%Z -> isfull b = false ->
     exists rc, mv = Some rc /\ rc ∈ get_empty_sqrs b).
  Proof. apply minimax_wf_value. Qed.

  (** C38: the two branches of [AI.minimax] count nodes differently: on a
      live well-formed board where every trial mark (by the cross or by
      [self.player]) ends the game, the maximizing search adds one node
      per open square, the minimizing search one node for the whole loop,
      although both make one trial mark per open square. *)
Theorem min_node_count f b n :
    board_wf b -> self_player <> 0%Z -> ~ terminal b ->
    (forall rc p b', rc ∈ get_empty_sqrs b -> p = 1%Z \/ p = self_player ->
       mark_sqr b rc.1 rc.2 p = Some b' -> terminal b') ->
    (exists r, minimax self_player (S (S f)) b false n = Some (r, (n + 1)%Z)) /\
    (exists r, minimax self_player (S (S f)) b true n =
                 Some (r, (n + Z.of_nat (length (get_empty_sqrs b)))%Z)).
  Proof.
    intros Hwf Hp Hnt Hch. unfold terminal in Hnt. remember (S f) as f' eqn:Ef. cbn [minimax]. subst f'.
    rewrite (proj2 (Z.eqb_neq _ 1%Z)), (proj2 (Z.eqb_neq _ 2%Z)) by tauto.
    destruct (isfull b) eqn:Hfull; [tauto|]. split.
    - unfold st_bind, incr_nodes, st_modify, min_loop.
      match goal with |- context [best_loop ?bt ?ev ?l ?b0 ?bm0 ?n0] =>
        destruct (best_loop_count bt ev l b0 bm0 n0 0%Z) as [r Hr] end.
      + intros rc m Hin. rewrite Z.add_0_r.
        apply child_terminal; [done|done|done|]. intros b' Hb'. eapply Hch; [done|by right|exact Hb'].
      + exists r. rewrite Hr. do 2 f_equal. lia.
    - unfold max_loop.
      match goal with |- context [best_loop ?bt ?ev ?l ?b0 ?bm0 ?n0] =>
        destruct (best_loop_count bt ev l b0 bm0 n0 1%Z) as [r Hr] end;
        [|exists r; rewrite Hr; do 2 f_equal; apply Z.add_cancel_l, Z.mul_1_l].
      intros rc m Hin. destruct (child_terminal self_player b 1%Z f false rc (m + 1)%Z) as [e He];
        [done|lia|done|intros b' Hb'; eapply Hch; [done|by left|exact Hb']|].
      exists e. unfold st_bind, incr_nodes, st_modify. exact He.
  Qed.
End Claims.


(** C4: [AI.eval] on a well-formed board that is neither won nor full
    returns a move, and that move is an open square, for the minimax
    levels (and the [AI.player] of the record nonzero) as for the random
    level with an index drawn in range: the move the game then plays with
    [Game.make_move] never overwrites a mark. *)
Theorem eval_move_open {B} `{!BoardState B} `{!BoardLaws B} (self : AI) (b : B) idx :
  board_wf b -> player self <> 0%Z ->
  final_state b <> 1%Z -> final_state b <> 2%Z -> isfull b = false ->
  (level self <> 0%Z \/ idx < length (get_empty_sqrs b)) ->
  exists self' mv, eval self b idx = Some (self', mv) /\ mv ∈ get_empty_sqrs b.
Proof. apply eval_total_open. Qed.

End MinimaxFacts.
