(* ===== verification/AlphaBeta.v ===== *)
(** * Minimax with alpha-beta pruning: [class AI] of [Alpha_beta.py]

    [minimax_alpha_beta] is [AI.minimax_alpha_beta(board, maximizing,
    alpha, beta)] (Alpha_beta.py, lines 120-172), over the [BoardState]
    interface and in the state monad [St Z] of [self.nodes_expanded], like
    [Minimax.minimax]; [alpha] and [beta] are extended numbers because the
    top-level call passes [-float('inf')] and [float('inf')].  The loops
    [ab_max_loop] and [ab_min_loop] update the running best, then [alpha]
    (resp. [beta]), then leave the loop when [beta <= alpha].

    The theorems relate the pruned search to the exhaustive one of
    [Minimax.v]: for every window [alpha < beta] the pruned value is the
    exhaustive value clamped in the fail-soft sense ([failsoft]), it never
    expands more nodes, and with the full window of [AI.eval] it returns the
    same value and the same move.  Both searches only add to their
    counter ([counter_shift]), so neither [eval] counts from zero. *)

From Stdlib Require Import ZArith Lia.
From stdpp Require Import base list numbers options.
From S2P Require Import Prelude Interface Minimax.

Module AlphaBetaAI.

Definition move : Type := nat * nat.

(** The attributes of [AI.__init__(level=1, player=2)] of [Alpha_beta.py]. *)
Record AI := mkAI { level : Z; player : Z; nodes_expanded : Z }.

Definition new_AI : AI := mkAI 1 2 0.

(** The loop of the maximizing branch:
    [eval = ...; if eval > max_eval: ...; alpha = max(alpha, eval);
     if beta <= alpha: break]. *)
Fixpoint ab_max_loop (ev : ext -> ext -> move -> St Z Z) (l : list move)
    (alpha beta : ext) (max_eval : Z) (best_move : option move) : St Z (Z * option move) :=
  match l with
  | [] => st_ret (max_eval, best_move)
  | rc :: l' =>
      e <- ev alpha beta rc ;;
      let max_eval' := if (max_eval <? e)%Z then e else max_eval in
      let best_move' := if (max_eval <? e)%Z then Some rc else best_move in
      let alpha' := ext_max alpha (Fin e) in
      if ext_le beta alpha' then st_ret (max_eval', best_move')
      else ab_max_loop ev l' alpha' beta max_eval' best_move'
  end.

(** The loop of the minimizing branch:
    [eval = ...; if eval < min_eval: ...; beta = min(beta, eval);
     if beta <= alpha: break]. *)
Fixpoint ab_min_loop (ev : ext -> ext -> move -> St Z Z) (l : list move)
    (alpha beta : ext) (min_eval : Z) (best_move : option move) : St Z (Z * option move) :=
  match l with
  | [] => st_ret (min_eval, best_move)
  | rc :: l' =>
      e <- ev alpha beta rc ;;
      let min_eval' := if (e <? min_eval)%Z then e else min_eval in
      let best_move' := if (e <? min_eval)%Z then Some rc else best_move in
      let beta' := ext_min beta (Fin e) in
      if ext_le beta' alpha then st_ret (min_eval', best_move')
      else ab_min_loop ev l' alpha beta' min_eval' best_move'
  end.

Section Search.
  Context {B : Type} `{!BoardState B}.
  Variable self_player : Z.

  (** [AI.minimax_alpha_beta]: the terminal cases of [AI.minimax], then
      the maximizing branch (one node per square tried, marks with 1) or
      the minimizing branch (one node for the loop, marks with
      [self.player]), each recursive call receiving the current window. *)
Fixpoint minimax_alpha_beta (fuel : nat) (board : B) (maximizing : bool)
      (alpha beta : ext) : St Z (Z * option move) :=
    match fuel with
    | O => st_fail
    | S fuel' =>
      let case := final_state board in
      if (case =? 1)%Z then st_ret (1%Z, None)
      else if (case =? 2)%Z then st_ret ((-1)%Z, None)
      else if isfull board then st_ret (0%Z, None)
      else if maximizing then
        ab_max_loop (fun alpha beta rc =>
                       incr_nodes ;;;
                       temp_board <- st_lift (mark_sqr board rc.1 rc.2 1%Z) ;;
                       r <- minimax_alpha_beta fuel' temp_board false alpha beta ;;
                       st_ret r.1)
                    (get_empty_sqrs board) alpha beta (-100)%Z None
      else
        incr_nodes ;;;
        ab_min_loop (fun alpha beta rc =>
                       temp_board <- st_lift (mark_sqr board rc.1 rc.2 self_player) ;;
                       r <- minimax_alpha_beta fuel' temp_board true alpha beta ;;
                       st_ret r.1)
                    (get_empty_sqrs board) alpha beta 100%Z None
    end.

End Search.

(** [AI.rnd] of [Alpha_beta.py]. *)
Definition rnd {B} `{!BoardState B} (board : B) (idx : nat) : option move :=
  get_empty_sqrs board !! idx.

(** [AI.eval]: level 0 plays the random square, any other level the move
    of [minimax_alpha_beta(main_board, False, -inf, inf)]. *)
Definition eval {B} `{!BoardState B} (self : AI) (main_board : B) (idx : nat)
    : option (AI * move) :=
  if (level self =? 0)%Z then
    match rnd main_board idx with
    | Some mv => Some (self, mv)
    | None => None
    end
  else
    match minimax_alpha_beta (player self) (search_fuel main_board) main_board false
            NegInf PosInf (nodes_expanded self) with
    | Some ((_, Some mv), n) => Some (mkAI (level self) (player self) n, mv)
    | _ => None
    end.

End AlphaBetaAI.

Module AlphaBetaFacts.
Import TicTacToeAI MinimaxFacts AlphaBetaAI.

(** ** Fail-soft windows

    [failsoft alpha beta v v'] relates the exhaustive value [v] of a node
    to the value [v'] that the pruned search computes in the window
    [(alpha, beta)]: below the window [v <= v' <= alpha], inside it
    [v' = v], above it [beta <= v' <= v]. *)
Definition failsoft (alpha beta : ext) (v v' : Z) : Prop :=
  (ext_leP (Fin v) alpha -> (v <= v')%Z /\ ext_leP (Fin v') alpha) /\
  (ext_ltP alpha (Fin v) -> ext_ltP (Fin v) beta -> v' = v) /\
  (ext_leP beta (Fin v) -> (v' <= v)%Z /\ ext_leP beta (Fin v')).

(** [window_solve] decides the linear goals over extended numbers that
    the window lemmas reduce to. *)
Ltac window_solve :=
  unfold failsoft, ext_ltP, ext_max, ext_min in *;
  repeat match goal with
         | x : ext |- _ => destruct x
         end; cbn -[Z.ltb] in *;
  repeat match goal with
         | |- context [(?a <? ?b)%Z] => destruct (Z.ltb_spec a b)
         | H : context [(?a <? ?b)%Z] |- _ => destruct (Z.ltb_spec a b)
         end; cbn -[Z.ltb] in *; lia.

Lemma failsoft_refl alpha beta v : failsoft alpha beta v v.
Proof. window_solve. Qed.

Lemma failsoft_full v v' : failsoft NegInf PosInf v v' -> v' = v.
Proof. window_solve. Qed.

(** One step of the maximizing loop keeps the fail-soft relation between
    the running bests [M] (exhaustive) and [M'] (pruned), when the child
    was searched in the window [(A, beta)] of the loop's current alpha. *)
Lemma failsoft_max_step alpha beta A M M' c c' :
  ext_ltP alpha beta -> ext_leP alpha A -> ext_leP A (ext_max alpha (Fin M')) ->
  ext_ltP A beta -> failsoft alpha beta M M' -> failsoft A beta c c' ->
  failsoft alpha beta (if (M <? c)%Z then c else M) (if (M' <? c')%Z then c' else M').
Proof. window_solve. Qed.

Lemma failsoft_max_cut alpha beta A M M' c c' Mf :
  ext_ltP alpha beta -> ext_leP alpha A -> ext_leP A (ext_max alpha (Fin M')) ->
  ext_ltP A beta -> failsoft alpha beta M M' -> failsoft A beta c c' ->
  ext_leP beta (ext_max A (Fin c')) -> ((if (M <? c)%Z then c else M) <= Mf)%Z ->
  failsoft alpha beta Mf (if (M' <? c')%Z then c' else M').
Proof. window_solve. Qed.

Lemma max_window_step alpha A M' c' :
  ext_leP A (ext_max alpha (Fin M')) ->
  ext_leP (ext_max A (Fin c')) (ext_max alpha (Fin (if (M' <? c')%Z then c' else M'))).
Proof. window_solve. Qed.

Lemma failsoft_min_step alpha beta Bt M M' c c' :
  ext_ltP alpha beta -> ext_leP Bt beta -> ext_leP (ext_min beta (Fin M')) Bt ->
  ext_ltP alpha Bt -> failsoft alpha beta M M' -> failsoft alpha Bt c c' ->
  failsoft alpha beta (if (c <? M)%Z then c else M) (if (c' <? M')%Z then c' else M').
Proof. window_solve. Qed.

Lemma failsoft_min_cut alpha beta Bt M M' c c' Mf :
  ext_ltP alpha beta -> ext_leP Bt beta -> ext_leP (ext_min beta (Fin M')) Bt ->
  ext_ltP alpha Bt -> failsoft alpha beta M M' -> failsoft alpha Bt c c' ->
  ext_leP (ext_min Bt (Fin c')) alpha -> (Mf <= (if (c <? M)%Z then c else M))%Z ->
  failsoft alpha beta Mf (if (c' <? M')%Z then c' else M').
Proof. window_solve. Qed.

Lemma min_window_step beta Bt M' c' :
  ext_leP (ext_min beta (Fin M')) Bt ->
  ext_leP (ext_min beta (Fin (if (c' <? M')%Z then c' else M'))) (ext_min Bt (Fin c')).
Proof. window_solve. Qed.


(** At the root of [AI.eval] one side of the window is infinite: a child
    either gets its exact value or both values fail to improve the best. *)
Lemma root_max_child A M c c' :
  ext_leP A (Fin M) -> failsoft A PosInf c c' -> c' = c \/ (c <= M /\ c' <= M)%Z.
Proof. window_solve. Qed.

Lemma root_max_window A M c' :
  ext_leP A (Fin M) -> ext_leP (ext_max A (Fin c')) (Fin (if (M <? c')%Z then c' else M)).
Proof. window_solve. Qed.

Lemma root_max_nocut A M c' : ext_leP A (Fin M) -> ext_le PosInf (ext_max A (Fin c')) = false.
Proof. intros H. apply ext_le_false. window_solve. Qed.

Lemma root_min_child Bt M c c' :
  ext_leP (Fin M) Bt -> failsoft NegInf Bt c c' -> c' = c \/ (M <= c /\ M <= c')%Z.
Proof. window_solve. Qed.

Lemma root_min_window Bt M c' :
  ext_leP (Fin M) Bt -> ext_leP (Fin (if (c' <? M)%Z then c' else M)) (ext_min Bt (Fin c')).
Proof. window_solve. Qed.

Lemma root_min_nocut Bt M c' : ext_leP (Fin M) Bt -> ext_le (ext_min Bt (Fin c')) NegInf = false.
Proof. intros H. apply ext_le_false. window_solve. Qed.

(** ** The pruned loops simulate the exhaustive loops *)
Section LoopSim.
  Variable evm : move -> St Z Z.
  Variable eva : ext -> ext -> move -> St Z Z.

  (** Every square of [l] is evaluated by the pruned search, in any
      window, to a fail-soft value of its exhaustive evaluation, with no
      more nodes. *)
Definition child_sim (l : list move) : Prop :=
    forall rc, rc ∈ l -> forall a bt n n' e n1, ext_ltP a bt -> evm rc n = Some (e, n1) ->
      (n <= n1)%Z /\
      exists e' n2, eva a bt rc n' = Some (e', n2) /\ failsoft a bt e e' /\ (n2 - n' <= n1 - n)%Z.

Lemma child_sim_tail rc l : child_sim (rc :: l) -> child_sim l.
  Proof. intros H rc' Hin. apply H. by right. Qed.

Lemma child_sim_nodes l :
    child_sim l -> forall rc n e n', rc ∈ l -> evm rc n = Some (e, n') -> (n <= n')%Z.
  Proof.
    intros H rc n e n' Hin He.
    by destruct (H rc Hin NegInf PosInf n n e n' ltac:(window_solve) He).
  Qed.

Lemma if_max_loop (b : bool) l x y bx by' n :
    (if b then max_loop evm l x bx else max_loop evm l y by') n =
    max_loop evm l (if b then x else y) (if b then bx else by') n.
  Proof. by destruct b. Qed.

Lemma if_min_loop (b : bool) l x y bx by' n :
    (if b then min_loop evm l x bx else min_loop evm l y by') n =
    min_loop evm l (if b then x else y) (if b then bx else by') n.
  Proof. by destruct b. Qed.

Lemma ab_max_loop_sim l alpha beta A M M' bm bm' n_mm n_ab Mf bmf n1 :
    child_sim l -> ext_ltP alpha beta -> ext_leP alpha A ->
    ext_leP A (ext_max alpha (Fin M')) -> ext_ltP A beta -> failsoft alpha beta M M' ->
    max_loop evm l M bm n_mm = Some ((Mf, bmf), n1) ->
    exists M'f bm'f n2, ab_max_loop eva l A beta M' bm' n_ab = Some ((M'f, bm'f), n2) /\
      failsoft alpha beta Mf M'f /\ (n2 - n_ab <= n1 - n_mm)%Z.
  Proof.
    revert A M M' bm bm' n_mm n_ab.
    induction l as [|rc l IH]; intros A M M' bm bm' n_mm n_ab Hsim Hab HaA HAm HAb Hfs Hm.
    { injection Hm as <- <- <-. exists M', bm', n_ab. split; [done|]. split; [done|lia]. }
    unfold max_loop in Hm. simpl in Hm. unfold st_bind in Hm.
    destruct (evm rc n_mm) as [[c n_mm1]|] eqn:Hc; [|discriminate].
    rewrite if_max_loop in Hm.
    destruct (Hsim rc ltac:(left) A beta n_mm n_ab c n_mm1 HAb Hc)
      as (Hmono & c' & n_ab1 & Hc' & Hfsc & Hcnt).
    pose proof (max_loop_ge _ _ _ _ _ _ _ _ Hm) as Hge.
    pose proof (best_loop_nodes _ _ _ _ _ _ _ _ _ (child_sim_nodes l (child_sim_tail _ _ Hsim)) Hm)
      as Hn.
    simpl. unfold st_bind. rewrite Hc'. cbv zeta.
    destruct (ext_le beta (ext_max A (Fin c'))) eqn:Hcut.
    - apply ext_le_leP in Hcut. eexists _, _, _. split; [reflexivity|]. split; [|lia].
      by eapply failsoft_max_cut.
    - apply ext_le_false in Hcut.
      destruct (IH (ext_max A (Fin c')) _ _ _ (if (M' <? c')%Z then Some rc else bm') _ n_ab1
                  (child_sim_tail _ _ Hsim) Hab ltac:(window_solve) (max_window_step _ _ _ _ HAm)
                  Hcut (failsoft_max_step _ _ _ _ _ _ _ Hab HaA HAm HAb Hfs Hfsc) Hm)
        as (M'f & bm'f & n2 & Hl & Hfsf & Hcntf).
      exists M'f, bm'f, n2. split; [done|]. split; [done|lia].
  Qed.

Lemma ab_min_loop_sim l alpha beta Bt M M' bm bm' n_mm n_ab Mf bmf n1 :
    child_sim l -> ext_ltP alpha beta -> ext_leP Bt beta ->
    ext_leP (ext_min beta (Fin M')) Bt -> ext_ltP alpha Bt -> failsoft alpha beta M M' ->
    min_loop evm l M bm n_mm = Some ((Mf, bmf), n1) ->
    exists M'f bm'f n2, ab_min_loop eva l alpha Bt M' bm' n_ab = Some ((M'f, bm'f), n2) /\
      failsoft alpha beta Mf M'f /\ (n2 - n_ab <= n1 - n_mm)%Z.
  Proof.
    revert Bt M M' bm bm' n_mm n_ab.
    induction l as [|rc l IH]; intros Bt M M' bm bm' n_mm n_ab Hsim Hab HBb HmB HaB Hfs Hm.
    { injection Hm as <- <- <-. exists M', bm', n_ab. split; [done|]. split; [done|lia]. }
    unfold min_loop in Hm. simpl in Hm. unfold st_bind in Hm.
    destruct (evm rc n_mm) as [[c n_mm1]|] eqn:Hc; [|discriminate].
    rewrite if_min_loop in Hm.
    destruct (Hsim rc ltac:(left) alpha Bt n_mm n_ab c n_mm1 HaB Hc)
      as (Hmono & c' & n_ab1 & Hc' & Hfsc & Hcnt).
    pose proof (min_loop_le _ _ _ _ _ _ _ _ Hm) as Hle.
    pose proof (best_loop_nodes _ _ _ _ _ _ _ _ _ (child_sim_nodes l (child_sim_tail _ _ Hsim)) Hm)
      as Hn.
    simpl. unfold st_bind. rewrite Hc'. cbv zeta.
    destruct (ext_le (ext_min Bt (Fin c')) alpha) eqn:Hcut.
    - apply ext_le_leP in Hcut. eexists _, _, _. split; [reflexivity|]. split; [|lia].
      by eapply failsoft_min_cut.
    - apply ext_le_false in Hcut.
      destruct (IH (ext_min Bt (Fin c')) _ _ _ (if (c' <? M')%Z then Some rc else bm') _ n_ab1
                  (child_sim_tail _ _ Hsim) Hab ltac:(window_solve) (min_window_step _ _ _ _ HmB)
                  Hcut (failsoft_min_step _ _ _ _ _ _ _ Hab HBb HmB HaB Hfs Hfsc) Hm)
        as (M'f & bm'f & n2 & Hl & Hfsf & Hcntf).
      exists M'f, bm'f, n2. split; [done|]. split; [done|lia].
  Qed.

Lemma ab_max_loop_root l A M bm n_mm n_ab Mf bmf n1 :
    child_sim l -> ext_leP A (Fin M) ->
    max_loop evm l M bm n_mm = Some ((Mf, bmf), n1) ->
    exists n2, ab_max_loop eva l A PosInf M bm n_ab = Some ((Mf, bmf), n2) /\
               (n2 - n_ab <= n1 - n_mm)%Z.
  Proof.
    revert A M bm n_mm n_ab.
    induction l as [|rc l IH]; intros A M bm n_mm n_ab Hsim HAM Hm.
    { injection Hm as <- <- <-. exists n_ab. split; [done|lia]. }
    unfold max_loop in Hm. simpl in Hm. unfold st_bind in Hm.
    destruct (evm rc n_mm) as [[c n_mm1]|] eqn:Hc; [|discriminate].
    rewrite if_max_loop in Hm.
    destruct (Hsim rc ltac:(left) A PosInf n_mm n_ab c n_mm1 ltac:(window_solve) Hc)
      as (Hmono & c' & n_ab1 & Hc' & Hfsc & Hcnt).
    simpl. unfold st_bind. rewrite Hc'. cbv zeta. rewrite (root_max_nocut A M c' HAM).
    pose proof (root_max_window A M c' HAM) as Hw.
    destruct (root_max_child A M c c' HAM Hfsc) as [->|[Hle Hle']].
    - destruct (IH _ _ _ _ n_ab1 (child_sim_tail _ _ Hsim) Hw Hm) as (n2 & Hl & Hn2).
      exists n2. split; [done|lia].
    - rewrite (proj2 (Z.ltb_ge M c) Hle) in Hm. rewrite (proj2 (Z.ltb_ge M c') Hle') in Hw |- *.
      destruct (IH _ _ _ _ n_ab1 (child_sim_tail _ _ Hsim) Hw Hm) as (n2 & Hl & Hn2).
      exists n2. split; [done|lia].
  Qed.

Lemma ab_min_loop_root l Bt M bm n_mm n_ab Mf bmf n1 :
    child_sim l -> ext_leP (Fin M) Bt ->
    min_loop evm l M bm n_mm = Some ((Mf, bmf), n1) ->
    exists n2, ab_min_loop eva l NegInf Bt M bm n_ab = Some ((Mf, bmf), n2) /\
               (n2 - n_ab <= n1 - n_mm)%Z.
  Proof.
    revert Bt M bm n_mm n_ab.
    induction l as [|rc l IH]; intros Bt M bm n_mm n_ab Hsim HMB Hm.
    { injection Hm as <- <- <-. exists n_ab. split; [done|lia]. }
    unfold min_loop in Hm. simpl in Hm. unfold st_bind in Hm.
    destruct (evm rc n_mm) as [[c n_mm1]|] eqn:Hc; [|discriminate].
    rewrite if_min_loop in Hm.
    destruct (Hsim rc ltac:(left) NegInf Bt n_mm n_ab c n_mm1 ltac:(window_solve) Hc)
      as (Hmono & c' & n_ab1 & Hc' & Hfsc & Hcnt).
    simpl. unfold st_bind. rewrite Hc'. cbv zeta. rewrite (root_min_nocut Bt M c' HMB).
    pose proof (root_min_window Bt M c' HMB) as Hw.
    destruct (root_min_child Bt M c c' HMB Hfsc) as [->|[Hle Hle']].
    - destruct (IH _ _ _ _ n_ab1 (child_sim_tail _ _ Hsim) Hw Hm) as (n2 & Hl & Hn2).
      exists n2. split; [done|lia].
    - rewrite (proj2 (Z.ltb_ge c M) Hle) in Hm. rewrite (proj2 (Z.ltb_ge c' M) Hle') in Hw |- *.
      destruct (IH _ _ _ _ n_ab1 (child_sim_tail _ _ Hsim) Hw Hm) as (n2 & Hl & Hn2).
      exists n2. split; [done|lia].
  Qed.
End LoopSim.

(** ** The pruned search against the exhaustive search *)
Section Search.
  Context {B : Type} `{!BoardState B}.
  Variable self_player : Z.

  (** The fail-soft simulation at a given fuel. *)
Definition ab_sim_at (f : nat) : Prop :=
    forall b mx alpha beta n_mm n_ab v mv n1,
      ext_ltP alpha beta ->
      minimax self_player f b mx n_mm = Some ((v, mv), n1) ->
      exists v' mv' n2,
        minimax_alpha_beta self_player f b mx alpha beta n_ab = Some ((v', mv'), n2) /\
        failsoft alpha beta v v' /\ (n2 - n_ab <= n1 - n_mm)%Z.

Lemma child_sim_mark f b q mx' l :
    ab_sim_at f ->
    child_sim (fun rc => temp_board <- st_lift (mark_sqr b rc.1 rc.2 q) ;;
                         r <- minimax self_player f temp_board mx' ;; st_ret r.1)
              (fun a bt rc => temp_board <- st_lift (mark_sqr b rc.1 rc.2 q) ;;
                              r <- minimax_alpha_beta self_player f temp_board mx' a bt ;;
                              st_ret r.1) l.
  Proof.
    intros Hsim rc _ a bt n n' e n1 Hab He. st_simpl.
    destruct (mark_sqr b rc.1 rc.2 q) as [b'|]; [|discriminate].
    destruct (minimax self_player f b' mx' n) as [[[v mv] n3]|] eqn:Hr; [|discriminate].
    injection He as <- <-. split; [by eapply minimax_nodes|].
    destruct (Hsim b' mx' a bt n n' v mv n3 Hab Hr) as (v' & mv' & n2 & Hr' & Hfs & Hcnt).
    rewrite Hr'. eauto.
  Qed.

Lemma child_sim_incr evm eva l :
    child_sim evm eva l ->
    child_sim (fun rc => incr_nodes ;;; evm rc) (fun a bt rc => incr_nodes ;;; eva a bt rc) l.
  Proof.
    intros H rc Hin a bt n n' e n1 Hab He. st_simpl.
    destruct (H rc Hin a bt (n + 1)%Z (n' + 1)%Z e n1 Hab He) as (? & e' & n2 & He' & ? & ?).
    split; [lia|]. exists e', n2. rewrite He'. split; [done|]. split; [done|lia].
  Qed.

Lemma alpha_beta_sim fuel : ab_sim_at fuel.
  Proof.
    induction fuel as [|f IH]; intros b mx alpha beta n_mm n_ab v mv n1 Hab Hm; [discriminate|].
    cbn [minimax minimax_alpha_beta] in *.
    destruct (final_state b =? 1)%Z;
      [injection Hm as <- <- <-; eexists _, _, _; split; [reflexivity|];
       split; [apply failsoft_refl|lia]|].
    destruct (final_state b =? 2)%Z;
      [injection Hm as <- <- <-; eexists _, _, _; split; [reflexivity|];
       split; [apply failsoft_refl|lia]|].
    destruct (isfull b);
      [injection Hm as <- <- <-; eexists _, _, _; split; [reflexivity|];
       split; [apply failsoft_refl|lia]|].
    destruct mx.
    - eapply (ab_max_loop_sim _ _ _ alpha beta alpha _ (-100)%Z _ None _ n_ab) in Hm
        as (M'f & bm'f & n2 & Hl & Hfs & Hcnt);
        [|apply child_sim_incr, child_sim_mark, IH|done|window_solve|window_solve|done|
         apply failsoft_refl].
      exists M'f, bm'f, n2. split; [exact Hl|]. split; [done|lia].
    - revert Hm. unfold st_bind at 1. cbn [incr_nodes st_modify]. intros Hm.
      eapply (ab_min_loop_sim _ _ _ alpha beta beta _ 100%Z _ None _ (n_ab + 1)%Z) in Hm
        as (M'f & bm'f & n2 & Hl & Hfs & Hcnt);
        [|apply child_sim_mark, IH|done|window_solve|window_solve|done|apply failsoft_refl].
      exists M'f, bm'f, n2. split; [exact Hl|]. split; [done|lia].
  Qed.

Lemma alpha_beta_root fuel b mx n_mm n_ab v mv n1 :
    minimax self_player fuel b mx n_mm = Some ((v, mv), n1) ->
    exists n2, minimax_alpha_beta self_player fuel b mx NegInf PosInf n_ab = Some ((v, mv), n2) /\
               (n2 - n_ab <= n1 - n_mm)%Z.
  Proof.
    destruct fuel as [|f]; intros Hm; [discriminate|].
    cbn [minimax minimax_alpha_beta] in *.
    destruct (final_state b =? 1)%Z; [injection Hm as <- <- <-; eexists; split; [reflexivity|lia]|].
    destruct (final_state b =? 2)%Z; [injection Hm as <- <- <-; eexists; split; [reflexivity|lia]|].
    destruct (isfull b); [injection Hm as <- <- <-; eexists; split; [reflexivity|lia]|].
    destruct mx.
    - eapply (ab_max_loop_root _ _ _ NegInf _ _ _ n_ab) in Hm as (n2 & Hl & Hcnt);
        [|apply child_sim_incr, child_sim_mark, alpha_beta_sim|done].
      exists n2. split; [exact Hl|lia].
    - revert Hm. unfold st_bind at 1. cbn [incr_nodes st_modify]. intros Hm.
      eapply (ab_min_loop_root _ _ _ PosInf _ _ _ (n_ab + 1)%Z) in Hm as (n2 & Hl & Hcnt);
        [|apply child_sim_mark, alpha_beta_sim|done].
      exists n2. split; [exact Hl|lia].
  Qed.
  (** C2: for every window [alpha < beta], the pruned search of
      [Alpha_beta.py] returns whenever the exhaustive search of
      [tictactoe.py] returns, with a fail-soft value (exact inside the
      window, on the same side and no farther than the exhaustive value
      outside it) and with no more expanded nodes. *)
Theorem alpha_beta_failsoft fuel b mx alpha beta n_mm n_ab v mv n1 :
    ext_ltP alpha beta ->
    minimax self_player fuel b mx n_mm = Some ((v, mv), n1) ->
    exists v' mv' n2,
      minimax_alpha_beta self_player fuel b mx alpha beta n_ab = Some ((v', mv'), n2) /\
      failsoft alpha beta v v' /\ (n2 - n_ab <= n1 - n_mm)%Z.
  Proof. apply alpha_beta_sim. Qed.

  (** C1: pruning changes neither the value nor the move: from the window
      [(-inf, inf)] of [AI.eval], [minimax_alpha_beta] returns exactly the
      value and the move of the exhaustive [minimax] (the first square, in
      the order of [get_empty_sqrs], that reaches the best value), and it
      expands no more nodes. *)
Theorem alpha_beta_equiv fuel b mx n_mm n_ab v mv n1 :
    minimax self_player fuel b mx n_mm = Some ((v, mv), n1) ->
    exists n2, minimax_alpha_beta self_player fuel b mx NegInf PosInf n_ab = Some ((v, mv), n2) /\
               (n2 - n_ab <= n1 - n_mm)%Z.
  Proof. apply alpha_beta_root. Qed.
End Search.

(** [AI.eval] of [Alpha_beta.py] against [AI.eval] of [tictactoe.py];
    see [eval_alpha_beta_equiv] below. *)
Lemma ab_eval_sim {B} `{!BoardState B} (self : TicTacToeAI.AI) (b : B) idx self' mv :
  TicTacToeAI.eval self b idx = Some (self', mv) ->
  exists n, AlphaBetaAI.eval (AlphaBetaAI.mkAI (TicTacToeAI.level self) (TicTacToeAI.player self)
                                (TicTacToeAI.nodes_expanded self)) b idx =
            Some (AlphaBetaAI.mkAI (TicTacToeAI.level self) (TicTacToeAI.player self) n, mv) /\
            (n <= TicTacToeAI.nodes_expanded self')%Z.
Proof.
  unfold TicTacToeAI.eval, AlphaBetaAI.eval.
  cbn [AlphaBetaAI.level AlphaBetaAI.player AlphaBetaAI.nodes_expanded].
  destruct (TicTacToeAI.level self =? 0)%Z.
  - unfold TicTacToeAI.rnd, AlphaBetaAI.rnd.
    destruct (get_empty_sqrs b !! idx); [|discriminate]. intros [= <- <-].
    eexists; split; [reflexivity|]. simpl. lia.
  - destruct (minimax (TicTacToeAI.player self) (search_fuel b) b false
              (TicTacToeAI.nodes_expanded self)) as [[[v [mv'|]] n1]|] eqn:Hm;
      intros Heq; try discriminate Heq.
    injection Heq as <- <-.
    destruct (alpha_beta_root _ _ _ _ _ (TicTacToeAI.nodes_expanded self) _ _ _ Hm) as (n2 & -> & Hc).
    eexists; split; [reflexivity|]. simpl. pose proof (minimax_nodes _ _ _ _ _ _ _ Hm). lia.
Qed.

(** C3: [AI.eval] of [Alpha_beta.py] chooses the same square as
    [AI.eval] of [tictactoe.py] from the same attributes, and leaves
    [nodes_expanded] no higher. *)
Theorem eval_alpha_beta_equiv {B} `{!BoardState B} (self : TicTacToeAI.AI) (b : B) idx self' mv :
  TicTacToeAI.eval self b idx = Some (self', mv) ->
  exists n, AlphaBetaAI.eval (AlphaBetaAI.mkAI (TicTacToeAI.level self) (TicTacToeAI.player self)
                                (TicTacToeAI.nodes_expanded self)) b idx =
            Some (AlphaBetaAI.mkAI (TicTacToeAI.level self) (TicTacToeAI.player self) n, mv) /\
            (n <= TicTacToeAI.nodes_expanded self')%Z.
Proof. apply ab_eval_sim. Qed.

(** ** The counter of [Alpha_beta.py]'s [AI] is not scoped per call *)

Lemma ab_max_loop_shift ev l alpha beta M bm :
  (forall a b rc, counter_shift (ev a b rc)) -> counter_shift (ab_max_loop ev l alpha beta M bm).
Proof.
  intros Hev. revert alpha M bm. induction l as [|rc l IH]; intros alpha M bm; cbn; [auto with counter|].
  apply counter_shift_bind; [done|]. intros e. case_match; auto with counter.
Qed.

Lemma ab_min_loop_shift ev l alpha beta M bm :
  (forall a b rc, counter_shift (ev a b rc)) -> counter_shift (ab_min_loop ev l alpha beta M bm).
Proof.
  intros Hev. revert beta M bm. induction l as [|rc l IH]; intros beta M bm; cbn; [auto with counter|].
  apply counter_shift_bind; [done|]. intros e. case_match; auto with counter.
Qed.

Lemma ab_minimax_shift {B} `{!BoardState B} p fuel b mx alpha beta :
  counter_shift (minimax_alpha_beta p fuel b mx alpha beta).
Proof.
  revert b mx alpha beta. induction fuel as [|f IH]; intros b mx alpha beta; cbn; [auto with counter|].
  destruct (final_state b =? 1)%Z; [auto with counter|].
  destruct (final_state b =? 2)%Z; [auto with counter|].
  destruct (isfull b); [auto with counter|].
  destruct mx; [apply ab_max_loop_shift|apply counter_shift_bind; [auto with counter|intros _];
    apply ab_min_loop_shift]; intros a b' rc; eauto 6 with counter.
Qed.

Lemma ab_eval_shift {B} `{!BoardState B} (self : AlphaBetaAI.AI) (b : B) idx self' mv :
  AlphaBetaAI.eval self b idx = Some (self', mv) ->
  exists k, AlphaBetaAI.eval (AlphaBetaAI.mkAI (AlphaBetaAI.level self) (AlphaBetaAI.player self) 0) b idx =
              Some (AlphaBetaAI.mkAI (AlphaBetaAI.level self) (AlphaBetaAI.player self) k, mv) /\
            AlphaBetaAI.nodes_expanded self' = (AlphaBetaAI.nodes_expanded self + k)%Z.
Proof.
  destruct self as [l p n]. unfold AlphaBetaAI.eval.
  cbn [AlphaBetaAI.level AlphaBetaAI.player AlphaBetaAI.nodes_expanded].
  destruct (l =? 0)%Z.
  - destruct (AlphaBetaAI.rnd b idx) as [mv'|]; intros Heq; [|discriminate]. injection Heq as <- <-.
    exists 0%Z. cbn. split; [done|lia].
  - pose proof (ab_minimax_shift p (search_fuel b) b false NegInf PosInf 0%Z n) as Hs.
    rewrite Z.add_0_l in Hs. rewrite Hs.
    destruct (minimax_alpha_beta p (search_fuel b) b false NegInf PosInf 0%Z) as [[[v [mv'|]] k]|];
      cbn; intros Heq; try discriminate Heq.
    injection Heq as <- <-. exists k. cbn. split; [done|lia].
Qed.

(** C25: neither [AI.eval] scopes [self.nodes_expanded] to the call: in
    [tictactoe.py] and in [Alpha_beta.py] the counter [eval] leaves is
    the counter it found plus what the same call counts from zero, so
    over the AI moves of a round the counter is the sum of the moves'
    searches. *)
Theorem eval_counter_carries :
  (forall B `{!BoardState B} (self : TicTacToeAI.AI) (b : B) idx self' mv,
     TicTacToeAI.eval self b idx = Some (self', mv) ->
     exists k, TicTacToeAI.eval (set_nodes self 0) b idx = Some (set_nodes self k, mv) /\
               self' = set_nodes self (TicTacToeAI.nodes_expanded self + k)) /\
  (forall B `{!BoardState B} (self : AlphaBetaAI.AI) (b : B) idx self' mv,
     AlphaBetaAI.eval self b idx = Some (self', mv) ->
     exists k, AlphaBetaAI.eval (AlphaBetaAI.mkAI (AlphaBetaAI.level self) (AlphaBetaAI.player self) 0) b idx =
                 Some (AlphaBetaAI.mkAI (AlphaBetaAI.level self) (AlphaBetaAI.player self) k, mv) /\
               AlphaBetaAI.nodes_expanded self' = (AlphaBetaAI.nodes_expanded self + k)%Z).
Proof. split; intros B ?; [apply eval_shift|apply ab_eval_shift]. Qed.

End AlphaBetaFacts.
