(* ===== verification/Game.v ===== *)
(** * The game and its event loop: [class Game] and [main()] of
      [tictactoe.py] and [Alpha_beta.py]

    [game A] holds the attributes of [Game] that the loop reads and
    writes (the board, the AI of type [A], the side to move, the game
    mode and the [running] flag); [make_move], [next_turn],
    [change_gamemode], [isover] and [reset] are its methods.  One
    iteration of the [while not game.isover()] loop of [main()] handles a
    batch of pygame events ([process_events]) and then, when it is the
    AI's turn, plays the move of [ai.eval] ([ai_turn]); [round_step] is
    that iteration guarded by the loop condition, and [reachable] its
    reflexive-transitive closure from a new game.

    The two files run the same [Game] and loop with different [AI]
    classes, so the loop is written against the class [GameAI] and its
    invariants are proved from the laws [GameAILaws]; [GameAIs] gives the
    instances of [TicTacToeAI] and [AlphaBetaAI] and proves their laws
    from [MinimaxFacts] and [AlphaBetaFacts].  Drawing, sounds, timing,
    memory reports and the averages over rounds are GUI and
    instrumentation and are not modelled. *)

From Stdlib Require Import ZArith Lia.
From stdpp Require Import base list numbers options relations.
From S2P Require Import Prelude Interface Board Minimax AlphaBeta.

Module Game.
Import Grid Board.

(** ** What the loop needs of its AI

    [main()] reads [ai.player], [ai.level] and, at the end of a round,
    [ai.nodes_expanded]; it writes [ai.level] (keys 0, 1, 2), creates the
    AI in [Game.__init__], and calls [game.ai.eval(game.board)].  [tictactoe.py] and [Alpha_beta.py] run
    the same [Game] class and loop with two different [AI] classes, so the
    loop is written once against this interface; [GameAILaws] is what its
    proofs need: the AI plays circles, and on a live well-formed board
    [eval] returns an open square and keeps [player]. *)
Class GameAI (A : Type) := {
  ai_new : A;
  ai_level : A -> Z;
  ai_player : A -> Z;
  ai_nodes : A -> Z;
  ai_set_level : A -> Z -> A;
  ai_eval : A -> board -> nat -> option (A * (nat * nat))
}.

Class GameAILaws (A : Type) `{!GameAI A} := {
  ai_new_player : ai_player ai_new = 2%Z;
  ai_set_level_player : forall a l, ai_player (ai_set_level a l) = ai_player a;
  ai_eval_open : forall a b idx a' row col,
    wf ROW COL b -> ai_player a <> 0%Z -> Board.final_state b = 0%Z -> Grid.isfull b = false ->
    ai_eval a b idx = Some (a', (row, col)) ->
    row < ROW /\ col < COL /\ cell b row col = 0%Z /\ ai_player a' = ai_player a;
  ai_eval_total : forall a b idx,
    wf ROW COL b -> ai_player a <> 0%Z -> Board.final_state b = 0%Z -> Grid.isfull b = false ->
    (ai_level a <> 0%Z \/ idx < length (get_empty_sqrs ROW COL b)) ->
    exists a' mv, ai_eval a b idx = Some (a', mv)
}.

(** [self.gamemode], the string ['ai'] or ['pvp']. *)
Inductive mode := AIMode | PVPMode.

#[export] Instance mode_eq_dec : EqDecision mode.
Proof. solve_decision. Defined.

(** The attributes of [Game.__init__] that the loop uses ([total_nodes_expanded]
    and [nodes_expanded_printed] of [tictactoe.py] are written by
    [__init__] only). *)
Record game (A : Type) := mkGame {
  gboard : board;
  gai : A;
  gplayer : Z;
  gamemode : mode;
  running : bool
}.
Arguments mkGame {A} _ _ _ _ _.
Arguments gboard {A} _.
Arguments gai {A} _.
Arguments gplayer {A} _.
Arguments gamemode {A} _.
Arguments running {A} _.

Section Loop.
  Context {A : Type} `{!GameAI A}.

(** [Game.__init__]: a new board and a new AI, crosses (player 1) to
    move, game mode ['ai'], running. *)
Definition new_game : game A := mkGame (new_board ROW COL) ai_new 1 AIMode true.

(** [Game.next_turn]: [self.player = self.player % 2 + 1]. *)
Definition next_turn (g : game A) : game A :=
  mkGame (gboard g) (gai g) (gplayer g mod 2 + 1) (gamemode g) (running g).

(** [Game.make_move]: mark the square for the side to move (numpy raises
    outside the board), then pass the turn. *)
Definition make_move (g : game A) (row col : nat) : option (game A) :=
  match mark_sqr (gboard g) row col (gplayer g) with
  | Some b' => Some (next_turn (mkGame b' (gai g) (gplayer g) (gamemode g) (running g)))
  | None => None
  end.

(** [Game.change_gamemode]. *)
Definition change_gamemode (g : game A) : game A :=
  mkGame (gboard g) (gai g) (gplayer g)
         (if decide (gamemode g = PVPMode) then AIMode else PVPMode) (running g).

(** [Game.isover]: a complete line or a full board. *)
Definition isover (g : game A) : bool :=
  negb (Board.final_state (gboard g) =? 0)%Z || Grid.isfull (gboard g).

(** [Game.reset]: [self.__init__()], which replaces every attribute.  In
    [tictactoe.py] it first calls [self.ai.reset_expanded_nodes()] on
    the AI that [__init__] then replaces, and only prints the result. *)
Definition reset (g : game A) : game A := new_game.

(** Keys 0, 1 and 2: [ai.level = lvl]. *)
Definition set_level (g : game A) (lvl : Z) : game A :=
  mkGame (gboard g) (ai_set_level (gai g) lvl) (gplayer g) (gamemode g) (running g).

(** [if game.isover(): game.running = False]. *)
Definition stop_if_over (g : game A) : game A :=
  if isover g then mkGame (gboard g) (gai g) (gplayer g) (gamemode g) false else g.

End Loop.

(** The pygame events the loop reacts to; a click carries the square
    [(pos[1] // SQSIZE, pos[0] // SQSIZE)] it falls in. *)
Inductive event :=
  | Quit | KeyG | KeyR | Key0 | Key1 | Key2
  | Click (row col : nat)
  | OtherEvent.

Section Events.
  Context {A : Type} `{!GameAI A}.

(** The body of [for event in pygame.event.get()].  [None] is the end of
    the program: [sys.exit()] on [QUIT], or an exception. *)
Definition process_event (g : game A) (ev : event) : option (game A) :=
  match ev with
  | Quit => None
  | KeyG => Some (change_gamemode g)
  | KeyR => Some (reset g)
  | Key0 => Some (set_level g 0)
  | Key1 => Some (set_level g 1)
  | Key2 => Some (set_level g 2)
  | Click row col =>
      if empty_sqr (gboard g) row col && running g then
        match make_move g row col with
        | Some g' => Some (stop_if_over g')
        | None => None
        end
      else Some g
  | OtherEvent => Some g
  end.

Fixpoint process_events (g : game A) (evs : list event) : option (game A) :=
  match evs with
  | [] => Some g
  | ev :: evs' =>
      match process_event g ev with
      | Some g' => process_events g' evs'
      | None => None
      end
  end.

(** The AI's move at the end of an iteration: [row, col =
    game.ai.eval(game.board)] (with the random index [idx] of level 0),
    [game.make_move(row, col)], and [running = False] when the game is
    over. *)
Definition ai_turn (g : game A) (idx : nat) : option (game A) :=
  if bool_decide (gamemode g = AIMode) && (gplayer g =? ai_player (gai g))%Z && running g then
    match ai_eval (gai g) (gboard g) idx with
    | Some (ai', (row, col)) =>
        match make_move (mkGame (gboard g) ai' (gplayer g) (gamemode g) (running g)) row col with
        | Some g' => Some (stop_if_over g')
        | None => None
        end
    | None => None
    end
  else Some g.

(** One iteration of [while not game.isover()]. *)
Definition iteration (g : game A) (evs : list event) (idx : nat) : option (game A) :=
  match process_events g evs with
  | Some g1 => ai_turn g1 idx
  | None => None
  end.

Inductive round_step : game A -> game A -> Prop :=
  | round_iter g evs idx g' :
      isover g = false -> iteration g evs idx = Some g' -> round_step g g'.

Definition reachable (g : game A) : Prop := rtc round_step new_game g.

End Events.

(** ** Invariants of the game loop *)

Section Invariant.
  Context {A : Type} `{!GameAI A} `{!GameAILaws A}.
  Implicit Types (g : game A).
  #[local] Set Default Proof Using "All".

(** Crosses move first and the sides alternate ([Grid.alternating]). *)
Definition balanced (g : game A) : Prop := alternating ROW COL (gplayer g) (gboard g).

Definition game_inv (g : game A) : Prop :=
  wf ROW COL (gboard g) /\ balanced g /\ running g = negb (isover g) /\ ai_player (gai g) = 2%Z.

Lemma isover_false g :
  isover g = false -> Board.final_state (gboard g) = 0%Z /\ Grid.isfull (gboard g) = false.
Proof. unfold isover. rewrite orb_false_iff, negb_false_iff, Z.eqb_eq. done. Qed.

Lemma new_game_inv : game_inv new_game.
Proof.
  split_and!.
  - apply new_board_wf.
  - apply alternating_new.
  - reflexivity.
  - apply ai_new_player.
Qed.

(** [make_move] on an open square keeps the board well-formed and the
    sides alternating. *)
Lemma make_move_inv g r c g' :
  wf ROW COL (gboard g) -> balanced g -> cell (gboard g) r c = 0%Z ->
  make_move g r c = Some g' ->
  wf ROW COL (gboard g') /\ balanced g' /\ gboard g' <> gboard g /\
  count_marked ROW COL (gboard g') = S (count_marked ROW COL (gboard g)) /\
  gai g' = gai g /\ gamemode g' = gamemode g /\ running g' = running g.
Proof.
  intros Hwf Hbal H0. unfold make_move.
  destruct (mark_sqr (gboard g) r c (gplayer g)) as [b'|] eqn:Hm; intros Heq; [|discriminate].
  injection Heq as <-. simpl.
  destruct (mark_sqr_alternating ROW COL _ _ _ _ _ Hwf Hbal H0 Hm) as [Hwf' Hbal'].
  destruct (mark_sqr_range ROW COL _ _ _ _ _ (proj1 Hwf) Hm) as [Hr Hc].
  assert (gplayer g <> 0%Z) as Hp by (destruct Hbal as [[-> _]|[-> _]]; done).
  destruct (mark_sqr_open_counts ROW COL _ _ _ _ _ Hr Hc H0 Hp Hm) as [_ Hcnt].
  split_and!; try done. intros Heq'. rewrite Heq' in Hcnt. lia.
Qed.

Lemma stop_if_over_inv g :
  running g = true -> running (stop_if_over g) = negb (isover (stop_if_over g)) /\
  gboard (stop_if_over g) = gboard g /\ gplayer (stop_if_over g) = gplayer g /\
  gai (stop_if_over g) = gai g.
Proof.
  unfold stop_if_over. intros Hr. destruct (isover g) eqn:Ho; simpl.
  - unfold isover in *. simpl. by rewrite Ho.
  - by rewrite Hr, Ho.
Qed.

Lemma balanced_ext g g' :
  gplayer g' = gplayer g -> gboard g' = gboard g -> balanced g -> balanced g'.
Proof. unfold balanced. by intros -> ->. Qed.

Lemma move_then_stop_inv g r c g' :
  game_inv g -> running g = true -> cell (gboard g) r c = 0%Z ->
  make_move g r c = Some g' -> game_inv (stop_if_over g').
Proof.
  intros (Hwf & Hbal & Hrun & Hai) Hr H0 Hm.
  destruct (make_move_inv g r c g' Hwf Hbal H0 Hm) as (Hwf' & Hbal' & _ & _ & Hai' & _ & Hr').
  destruct (stop_if_over_inv g') as (Hrun' & Hb & Hp & Ha); [congruence|].
  unfold game_inv. rewrite Hb, Ha. split_and!; try congruence.
  eapply balanced_ext; [exact Hp|exact Hb|exact Hbal'].
Qed.

Lemma process_event_inv g ev g' :
  game_inv g -> process_event g ev = Some g' -> game_inv g'.
Proof.
  intros Hinv. destruct ev as [| | | | | |row col|]; simpl; intros Heq; try discriminate Heq.
  6: { destruct (empty_sqr (gboard g) row col && running g) eqn:Hc; [|by injection Heq as <-].
       apply andb_true_iff in Hc as [He Hr]. apply empty_sqr_true in He.
       destruct (make_move g row col) as [g1|] eqn:Hm; [|discriminate].
       injection Heq as <-. by eapply move_then_stop_inv. }
  all: injection Heq as <-; try (destruct Hinv as (? & ? & ? & ?); by split_and!).
  - apply new_game_inv.
  - destruct Hinv as (? & ? & ? & ?). split_and!; try done. cbn. by rewrite ai_set_level_player.
  - destruct Hinv as (? & ? & ? & ?). split_and!; try done. cbn. by rewrite ai_set_level_player.
  - destruct Hinv as (? & ? & ? & ?). split_and!; try done. cbn. by rewrite ai_set_level_player.
Qed.

Lemma process_events_inv g evs g' :
  game_inv g -> process_events g evs = Some g' -> game_inv g'.
Proof.
  revert g. induction evs as [|ev evs IH]; intros g Hinv; simpl; [by intros [= <-]|].
  destruct (process_event g ev) as [g1|] eqn:He; [|discriminate].
  apply IH. by eapply process_event_inv.
Qed.

(** The game state the AI plays on, with the AI record returned by
    [eval]. *)
Definition with_ai (g : game A) (ai' : A) : game A :=
  mkGame (gboard g) ai' (gplayer g) (gamemode g) (running g).

Lemma with_ai_inv g ai' : game_inv g -> ai_player ai' = ai_player (gai g) -> game_inv (with_ai g ai').
Proof.
  intros (? & ? & ? & ?) Hp. unfold game_inv, balanced, isover, with_ai in *. simpl.
  split_and!; try congruence; assumption.
Qed.

(** The move [eval] returns in a running game is an open square. *)
Lemma ai_eval_open_game g idx ai' row col :
  game_inv g -> running g = true -> ai_eval (gai g) (gboard g) idx = Some (ai', (row, col)) ->
  cell (gboard g) row col = 0%Z /\ row < ROW /\ col < COL /\ ai_player ai' = ai_player (gai g).
Proof.
  intros (Hwf & Hbal & Hrun & Hai) Hr Hev.
  rewrite Hr in Hrun. symmetry in Hrun. apply negb_true_iff, isover_false in Hrun as [Hf Hfull].
  destruct (ai_eval_open _ _ _ _ _ _ Hwf ltac:(rewrite Hai; lia) Hf Hfull Hev) as (? & ? & ? & ?).
  done.
Qed.

Lemma ai_turn_inv g idx g' : game_inv g -> ai_turn g idx = Some g' -> game_inv g'.
Proof.
  intros Hinv. unfold ai_turn.
  destruct (bool_decide (gamemode g = AIMode) && (gplayer g =? ai_player (gai g))%Z && running g)
    eqn:Hguard; [|by intros [= <-]].
  apply andb_true_iff in Hguard as [_ Hr].
  destruct (ai_eval (gai g) (gboard g) idx) as [[ai' [row col]]|] eqn:Hev; [|discriminate].
  destruct (ai_eval_open_game g idx ai' row col Hinv Hr Hev) as (H0 & _ & _ & Hp).
  fold (with_ai g ai').
  destruct (make_move (with_ai g ai') row col) as [g1|] eqn:Hm; [|discriminate].
  intros [= <-]. eapply move_then_stop_inv; [by apply with_ai_inv|exact Hr|exact H0|exact Hm].
Qed.

(** The AI's turn only adds marks. *)
Lemma ai_turn_marks g idx g' :
  game_inv g -> ai_turn g idx = Some g' ->
  count_marked ROW COL (gboard g) <= count_marked ROW COL (gboard g').
Proof.
  intros Hinv. unfold ai_turn.
  destruct (bool_decide (gamemode g = AIMode) && (gplayer g =? ai_player (gai g))%Z && running g)
    eqn:Hguard; [|by intros [= <-]].
  apply andb_true_iff in Hguard as [_ Hr].
  destruct (ai_eval (gai g) (gboard g) idx) as [[ai' [row col]]|] eqn:Hev; [|discriminate].
  destruct (ai_eval_open_game g idx ai' row col Hinv Hr Hev) as (H0 & _ & _ & Hp).
  fold (with_ai g ai').
  destruct (make_move (with_ai g ai') row col) as [g1|] eqn:Hm; [|discriminate].
  intros [= <-]. destruct (with_ai_inv g ai' Hinv Hp) as (Hwf & Hbal & _).
  destruct (make_move_inv (with_ai g ai') row col g1 Hwf Hbal H0 Hm) as (_ & _ & _ & Hc & _ & _ & Hr1).
  destruct (stop_if_over_inv g1) as (_ & -> & _); [by rewrite Hr1|]. change (gboard (with_ai g ai')) with (gboard g) in Hc. lia.
Qed.

Lemma round_step_inv g g' : game_inv g -> round_step g g' -> game_inv g'.
Proof.
  intros Hinv Hst. destruct Hst as [g0 evs idx g1 _ Hit]. unfold iteration in Hit.
  destruct (process_events g0 evs) as [g2|] eqn:Hp; [|discriminate].
  eapply ai_turn_inv; [|exact Hit]. eapply process_events_inv; [exact Hinv|exact Hp].
Qed.

Lemma reachable_game_inv g : reachable g -> game_inv g.
Proof.
  unfold reachable. intros Hr. generalize new_game_inv.
  induction Hr as [|g1 g2 g3 Hs _ IH]; [done|]. intros Hinv.
  apply IH. by eapply round_step_inv.
Qed.

Lemma ai_turn_progress g idx :
  game_inv g -> (ai_level (gai g) <> 0%Z \/ idx < length (get_empty_sqrs ROW COL (gboard g))) ->
  exists g', ai_turn g idx = Some g'.
Proof.
  intros Hinv Hlvl. unfold ai_turn.
  destruct (bool_decide (gamemode g = AIMode) && (gplayer g =? ai_player (gai g))%Z && running g)
    eqn:Hguard; [|eauto].
  apply andb_true_iff in Hguard as [_ Hr].
  pose proof Hinv as (Hwf & Hbal & Hrun & Hai).
  rewrite Hr in Hrun. symmetry in Hrun. apply negb_true_iff, isover_false in Hrun as [Hf Hfull].
  destruct (ai_eval_total (gai g) (gboard g) idx Hwf ltac:(rewrite Hai; lia) Hf Hfull Hlvl)
    as (ai' & [row col] & Hev).
  rewrite Hev.
  destruct (ai_eval_open_game g idx ai' row col Hinv Hr Hev) as (H0 & Hrow & Hcol & _).
  destruct (mark_sqr_in_range ROW COL (gboard g) row col (gplayer g)) as [b' Hm];
    [apply Hwf|done|done|].
  unfold make_move. simpl. rewrite Hm. eauto.
Qed.

(** C19: an iteration of the loop stops the program only through the
    events (a [QUIT] or a click that raises): from a reachable state, once
    the events are handled, the AI's turn always succeeds, on the minimax
    levels or with a random index in range, and the loop reaches a state
    that keeps the invariant.  This holds for every AI with the
    [GameAILaws], so for the loops of both [tictactoe.py] and
    [Alpha_beta.py] ([GameAIs]). *)
Theorem iteration_progress g evs idx g1 :
  reachable g -> process_events g evs = Some g1 ->
  (ai_level (gai g1) <> 0%Z \/ idx < length (get_empty_sqrs ROW COL (gboard g1))) ->
  exists g', iteration g evs idx = Some g' /\ game_inv g'.
Proof.
  intros Hr Hp Hlvl. unfold iteration. rewrite Hp.
  assert (game_inv g1) as Hinv1
    by (eapply process_events_inv; [apply reachable_game_inv, Hr|exact Hp]).
  destruct (ai_turn_progress g1 idx Hinv1 Hlvl) as [g' Hg']. rewrite Hg'.
  exists g'. split; [done|]. by eapply ai_turn_inv.
Qed.

(** C18: every state the loop of [main()] reaches from a new game keeps
    the invariant: the board is a well-formed 3x3 array whose counter
    [marked_sqrs] counts its marks, crosses and circles alternate (the
    side to move is 1 when both have as many marks, 2 when crosses have
    one more), [running] is set exactly when the game is not over, and the
    AI plays circles.  This holds for every AI with the [GameAILaws], so
    for the loops of both [tictactoe.py] and [Alpha_beta.py]
    ([GameAIs]). *)
Theorem reachable_inv g : reachable g -> game_inv g.
Proof. apply reachable_game_inv. Qed.

End Invariant.

End Game.

(** ** The two AIs of the repository behind the interface *)
Module GameAIs.
Import Grid Board Game.

(** [AI] of [tictactoe.py]. *)
#[export] Instance ttt_game_ai : GameAI TicTacToeAI.AI := {|
  ai_new := TicTacToeAI.new_AI;
  ai_level := TicTacToeAI.level;
  ai_player := TicTacToeAI.player;
  ai_nodes := TicTacToeAI.nodes_expanded;
  ai_set_level a l := TicTacToeAI.mkAI l (TicTacToeAI.player a) (TicTacToeAI.nodes_expanded a)
                                       (TicTacToeAI.total_nodes_expanded a);
  ai_eval a b idx := TicTacToeAI.eval a b idx
|}.

#[export] Instance ttt_game_ai_laws : GameAILaws TicTacToeAI.AI.
Proof.
  split; [reflexivity|reflexivity| |].
  - intros a b idx a' row col Hwf Hp Hf Hfull Hev.
    destruct (MinimaxFacts.eval_Some_open a b idx a' (row, col)) as (Hin & Hpl & _);
      [exact Hwf|exact Hp|simpl; rewrite Hf; lia|simpl; rewrite Hf; lia|exact Hfull|exact Hev|].
    simpl in Hin. apply elem_of_get_empty_sqrs in Hin as (? & ? & ?). done.
  - intros a b idx Hwf Hp Hf Hfull Hlvl.
    destruct (MinimaxFacts.eval_total_open a b idx) as (a' & mv & Hev & _);
      [exact Hwf|exact Hp|simpl; rewrite Hf; lia|simpl; rewrite Hf; lia|exact Hfull|exact Hlvl|].
    eauto.
Qed.

(** [AI] of [Alpha_beta.py]. *)
#[export] Instance ab_game_ai : GameAI AlphaBetaAI.AI := {|
  ai_new := AlphaBetaAI.new_AI;
  ai_level := AlphaBetaAI.level;
  ai_player := AlphaBetaAI.player;
  ai_nodes := AlphaBetaAI.nodes_expanded;
  ai_set_level a l := AlphaBetaAI.mkAI l (AlphaBetaAI.player a) (AlphaBetaAI.nodes_expanded a);
  ai_eval a b idx := AlphaBetaAI.eval a b idx
|}.

(** On a live board [eval] of [Alpha_beta.py] answers as [eval] of
    [tictactoe.py] does from the same attributes: an open square. *)
Lemma ab_eval_open_total (a : AlphaBetaAI.AI) b idx :
  wf ROW COL b -> AlphaBetaAI.player a <> 0%Z -> Board.final_state b = 0%Z -> Grid.isfull b = false ->
  (AlphaBetaAI.level a <> 0%Z \/ idx < length (get_empty_sqrs ROW COL b)) ->
  exists n mv, AlphaBetaAI.eval a b idx = Some (AlphaBetaAI.mkAI (AlphaBetaAI.level a) (AlphaBetaAI.player a) n, mv) /\
               mv ∈ get_empty_sqrs ROW COL b.
Proof.
  destruct a as [l p n]. cbn. intros Hwf Hp Hf Hfull Hlvl.
  destruct (MinimaxFacts.eval_total_open (TicTacToeAI.mkAI l p n 0) b idx) as (t' & mv & Hev & Hin);
    [exact Hwf|exact Hp|simpl; rewrite Hf; lia|simpl; rewrite Hf; lia|exact Hfull|exact Hlvl|].
  destruct (AlphaBetaFacts.ab_eval_sim _ b idx t' mv Hev) as (n' & Hab & _). eauto.
Qed.

#[export] Instance ab_game_ai_laws : GameAILaws AlphaBetaAI.AI.
Proof.
  split; [reflexivity|reflexivity| |].
  - intros a b idx a' row col Hwf Hp Hf Hfull Hev. cbn in Hev.
    assert (AlphaBetaAI.level a <> 0%Z \/ idx < length (get_empty_sqrs ROW COL b)) as Hlvl.
    { destruct (Z.eqb_spec (AlphaBetaAI.level a) 0) as [H0|H0]; [right|by left].
      revert Hev. unfold AlphaBetaAI.eval, AlphaBetaAI.rnd. rewrite H0, Z.eqb_refl.
      case_match eqn:Hl; intros Hev; [|discriminate]. by eapply lookup_lt_Some. }
    destruct (ab_eval_open_total a b idx Hwf Hp Hf Hfull Hlvl) as (n & mv & Hab & Hin).
    rewrite Hab in Hev. injection Hev as <- ->.
    apply elem_of_get_empty_sqrs in Hin as (? & ? & ?). done.
  - intros a b idx Hwf Hp Hf Hfull Hlvl.
    destruct (ab_eval_open_total a b idx Hwf Hp Hf Hfull Hlvl) as (n & mv & Hab & _). cbn. eauto.
Qed.

End GameAIs.

(** [Game] and [main()] of [Alpha_beta.py] (lines 191-308) are those of
    [tictactoe.py] but for [reset], which calls [self.__init__()] alone,
    and the [AI] class: the loop of [Module Game] run with
    [AlphaBetaAI.AI]. *)
Module AlphaBetaGame.
Import Game GameAIs.

Definition ab_game : Type := game AlphaBetaAI.AI.

(** [Game.__init__] of [Alpha_beta.py]. *)
Definition ab_new_game : ab_game := new_game.

(** [Game.reset] of [Alpha_beta.py]: [self.__init__()]. *)
Definition ab_reset (g : ab_game) : ab_game := reset g.

(** [Game.make_move] and [Game.next_turn] of [Alpha_beta.py]. *)
Definition ab_make_move : ab_game -> nat -> nat -> option ab_game := make_move.

(** The event loop of [main()] in [Alpha_beta.py]: the events, then the
    turn of [AlphaBetaAI.eval]. *)
Definition ab_process_event : ab_game -> event -> option ab_game := process_event.
Definition ab_ai_turn : ab_game -> nat -> option ab_game := ai_turn.
Definition ab_round_step : ab_game -> ab_game -> Prop := round_step.

End AlphaBetaGame.

Module GameExamples.
Import Grid Board TicTacToeAI Game GameAIs.

(** The first round of a game where the human switches the AI to the
    random level 0 and takes the centre. *)
Definition first_round_events : list event := [Key0; Click 1 1].

Lemma reachable_inv_witness :
  exists g : game TicTacToeAI.AI, reachable g /\ game_inv g /\ gplayer g = 1%Z /\
            count_marked ROW COL (gboard g) = 2.
Proof.
  eexists. split; [|split; [apply reachable_inv|split]].
  - eapply rtc_l; [|apply rtc_refl].
    eapply (round_iter (A:=TicTacToeAI.AI) new_game first_round_events 0); reflexivity.
  - eapply rtc_l; [|apply rtc_refl].
    eapply (round_iter (A:=TicTacToeAI.AI) new_game first_round_events 0); reflexivity.
  - reflexivity.
  - reflexivity.
Defined.

Lemma iteration_progress_witness :
  exists g', iteration (A:=TicTacToeAI.AI) new_game first_round_events 0 = Some g' /\ game_inv g'.
Proof.
  apply (iteration_progress new_game first_round_events 0
           (set_level (stop_if_over (next_turn (mkGame (mkBoard [[0;0;0];[0;1;0];[0;0;0]]%Z 1)
              (mkAI 0 2 0 0) 1 AIMode true))) 0)).
  - apply rtc_refl.
  - reflexivity.
  - right. vm_compute. lia.
Defined.

End GameExamples.
