(* ===== verification/Rounds.v ===== *)
(** * The rounds of [main()] in [tictactoe.py] and [Alpha_beta.py]

    [main()] plays [num_rounds] games one after the other (2 in
    [tictactoe.py], lines 260-363; 5 in [Alpha_beta.py], lines 249-352).
    Each round builds a new [Game()], runs [while not game.isover()]
    (one [Game.iteration] per pass), adds [ai.nodes_expanded] of the
    round's AI to [total_nodes_expanded], and clears that counter; after
    the rounds it prints [total_nodes_expanded / num_rounds].

    [play_round] is the [while] loop over the inputs of its passes (the
    pygame events and the random index of each pass): it stops when the
    game is over, when the program exits, or when the inputs run out
    while the game goes on (pygame would wait for more).  [rounds] is the
    [for] loop with the accumulator, [main] the whole function with the
    average.  The time and memory totals are measurements and are not
    modelled. *)

From Stdlib Require Import ZArith QArith Lia.
From stdpp Require Import base list numbers options relations.
From S2P Require Import Prelude Interface Board Minimax AlphaBeta Game.

Module Rounds.
Import Grid Board Game GameAIs.

(** The input of one pass of the [while] loop: the batch of
    [pygame.event.get()] and the index [random.randrange] draws if the
    AI plays at level 0. *)
Definition input : Type := list event * nat.

(** How a round of [while not game.isover()] ends: the game is over
    (with the inputs left), the program exits ([sys.exit()] or an
    exception), or the inputs run out while the game goes on. *)
Inductive round_result (A : Type) :=
  | RoundOver (g : game A) (rest : list input)
  | RoundExit
  | RoundWaiting (g : game A).
Arguments RoundOver {A} _ _.
Arguments RoundExit {A}.
Arguments RoundWaiting {A} _.

(** How [main()] ends: after its rounds with [total_nodes_expanded], by
    an exit, or waiting for input. *)
Inductive main_result := MainDone (total : Z) | MainExit | MainWaiting.

Section Rounds.
  Context {A : Type} `{!GameAI A}.

(** [while not game.isover(): ...] *)
Fixpoint play_round (g : game A) (ins : list input) : round_result A :=
  if isover g then RoundOver g ins
  else match ins with
       | [] => RoundWaiting g
       | (evs, idx) :: ins' =>
           match iteration g evs idx with
           | Some g' => play_round g' ins'
           | None => RoundExit
           end
       end.

(** [for _ in range(k): game = Game(); while ...;
    total_nodes_expanded += ai.nodes_expanded; ai.nodes_expanded = 0].
    Clearing the counter has no effect on the next round, which builds a
    new [Game] and so a new [AI]. *)
Fixpoint rounds (k : nat) (total : Z) (ins : list input) : main_result :=
  match k with
  | O => MainDone total
  | S k' =>
      match play_round new_game ins with
      | RoundOver g rest => rounds k' (total + ai_nodes (gai g))%Z rest
      | RoundExit => MainExit
      | RoundWaiting _ => MainWaiting
      end
  end.

(** [avg_nodes_expanded = total_nodes_expanded / num_rounds], a Python
    float, here the exact quotient. *)
Definition avg_nodes_expanded (total : Z) (num_rounds : nat) : Q :=
  (inject_Z total / inject_Z (Z.of_nat num_rounds))%Q.

(** [main()]: the rounds from [total_nodes_expanded = 0], then the
    average. *)
Definition main (num_rounds : nat) (ins : list input) : option (Z * Q) :=
  match rounds num_rounds 0 ins with
  | MainDone t => Some (t, avg_nodes_expanded t num_rounds)
  | _ => None
  end.

(** The rounds a run plays, chained: [rounds_run ins gs rest] when the
    rounds, each from a new [Game()] on the inputs the round before left,
    end on the games [gs] and leave the inputs [rest]. *)
Inductive rounds_run : list input -> list (game A) -> list input -> Prop :=
  | run_nil ins : rounds_run ins [] ins
  | run_cons ins g rest gs rest' :
      play_round new_game ins = RoundOver g rest -> rounds_run rest gs rest' ->
      rounds_run ins (g :: gs) rest'.

(** The counters of the AIs at the ends of a list of rounds, summed. *)
Definition sum_nodes (gs : list (game A)) : Z := foldr (fun g acc => ai_nodes (gai g) + acc)%Z 0%Z gs.

End Rounds.

(** [num_rounds = 2] in [tictactoe.py] and [num_rounds = 5] in
    [Alpha_beta.py]. *)
Definition ttt_main : list input -> option (Z * Q) :=
  main (A:=TicTacToeAI.AI) 2.
Definition ab_main : list input -> option (Z * Q) :=
  main (A:=AlphaBetaAI.AI) 5.

End Rounds.

Module RoundsFacts.
Import Grid Board Game Rounds.

Section Facts.
  Context {A : Type} `{!GameAI A} `{!GameAILaws A}.
  Implicit Types (g : game A).
  #[local] Set Default Proof Using "All".

(** A run of [play_round] that ends the round is a run of the loop's
    step relation [round_step] to a finished game. *)
Lemma play_round_steps g ins g' rest :
  play_round g ins = RoundOver g' rest -> rtc round_step g g' /\ isover g' = true.
Proof.
  revert g. induction ins as [|[evs idx] ins IH]; intros g; cbn;
    destruct (isover g) eqn:Ho; [by intros [= <- _]|discriminate|by intros [= <- _]|].
  destruct (iteration g evs idx) as [g1|] eqn:Hit; [|discriminate].
  intros Hp. destruct (IH g1 Hp) as [Hs Hover]. split; [|done].
  eapply rtc_l; [by econstructor|exact Hs].
Qed.

(** Inputs left over by a round are the next round's. *)
Lemma play_round_app g ins g' rest rest' :
  play_round g ins = RoundOver g' rest -> play_round g (ins ++ rest') = RoundOver g' (rest ++ rest').
Proof.
  revert g. induction ins as [|[evs idx] ins IH]; intros g Hp; cbn in Hp |- *.
  - destruct (isover g) eqn:Ho; [injection Hp as <- <-|discriminate].
    destruct rest'; cbn; by rewrite Ho.
  - destruct (isover g) eqn:Ho; [by injection Hp as <- <-|].
    destruct (iteration g evs idx); [by apply IH|discriminate].
Qed.

(** One pass with a click on the first open square of a game that goes
    on adds at least one mark and keeps the invariant. *)
Lemma click_iteration g :
  game_inv g -> isover g = false ->
  exists r c g', iteration g [Click r c] 0 = Some g' /\ game_inv g' /\
                 count_marked ROW COL (gboard g) < count_marked ROW COL (gboard g').
Proof.
  intros Hinv Ho. pose proof Hinv as (Hwf & Hbal & Hrun & Hai).
  rewrite Ho in Hrun. destruct (isover_false g Ho) as [Hf Hfull].
  destruct (get_empty_sqrs ROW COL (gboard g)) as [|[r c] l] eqn:He;
    [by destruct (board_not_full_open (gboard g) Hwf Hfull)|].
  assert ((r, c) ∈ get_empty_sqrs ROW COL (gboard g)) as (Hr & Hc & H0)%elem_of_get_empty_sqrs
    by (rewrite He; left).
  destruct (mark_sqr_in_range ROW COL (gboard g) r c (gplayer g)) as [b' Hm]; [apply Hwf|done|done|].
  assert (make_move g r c = Some (next_turn (mkGame b' (gai g) (gplayer g) (gamemode g) (running g))))
    as Hmm by (unfold make_move; by rewrite Hm).
  set (g1 := next_turn _) in Hmm.
  pose proof (move_then_stop_inv g r c g1 Hinv Hrun H0 Hmm) as Hinv2.
  destruct (make_move_inv g r c g1 Hwf Hbal H0 Hmm) as (_ & _ & _ & Hcnt & _ & _ & Hr1).
  destruct (stop_if_over_inv g1) as (Hrun2 & Hb2 & _); [by rewrite Hr1|].
  assert (exists g3, ai_turn (stop_if_over g1) 0 = Some g3) as [g3 Ht].
  { destruct (running (stop_if_over g1)) eqn:Hr2.
    - apply ai_turn_progress; [done|right].
      symmetry in Hrun2. apply negb_true_iff, isover_false in Hrun2 as [_ Hfull2].
      destruct (get_empty_sqrs ROW COL (gboard (stop_if_over g1))) eqn:He2; [|cbn; lia].
      by destruct (board_not_full_open _ (proj1 Hinv2) Hfull2).
    - unfold ai_turn. rewrite Hr2, andb_false_r. eauto. }
  exists r, c, g3. split.
  { unfold iteration. cbn [process_events process_event].
    by rewrite (proj2 (empty_sqr_true _ _ _) H0), Hrun, Hmm. }
  split; [by eapply ai_turn_inv|].
  pose proof (ai_turn_marks _ _ _ Hinv2 Ht). rewrite Hb2 in *. lia.
Qed.
(** A game that goes on has an open square. *)
Lemma live_count_lt g : game_inv g -> isover g = false -> count_marked ROW COL (gboard g) < 9.
Proof.
  intros ([_ Hc] & _) Ho. destruct (isover_false g Ho) as [_ Hfull].
  unfold Grid.isfull in Hfull. apply bool_decide_eq_false in Hfull.
  pose proof (wf_count_le (gboard g)). lia.
Qed.

(** The variant of [while not game.isover()] is the number of open
    squares: a click on an open square makes it fall. *)
Lemma round_end_gen m g :
  game_inv g -> 9 - count_marked ROW COL (gboard g) <= m ->
  exists ins g', play_round g ins = RoundOver g' [] /\ game_inv g' /\ isover g' = true /\
                 length ins <= 9 - count_marked ROW COL (gboard g).
Proof.
  revert g. induction m as [|m IH]; intros g Hinv Hm;
    (destruct (isover g) eqn:Ho; [exists [], g; cbn; rewrite Ho; split_and!; done || lia|]);
    pose proof (live_count_lt g Hinv Ho); [lia|].
  destruct (click_iteration g Hinv Ho) as (r & c & g1 & Hit & Hinv1 & Hlt).
  destruct (IH g1 Hinv1 ltac:(lia)) as (ins & g' & Hp & Hinv' & Ho' & Hlen).
  exists (([Click r c], 0) :: ins), g'. cbn [play_round]. rewrite Ho, Hit. split_and!; [done..|cbn [length]; lia].
Qed.

Lemma rounds_result k t ins t' :
  rounds k t ins = MainDone t' ->
  exists (gs : list (game A)) rest, rounds_run ins gs rest /\ length gs = k /\
    Forall (fun g => reachable g /\ isover g = true) gs /\ t' = (t + sum_nodes gs)%Z.
Proof.
  revert t ins. induction k as [|k IH]; intros t ins; cbn.
  - intros [= <-]. exists [], ins. split_and!; [constructor|done|constructor|cbn; lia].
  - destruct (play_round new_game ins) as [g rest| |] eqn:Hp; [|discriminate|discriminate].
    intros Hr. destruct (IH _ _ Hr) as (gs & rest' & Hrun & Hlen & Hall & ->).
    destruct (play_round_steps _ _ _ _ Hp) as [Hs Ho].
    exists (g :: gs), rest'. split_and!; [by econstructor|cbn [length]; lia|by constructor|
      unfold sum_nodes; cbn [foldr]; lia].
Qed.

Lemma rounds_finish k t :
  exists ins t', rounds k t ins = MainDone t' /\ length ins <= 9 * k.
Proof.
  revert t. induction k as [|k IH]; intros t; [exists [], t; cbn; split; [done|lia]|].
  destruct (round_end_gen 9 new_game new_game_inv ltac:(lia)) as (ins1 & g & Hp & _ & _ & Hlen1).
  destruct (IH (t + ai_nodes (gai g))%Z) as (ins2 & t' & Hr & Hlen2).
  exists (ins1 ++ ins2), t'. cbn. rewrite (play_round_app _ _ _ _ ins2 Hp). cbn.
  split; [done|]. rewrite length_app. lia.
Qed.

(** C20: every round of [main()] can be finished: from every state the
    loop reaches, some inputs of at most one pass per open square (a
    click on an open square each) make [while not game.isover()] end, on
    a finished game that keeps the invariant.  This holds for every AI
    with the [GameAILaws], so for the rounds of both [tictactoe.py] and
    [Alpha_beta.py]. *)
Theorem round_can_end g :
  reachable g ->
  exists ins g', play_round g ins = RoundOver g' [] /\ isover g' = true /\ game_inv g' /\
                 length ins <= 9 - count_marked ROW COL (gboard g).
Proof.
  intros Hr. destruct (round_end_gen 9 g (reachable_game_inv g Hr) ltac:(lia))
    as (ins & g' & Hp & Hinv & Ho & Hlen).
  exists ins, g'. done.
Qed.

(** [main()] can run to its end: for every number of rounds there
    are inputs, at most nine passes a round, on which every round ends
    and [main()] prints its average. *)
Theorem main_can_finish num_rounds :
  exists ins t, main num_rounds ins = Some (t, avg_nodes_expanded t num_rounds) /\
                length ins <= 9 * num_rounds.
Proof.
  destruct (rounds_finish num_rounds 0%Z) as (ins & t & Hr & Hlen).
  exists ins, t. unfold main. by rewrite Hr.
Qed.

(** C21: what [main()] prints: when it runs to its end, the run is
    [num_rounds] rounds chained on the inputs ([rounds_run]: each from a
    new game on what the round before left, so the games [gs] are the
    ones the rounds end on, determined by the inputs), each ending on a
    finished game the loop reaches from a new game;
    [total_nodes_expanded] is the sum of the counters of those games' AIs
    and the average is that total over [num_rounds]. *)
Theorem main_total num_rounds ins t a :
  main num_rounds ins = Some (t, a) ->
  exists (gs : list (game A)) rest, rounds_run ins gs rest /\ length gs = num_rounds /\
    Forall (fun g => reachable g /\ isover g = true) gs /\
    t = sum_nodes gs /\ a = avg_nodes_expanded t num_rounds.
Proof.
  unfold main. destruct (rounds num_rounds 0 ins) as [t'| |] eqn:Hr; [|discriminate..].
  intros [= <- <-]. destruct (rounds_result _ _ _ _ Hr) as (gs & rest & Hrun & Hlen & Hall & ->).
  exists gs, rest. split_and!; [done|done|done|lia|done].
Qed.

End Facts.
End RoundsFacts.

Module RoundsExamples.
Import Grid Board Game GameAIs Rounds RoundsFacts.

Lemma round_can_end_witness :
  exists ins g', play_round (A:=TicTacToeAI.AI) new_game ins = RoundOver g' [] /\ isover g' = true /\
                 game_inv g' /\ length ins <= 9 - count_marked ROW COL (gboard (new_game (A:=TicTacToeAI.AI))).
Proof. apply (round_can_end (A:=TicTacToeAI.AI) new_game). apply rtc_refl. Defined.

(** A round of [tictactoe.py]: the human sets the AI to random (key 0),
    takes (0,0), then (1,0), sets the AI back to minimax (key 1) and
    takes (1,1); the AI blocks at (1,2) after 20 nodes and the cross wins
    on the diagonal at (2,2). *)
Definition one_round : list input :=
  [([Key0; Click 0 0], 0); ([Click 1 0], 0); ([Key1; Click 1 1], 0); ([Click 2 2], 0)].

Lemma main_total_witness :
  ttt_main (one_round ++ one_round) = Some (40%Z, avg_nodes_expanded 40 2) /\
  exists (gs : list (game TicTacToeAI.AI)) rest, rounds_run (one_round ++ one_round) gs rest /\
    length gs = 2 /\ Forall (fun g => reachable g /\ isover g = true) gs /\
    40%Z = sum_nodes gs /\ avg_nodes_expanded 40 2 = avg_nodes_expanded 40 2.
Proof.
  split; [vm_compute; reflexivity|].
  apply (main_total (A:=TicTacToeAI.AI) 2 (one_round ++ one_round) 40 (avg_nodes_expanded 40 2)).
  vm_compute. reflexivity.
Defined.

End RoundsExamples.
