(* ===== verification/Scenarios.v ===== *)
(** * Concrete games on the 3x3 board

    The scenarios of the specification's section 8, computed with the
    3x3 [Board] instance and the searches of [tictactoe.py] and
    [Alpha_beta.py] at the fuel [search_fuel] they are run with. *)

From Stdlib Require Import ZArith Lia.
From stdpp Require Import base list numbers options.
From S2P Require Import Prelude Interface Board Minimax AlphaBeta.

Module Scenarios.
Import Grid Board TicTacToeAI MinimaxFacts AlphaBetaFacts.

Definition empty_board : board := new_board ROW COL.

(** Player 1 (crosses) has taken the centre. *)
Definition center_taken : board := mkBoard [[0;0;0];[0;1;0];[0;0;0]]%Z 1.

(** Row 0 is [X, X, _]. *)
Definition row0_two : board := mkBoard [[1;1;0];[0;0;0];[0;0;0]]%Z 2.

(** Circles to move; crosses threaten the ascending diagonal at (2, 0). *)
Definition midgame : board := mkBoard [[1;2;1];[0;1;0];[0;0;2]]%Z 5.

(** Circles to move with two open squares; (2, 1) completes column 1. *)
Definition two_open : board := mkBoard [[1;2;1];[2;2;1];[1;0;0]]%Z 7.


(** Two open squares, (0, 0) and (1, 1), each of which completes a line
    for either player. *)
Definition both_win : board := mkBoard [[0;1;1];[2;0;2];[2;1;1]]%Z 7.

(** After the cross takes the centre, [AI.eval] of both programs
    answers with a corner, (0, 0), with the value 0 of a draw; the pruned
    search expands 1705 nodes where the exhaustive one expands 41681. *)
Theorem center_reply_corner :
  minimax 2 (search_fuel center_taken) center_taken false 0%Z = Some ((0%Z, Some (0, 0)), 41681%Z) /\
  AlphaBetaAI.minimax_alpha_beta 2 (search_fuel center_taken) center_taken false NegInf PosInf 0%Z
    = Some ((0%Z, Some (0, 0)), 1705%Z) /\
  eval new_AI center_taken 0 = Some (set_nodes new_AI 41681%Z, (0, 0)).
Proof. split; [|split]; vm_compute; reflexivity. Qed.

(** With [X, X, _] on row 0, the maximizing search completes the row
    at (0, 2) with the value 1. *)
Theorem win_in_one :
  exists n, minimax 2 (search_fuel row0_two) row0_two true 0%Z = Some ((1%Z, Some (0, 2)), n).
Proof. eexists. vm_compute. reflexivity. Qed.

(** The empty board is a draw under optimal play: its minimax value
    is 0, and the first move found is the corner (0, 0). *)
Theorem empty_board_draw :
  exists n, minimax 2 (search_fuel empty_board) empty_board true 0%Z = Some ((0%Z, Some (0, 0)), n).
Proof. eexists. vm_compute. reflexivity. Qed.

(** ** Witnesses: the general theorems at concrete boards *)

Lemma midgame_wf : wf ROW COL midgame.
Proof. split; [split; [reflexivity|repeat constructor]|reflexivity]. Qed.

Lemma alpha_beta_equiv_witness :
  exists n2, AlphaBetaAI.minimax_alpha_beta 2 (search_fuel midgame) midgame false NegInf PosInf 0%Z
             = Some ((0%Z, Some (2, 0)), n2) /\ (n2 - 0 <= 36 - 0)%Z.
Proof.
  apply (alpha_beta_equiv 2 (search_fuel midgame) midgame false 0%Z 0%Z 0%Z (Some (2, 0)) 36%Z).
  vm_compute. reflexivity.
Defined.

Lemma alpha_beta_failsoft_witness :
  exists v' mv' n2,
    AlphaBetaAI.minimax_alpha_beta 2 (search_fuel midgame) midgame true (Fin 0) (Fin 1) 0%Z
      = Some ((v', mv'), n2) /\ failsoft (Fin 0) (Fin 1) 1%Z v' /\ (n2 - 0 <= 33 - 0)%Z.
Proof.
  apply (alpha_beta_failsoft 2 (search_fuel midgame) midgame true (Fin 0) (Fin 1)
           0%Z 0%Z 1%Z (Some (1, 0)) 33%Z).
  - unfold ext_ltP. simpl. lia.
  - vm_compute. reflexivity.
Defined.

Lemma eval_alpha_beta_equiv_witness :
  exists n, AlphaBetaAI.eval (AlphaBetaAI.mkAI 1 2 0) midgame 0 =
            Some (AlphaBetaAI.mkAI 1 2 n, (2, 0)) /\ (n <= 36)%Z.
Proof.
  apply (eval_alpha_beta_equiv new_AI midgame 0 (set_nodes new_AI 36) (2, 0)).
  vm_compute. reflexivity.
Defined.

Lemma eval_move_open_witness :
  exists self' mv, eval new_AI midgame 0 = Some (self', mv) /\ mv ∈ Interface.get_empty_sqrs midgame.
Proof.
  apply (eval_move_open new_AI midgame 0).
  - exact midgame_wf.
  - simpl. lia.
  - vm_compute. lia.
  - vm_compute. lia.
  - reflexivity.
  - left. simpl. lia.
Defined.

Lemma minimax_wf_result_witness :
  (-1 <= 0 <= 1)%Z /\ exists rc, Some (2, 0) = Some rc /\ rc ∈ Interface.get_empty_sqrs midgame.
Proof.
  destruct (minimax_wf_result 2 (search_fuel midgame) midgame false 0%Z 0%Z (Some (2, 0)) 36%Z)
    as [Hv Hmv].
  - exact midgame_wf.
  - lia.
  - vm_compute. reflexivity.
  - split; [exact Hv|]. apply Hmv; [vm_compute; lia|vm_compute; lia|reflexivity].
Defined.

Lemma minimax_total_witness :
  exists r n', minimax 2 (search_fuel midgame) midgame false 0%Z = Some (r, n').
Proof. apply (minimax_total 2 (search_fuel midgame) midgame false 0%Z); [exact midgame_wf|lia|lia]. Defined.

Lemma minimax_fuel_mono_witness :
  minimax 2 20 midgame false 0%Z = Some ((0%Z, Some (2, 0)), 36%Z).
Proof.
  apply (minimax_fuel_mono 2 (search_fuel midgame) 20 midgame false 0%Z).
  - vm_compute. lia.
  - vm_compute. reflexivity.
Defined.

Lemma mark_sqr_spec_witness :
  exists b', mark_sqr midgame 2 0 2%Z = Some b' /\ wf ROW COL b' /\ cell b' 2 0 = 2%Z /\
    (forall r' c', (r', c') <> (2, 0) -> cell b' r' c' = cell midgame r' c') /\
    get_empty_sqrs ROW COL b' = filter (fun rc => rc <> (2, 0)) (get_empty_sqrs ROW COL midgame).
Proof.
  apply (mark_sqr_spec ROW COL midgame 2 0 2%Z).
  - exact midgame_wf.
  - apply elem_of_get_empty_sqrs. split_and!; [unfold ROW; lia|unfold COL; lia|reflexivity].
  - lia.
Defined.

Lemma mark_sqr_out_of_range_witness : mark_sqr midgame 3 0 1%Z = None.
Proof. apply (mark_sqr_out_of_range ROW COL); [apply midgame_wf|left; unfold ROW; lia]. Defined.

(** Both AIs come to [midgame] with 36 nodes already counted: the AI of
    [tictactoe.py] leaves 72 (its search counts 36), the AI of
    [Alpha_beta.py] 67 (its search counts 31). *)
Lemma eval_counter_carries_witness :
  eval (set_nodes new_AI 36) midgame 0 = Some (set_nodes new_AI 72, (2, 0)) /\
  AlphaBetaAI.eval (AlphaBetaAI.mkAI 1 2 36) midgame 0 = Some (AlphaBetaAI.mkAI 1 2 67, (2, 0)) /\
  (exists k, eval (set_nodes (set_nodes new_AI 36) 0) midgame 0 =
               Some (set_nodes (set_nodes new_AI 36) k, (2, 0)) /\
             set_nodes new_AI 72 = set_nodes (set_nodes new_AI 36) (nodes_expanded (set_nodes new_AI 36) + k)) /\
  (exists k, AlphaBetaAI.eval (AlphaBetaAI.mkAI 1 2 0) midgame 0 = Some (AlphaBetaAI.mkAI 1 2 k, (2, 0)) /\
             67%Z = (36 + k)%Z).
Proof.
  split; [vm_compute; reflexivity|]. split; [vm_compute; reflexivity|]. split.
  - apply (proj1 eval_counter_carries _ _ (set_nodes new_AI 36) midgame 0). vm_compute. reflexivity.
  - apply (proj2 eval_counter_carries _ _ (AlphaBetaAI.mkAI 1 2 36) midgame 0 (AlphaBetaAI.mkAI 1 2 67)).
    vm_compute. reflexivity.
Defined.

Lemma both_win_wf : wf ROW COL both_win.
Proof. split; [split; [reflexivity|repeat constructor]|reflexivity]. Qed.

(** On [both_win] the minimizing search of circles makes two trial marks
    and counts one node; the maximizing search counts two. *)
Lemma min_node_count_witness :
  (exists r, minimax 2 (search_fuel both_win) both_win false 0%Z = Some (r, 1%Z)) /\
  (exists r, minimax 2 (search_fuel both_win) both_win true 0%Z = Some (r, 2%Z)).
Proof.
  enough (H : (exists r, minimax 2 (search_fuel both_win) both_win false 0%Z = Some (r, (0 + 1)%Z)) /\
    (exists r, minimax 2 (search_fuel both_win) both_win true 0%Z =
       Some (r, (0 + Z.of_nat (length (Interface.get_empty_sqrs both_win)))%Z))) by exact H.
  apply (min_node_count 2 1 both_win 0%Z).
  - exact both_win_wf.
  - lia.
  - cbv [terminal]. vm_compute. intuition discriminate.
  - intros rc p b' Hin Hp Hm. change (Interface.get_empty_sqrs both_win) with [(0, 0); (1, 1)] in Hin.
    rewrite list_elem_of_In in Hin. cbv [terminal].
    destruct Hin as [<-|[<-|[]]]; destruct Hp as [->| ->]; vm_compute in Hm; injection Hm as <-;
      first [left; reflexivity|right; left; reflexivity].
Defined.


End Scenarios.
