(* ===== verification/Distance.v ===== *)
(** * The distance heuristic on the 5x5 board: [distance_improve.py]

    [distance_improve.py] enlarges the board to [ROW, COL = 5, 5] (line
    11) and keeps the methods of [tictactoe.py]'s [Board] ([Grid] of
    [Board.v] at 5x5), except [final_state] (lines 43-50), which tests the
    eight triples of [WINNING_LINES] (lines 23-27) against
    [self.squares.flatten()]: the indices 0-8 of the 3x3 board, read in a
    row of five.  [AI.minimax_heuristic] (lines 76-126) is an alpha-beta
    search whose leaf values [10 - depth] / [depth - 10] prefer quick wins
    and which adds (for the cross) or subtracts (for the AI) the Manhattan
    distance of the square to the centre after each recursive call
    ([distance_heuristic], lines 128-130).

    The line 169 of the file starts with a stray [+] inside [draw_fig]:
    Python rejects the file with a syntax error, so none of this code can
    run as written.  The model is of the code as it would run without
    that character. *)

From Stdlib Require Import ZArith Lia.
From stdpp Require Import base list numbers options.
From S2P Require Import Prelude Board.

Module Distance.
Import Grid.

Definition ROW : nat := 5.
Definition COL : nat := 5.

Definition move : Type := nat * nat.

(** [WINNING_LINES]: the lines of a 3x3 board as flat indices. *)
Definition WINNING_LINES : list (nat * nat * nat) :=
  [(0, 1, 2); (3, 4, 5); (6, 7, 8); (0, 3, 6); (1, 4, 7); (2, 5, 8); (0, 4, 8); (2, 4, 6)].

(** [self.squares.flatten()]: the rows one after the other. *)
Definition flatten (b : board) : list Z := concat (squares b).

Definition flat_cell (b : board) (i : nat) : Z := default 0%Z (flatten b !! i).

(** [all(self.squares.flatten()[i] == v for i in line)]. *)
Definition all_eq (b : board) (line : nat * nat * nat) (v : Z) : bool :=
  forallb (fun i => bool_decide (flat_cell b i = v)) [line.1.1; line.1.2; line.2].

Fixpoint scan_lines (b : board) (ls : list (nat * nat * nat)) : Z :=
  match ls with
  | [] => 0
  | line :: ls' =>
      if all_eq b line 1 then 1%Z
      else if all_eq b line 2 then 2%Z
      else scan_lines b ls'
  end.

(** [Board.final_state]: the first line of [WINNING_LINES] held by one
    player gives that player; else 0. *)
Definition final_state (b : board) : Z := scan_lines b WINNING_LINES.

(** The other methods of [Board] (lines 36-41 and 52-68) are those of
    [Grid] at 5x5; [__init__] also sets [self.empty_sqrs = self.squares]
    and [self.player = 1], which nothing reads, and the class has no
    [isempty]. *)
Definition d_new_board : board := new_board ROW COL.
Definition d_mark_sqr : board -> nat -> nat -> Z -> option board := mark_sqr.
Definition d_empty_sqr : board -> nat -> nat -> bool := empty_sqr.
Definition d_get_empty_sqrs : board -> list move := get_empty_sqrs ROW COL.
Definition d_isfull : board -> bool := isfull.

(** [AI.distance_heuristic(row, col)]: Manhattan distance to
    [(ROW // 2, COL // 2)]. *)
Definition distance_heuristic (row col : nat) : Z :=
  (Z.abs (Z.of_nat row - Z.of_nat (ROW / 2)) + Z.abs (Z.of_nat col - Z.of_nat (COL / 2)))%Z.

(** The attributes of [AI.__init__(level=1, player=2)]. *)
Record AI := mkAI { level : Z; player : Z; nodes_expanded : Z }.

Definition new_AI : AI := mkAI 1 2 0.

(** The maximizing loop: the child's value plus the distance; a strictly
    greater value replaces the best; [alpha = max(alpha, eval)]; [break]
    when [beta <= alpha]. *)
Fixpoint dh_max_loop (ev : ext -> ext -> move -> St Z ext) (l : list move)
    (alpha beta max_eval : ext) (best_move : option move) : St Z (ext * option move) :=
  match l with
  | [] => st_ret (max_eval, best_move)
  | (row, col) :: l' =>
      e <- ev alpha beta (row, col) ;;
      let e' := ext_add e (distance_heuristic row col) in
      let max_eval' := if ext_lt max_eval e' then e' else max_eval in
      let best_move' := if ext_lt max_eval e' then Some (row, col) else best_move in
      let alpha' := ext_max alpha e' in
      if ext_le beta alpha' then st_ret (max_eval', best_move')
      else dh_max_loop ev l' alpha' beta max_eval' best_move'
  end.

(** The minimizing loop: the child's value minus the distance. *)
Fixpoint dh_min_loop (ev : ext -> ext -> move -> St Z ext) (l : list move)
    (alpha beta min_eval : ext) (best_move : option move) : St Z (ext * option move) :=
  match l with
  | [] => st_ret (min_eval, best_move)
  | (row, col) :: l' =>
      e <- ev alpha beta (row, col) ;;
      let e' := ext_add e (- distance_heuristic row col) in
      let min_eval' := if ext_lt e' min_eval then e' else min_eval in
      let best_move' := if ext_lt e' min_eval then Some (row, col) else best_move in
      let beta' := ext_min beta e' in
      if ext_le beta' alpha then st_ret (min_eval', best_move')
      else dh_min_loop ev l' alpha beta' min_eval' best_move'
  end.

Section Search.
  Variable self_player : Z.

  (** [AI.minimax_heuristic(board, maximizing, depth, alpha, beta)]: the
      leaf values, then one node per square tried in both branches, the
      child searched on a copy of the board marked with 1 (maximizing) or
      [self.player]. *)
Fixpoint minimax_heuristic (fuel : nat) (board : board) (maximizing : bool) (depth : Z)
      (alpha beta : ext) : St Z (ext * option move) :=
    match fuel with
    | O => st_fail
    | S fuel' =>
      let case := final_state board in
      if (case =? 1)%Z then st_ret (Fin (10 - depth), None)
      else if (case =? 2)%Z then st_ret (Fin (depth - 10), None)
      else if isfull board then st_ret (Fin 0, None)
      else if maximizing then
        dh_max_loop (fun alpha beta rc =>
                       incr_nodes ;;;
                       temp_board <- st_lift (mark_sqr board rc.1 rc.2 1%Z) ;;
                       r <- minimax_heuristic fuel' temp_board false (depth + 1) alpha beta ;;
                       st_ret r.1)
                    (get_empty_sqrs ROW COL board) alpha beta NegInf None
      else
        dh_min_loop (fun alpha beta rc =>
                       incr_nodes ;;;
                       temp_board <- st_lift (mark_sqr board rc.1 rc.2 self_player) ;;
                       r <- minimax_heuristic fuel' temp_board true (depth + 1) alpha beta ;;
                       st_ret r.1)
                    (get_empty_sqrs ROW COL board) alpha beta PosInf None
    end.

End Search.

(** The fuel of a search: [isfull] stops every line of play after at
    most [9 - marked_sqrs] marks. *)
Definition dh_fuel (b : board) : nat := S (Z.to_nat (9 - marked_sqrs b)).

(** [AI.rnd]: [np.random.choice(len(empty_sqrs))] is the index [idx];
    an empty list raises [ValueError]. *)
Definition rnd (b : board) (idx : nat) : option move := get_empty_sqrs ROW COL b !! idx.

(** [AI.eval(main_board)]: the random square at level 0, else the move of
    [minimax_heuristic(main_board, False)] from the full window; the
    move may be [None]. *)
Definition eval (self : AI) (main_board : board) (idx : nat) : option (AI * option move) :=
  if (level self =? 0)%Z then
    match rnd main_board idx with
    | Some mv => Some (self, Some mv)
    | None => None
    end
  else
    match minimax_heuristic (player self) (dh_fuel main_board) main_board false 0 NegInf PosInf
            (nodes_expanded self) with
    | Some ((_, mv), n) => Some (mkAI (level self) (player self) n, mv)
    | None => None
    end.

End Distance.

Module DistanceFacts.
Import Grid Distance.

Definition fin (x : ext) : Prop := exists z, x = Fin z.

Lemma fin_add x d : fin x -> fin (ext_add x d).
Proof. intros [z ->]. by eexists. Qed.

Section Loops.
  Variable ev : ext -> ext -> move -> St Z ext.

  (** Every child search of the loop terminates with a finite value and
      does not decrease the counter. *)
Definition dchild_ok (l : list move) : Prop :=
    forall rc, rc ∈ l -> forall a bt n, exists e n', ev a bt rc n = Some (e, n') /\ fin e /\ (n <= n')%Z.

Lemma dh_max_loop_total l alpha beta M bm n :
  dchild_ok l -> M = NegInf \/ fin M ->
  exists r bm' n', dh_max_loop ev l alpha beta M bm n = Some ((r, bm'), n') /\ (n <= n')%Z /\
    ((r = M /\ bm' = bm /\ l = []) \/
     (fin r /\ ((bm' = bm /\ M <> NegInf) \/ exists rc, bm' = Some rc /\ rc ∈ l))).
Proof.
  revert alpha M bm n. induction l as [|[row col] l IH]; intros alpha M bm n Hl HM.
  - exists M, bm, n. split_and!; [done|lia|by left].
  - destruct (Hl (row, col) (list_elem_of_here _ _) alpha beta n) as (e & n1 & He & Hfe & Hn1).
    pose proof (fin_add e (distance_heuristic row col) Hfe) as [z' Hz'].
    cbn [dh_max_loop]. unfold st_bind. rewrite He. rewrite Hz'.
    assert (Hup : ext_lt M (Fin z') = false -> M <> NegInf) by (intros H ->; done).
    assert (HM' : fin (if ext_lt M (Fin z') then Fin z' else M))
      by (destruct (ext_lt M (Fin z')) eqn:E; [by eexists|destruct HM as [->|]; [done|done]]).
    destruct (ext_le beta _).
    + eexists _, _, n1. split_and!; [done|lia|right; split; [done|]].
      destruct (ext_lt M (Fin z')) eqn:E; [right; eexists; split; [done|left]|left; auto].
    + destruct (IH (ext_max alpha (Fin z')) (if ext_lt M (Fin z') then Fin z' else M)
                  (if ext_lt M (Fin z') then Some (row, col) else bm) n1)
        as (r & bm' & n' & Hk & Hn' & Hr); [intros rc Hrc; apply Hl; by right|by right|].
      exists r, bm', n'. split_and!; [done|lia|right].
      destruct Hr as [(-> & -> & ->)|(Hfr & [[-> HMn]|(rc & -> & Hin)])];
        destruct (ext_lt M (Fin z')) eqn:E;
        try (split; [done|right; eexists; split; [done|by right]]).
      * split; [done|right; eexists; split; [done|left]].
      * split; [done|left; auto].
      * split; [done|right; eexists; split; [done|left]].
      * split; [done|left; auto].
Qed.

Lemma dh_min_loop_total l alpha beta M bm n :
  dchild_ok l -> M = PosInf \/ fin M ->
  exists r bm' n', dh_min_loop ev l alpha beta M bm n = Some ((r, bm'), n') /\ (n <= n')%Z /\
    ((r = M /\ bm' = bm /\ l = []) \/
     (fin r /\ ((bm' = bm /\ M <> PosInf) \/ exists rc, bm' = Some rc /\ rc ∈ l))).
Proof.
  revert beta M bm n. induction l as [|[row col] l IH]; intros beta M bm n Hl HM.
  - exists M, bm, n. split_and!; [done|lia|by left].
  - destruct (Hl (row, col) (list_elem_of_here _ _) alpha beta n) as (e & n1 & He & Hfe & Hn1).
    pose proof (fin_add e (- distance_heuristic row col) Hfe) as [z' Hz'].
    cbn [dh_min_loop]. unfold st_bind. rewrite He. rewrite Hz'.
    assert (Hup : ext_lt (Fin z') M = false -> M <> PosInf) by (intros H ->; done).
    assert (HM' : fin (if ext_lt (Fin z') M then Fin z' else M))
      by (destruct (ext_lt (Fin z') M) eqn:E; [by eexists|destruct HM as [->|]; [done|done]]).
    destruct (ext_le _ alpha).
    + eexists _, _, n1. split_and!; [done|lia|right; split; [done|]].
      destruct (ext_lt (Fin z') M) eqn:E; [right; eexists; split; [done|left]|left; auto].
    + destruct (IH (ext_min beta (Fin z')) (if ext_lt (Fin z') M then Fin z' else M)
                  (if ext_lt (Fin z') M then Some (row, col) else bm) n1)
        as (r & bm' & n' & Hk & Hn' & Hr); [intros rc Hrc; apply Hl; by right|by right|].
      exists r, bm', n'. split_and!; [done|lia|right].
      destruct Hr as [(-> & -> & ->)|(Hfr & [[-> HMn]|(rc & -> & Hin)])];
        destruct (ext_lt (Fin z') M) eqn:E;
        try (split; [done|right; eexists; split; [done|by right]]).
      * split; [done|right; eexists; split; [done|left]].
      * split; [done|left; auto].
      * split; [done|right; eexists; split; [done|left]].
      * split; [done|left; auto].
Qed.

End Loops.

Section Search.
  Variable self_player : Z.
  Hypothesis Hsp : self_player <> 0%Z.

(** The boards of a search: the 5x5 invariant of [Grid], and at most 9
    marks, where [isfull] stops the game. *)
Definition dwf (b : board) : Prop := wf ROW COL b /\ (marked_sqrs b <= 9)%Z.

Lemma dwf_open b : dwf b -> isfull b = false -> get_empty_sqrs ROW COL b <> [].
Proof.
  intros [[Hsh Hcnt] H9] Hf Hnil. unfold isfull in Hf. apply bool_decide_eq_false in Hf.
  pose proof (length_empty_count ROW COL b) as H. rewrite Hnil in H. cbn [length] in H.
  unfold ROW, COL in *. lia.
Qed.

Lemma dwf_mark b r c p :
  dwf b -> isfull b = false -> p <> 0%Z -> (r, c) ∈ get_empty_sqrs ROW COL b ->
  exists b', mark_sqr b r c p = Some b' /\ dwf b' /\ marked_sqrs b' = (marked_sqrs b + 1)%Z.
Proof.
  intros [Hwf H9] Hf Hp (Hr & Hc & H0)%elem_of_get_empty_sqrs.
  destruct (mark_sqr_in_range ROW COL b r c p) as [b' Hm]; [apply Hwf|done|done|].
  unfold isfull in Hf. apply bool_decide_eq_false in Hf.
  pose proof (mark_sqr_marked b r c p b' Hm) as Hmk.
  exists b'. split_and!; [done| |lia].
  split; [exact (mark_sqr_wf ROW COL b r c p b' Hwf Hr Hc H0 Hp Hm)|lia].
Qed.

(** [minimax_heuristic] at fuel [f] terminates with a finite value, and on
    a board where the game goes on it returns an empty square. *)
Definition dtotal_at (f : nat) : Prop :=
  forall b mx d alpha beta n, dwf b -> (9 - marked_sqrs b < Z.of_nat f)%Z ->
  exists z mv n', minimax_heuristic self_player f b mx d alpha beta n = Some ((Fin z, mv), n') /\
    (n <= n')%Z /\
    (final_state b = 0%Z -> isfull b = false -> exists rc, mv = Some rc /\ rc ∈ get_empty_sqrs ROW COL b).

Lemma dchild_total f b mx d p :
  dtotal_at f -> dwf b -> isfull b = false -> p <> 0%Z -> (9 - marked_sqrs b <= Z.of_nat f)%Z ->
  dchild_ok (fun alpha beta rc =>
               incr_nodes ;;;
               temp_board <- st_lift (mark_sqr b rc.1 rc.2 p) ;;
               r <- minimax_heuristic self_player f temp_board mx (d + 1) alpha beta ;;
               st_ret r.1) (get_empty_sqrs ROW COL b).
Proof.
  intros IH Hb Hf Hp Hfuel [r c] Hrc a bt n.
  destruct (dwf_mark b r c p Hb Hf Hp Hrc) as (b' & Hm & Hb' & Hmk).
  destruct (IH b' mx (d + 1)%Z a bt (n + 1)%Z Hb' ltac:(lia)) as (z & mv & n' & Hk & Hn' & _).
  exists (Fin z), n'. cbn [fst snd]. unfold st_bind, incr_nodes, st_modify, st_lift.
  rewrite Hm, Hk. split_and!; [done|by eexists|lia].
Qed.

Lemma dminimax_total_gen f : dtotal_at f.
Proof using Hsp.
  induction f as [|f IH]; intros b mx d alpha beta n Hb Hfuel.
  { destruct Hb as [_ H9]. lia. }
  cbn [minimax_heuristic].
  destruct (final_state b =? 1)%Z eqn:E1.
  { eexists _, None, n. split_and!; [done|lia|]. apply Z.eqb_eq in E1. congruence. }
  destruct (final_state b =? 2)%Z eqn:E2.
  { eexists _, None, n. split_and!; [done|lia|]. apply Z.eqb_eq in E2. congruence. }
  destruct (isfull b) eqn:Hf.
  { eexists _, None, n. split_and!; [done|lia|congruence]. }
  assert (9 - marked_sqrs b <= Z.of_nat f)%Z as Hfuel'.
  { destruct Hb as [_ H9]. unfold isfull in Hf. apply bool_decide_eq_false in Hf. lia. }
  pose proof (dwf_open b Hb Hf) as Hne.
  destruct mx.
  - destruct (dh_max_loop_total _ (get_empty_sqrs ROW COL b) alpha beta NegInf None n
                (dchild_total f b false d 1%Z IH Hb Hf ltac:(done) Hfuel') (or_introl eq_refl))
      as (r & bm & n' & Hk & Hn & [(_ & _ & ?)|([z ->] & [[_ ?]|(rc & -> & Hin)])]); try done.
    exists z, (Some rc), n'. split_and!; [done|done|]. intros _ _. by exists rc.
  - destruct (dh_min_loop_total _ (get_empty_sqrs ROW COL b) alpha beta PosInf None n
                (dchild_total f b true d self_player IH Hb Hf Hsp Hfuel') (or_introl eq_refl))
      as (r & bm & n' & Hk & Hn & [(_ & _ & ?)|([z ->] & [[_ ?]|(rc & -> & Hin)])]); try done.
    exists z, (Some rc), n'. split_and!; [done|done|]. intros _ _. by exists rc.
Qed.

End Search.

(** ** The search without cut-offs

    The reference [minimax_heuristic] is meant to compute: the same leaf
    values, the same distance corrections and the same strict comparisons,
    with every square tried. *)
Section Exhaustive.
  Variable self_player : Z.

Fixpoint pick (mx : bool) (child : move -> option ext) (l : list move) (best : ext)
    (bm : option move) : option (ext * option move) :=
  match l with
  | [] => Some (best, bm)
  | (row, col) :: l' =>
      child (row, col) ≫= fun e =>
      let e' := ext_add e (if mx then distance_heuristic row col else - distance_heuristic row col) in
      if (if mx then ext_lt best e' else ext_lt e' best) then pick mx child l' e' (Some (row, col))
      else pick mx child l' best bm
  end.

Fixpoint dh_exhaustive (fuel : nat) (b : board) (mx : bool) (depth : Z) : option (ext * option move) :=
  match fuel with
  | O => None
  | S f =>
      if (final_state b =? 1)%Z then Some (Fin (10 - depth), None)
      else if (final_state b =? 2)%Z then Some (Fin (depth - 10), None)
      else if isfull b then Some (Fin 0, None)
      else pick mx (fun rc => mark_sqr b rc.1 rc.2 (if mx then 1%Z else self_player) ≫= fun b' =>
                              fst <$> dh_exhaustive f b' (negb mx) (depth + 1))
                (get_empty_sqrs ROW COL b) (if mx then NegInf else PosInf) None
  end.

End Exhaustive.

(** ** What [final_state] reads *)

Lemma final_state_frame b b' :
  (forall i, i < 9 -> flat_cell b i = flat_cell b' i) -> final_state b = final_state b'.
Proof.
  intros H. unfold final_state, scan_lines, all_eq, WINNING_LINES. cbn [fst snd forallb].
  rewrite !(H 0), !(H 1), !(H 2), !(H 3), !(H 4), !(H 5), !(H 6), !(H 7), !(H 8) by lia.
  reflexivity.
Qed.

Lemma flat_cell_rows b i :
  shaped ROW COL b -> i < 9 ->
  flat_cell b i = if decide (i < 5) then cell b 0 i else cell b 1 (i - 5).
Proof.
  intros [Hlen Hrows] Hi. unfold flat_cell, flatten, cell.
  destruct (squares b) as [|r0 [|r1 rest]] eqn:E; cbn in Hlen; unfold ROW in Hlen; try lia.
  pose proof (Forall_inv Hrows) as H0. pose proof (Forall_inv (Forall_inv_tail Hrows)) as H1. cbn in H0, H1.
  cbn [concat]. case_decide.
  - rewrite lookup_app_l by (unfold COL in H0; lia). done.
  - rewrite lookup_app_r by (unfold COL in H0; lia). rewrite lookup_app_l by (unfold COL in *; lia).
    unfold COL in H0. by rewrite H0.
Qed.

Section Search2.
  Variable self_player : Z.
  Hypothesis Hsp : self_player <> 0%Z.

(** C35: [minimax_heuristic] terminates with the fuel [dh_fuel] (one more
    than the marks left before [isfull]) on every 5x5 board of the game,
    returns a finite value, and while the game goes on returns an empty
    square. *)
Theorem minimax_heuristic_total b mx d alpha beta n :
  dwf b ->
  exists z mv n', minimax_heuristic self_player (dh_fuel b) b mx d alpha beta n = Some ((Fin z, mv), n') /\
    (n <= n')%Z /\
    (final_state b = 0%Z -> isfull b = false -> exists rc, mv = Some rc /\ rc ∈ get_empty_sqrs ROW COL b).
Proof using Hsp.
  intros Hb. apply (dminimax_total_gen self_player Hsp); [done|].
  destruct Hb as [[_ Hc] H9]. unfold dh_fuel. lia.
Qed.

End Search2.

(** C36: [final_state] of the 5x5 board reads only row 0 and the first
    four squares of row 1, the first nine entries of [flatten()]: the
    lines of [WINNING_LINES] are lines of a 3x3 board. *)
Theorem final_state_reads_two_rows b b' :
  shaped ROW COL b -> shaped ROW COL b' ->
  (forall c, c < 5 -> cell b 0 c = cell b' 0 c) -> (forall c, c < 4 -> cell b 1 c = cell b' 1 c) ->
  final_state b = final_state b'.
Proof.
  intros Hs Hs' H0 H1. apply final_state_frame. intros i Hi.
  rewrite !flat_cell_rows by done. case_decide; [apply H0; lia|apply H1; lia].
Qed.

End DistanceFacts.

Module DistanceExamples.
Import Grid Distance DistanceFacts.

Definition grid5 (rows : list (list Z)) : board :=
  mkBoard rows (Z.of_nat (length (filter (fun z => z <> 0%Z) (concat rows)))).

(** Crosses down column 0, and crosses on (0, 3), (0, 4), (1, 0). *)
Definition column0 : board := grid5 [[1;0;0;0;0];[1;0;0;0;0];[1;0;0;0;0];[0;0;0;0;0];[0;0;0;0;0]]%Z.
Definition wrapped : board := grid5 [[0;0;0;1;1];[1;0;0;0;0];[0;0;0;0;0];[0;0;0;0;0];[0;0;0;0;0]]%Z.

(** On the 5x5 board [final_state] misses the cross's column 0 and
    reports a win for three squares that are not in a line, (0, 3),
    (0, 4) and (1, 0). *)
Theorem final_state_misreads : final_state column0 = 0%Z /\ final_state wrapped = 1%Z.
Proof. split; reflexivity. Qed.

(** The AI (circles, the minimizer) to move after seven marks. *)
Definition cutoff_board : board :=
  grid5 [[1;1;0;0;0];[0;1;0;0;2];[0;0;1;0;0];[0;0;0;0;2];[0;0;0;2;0]]%Z.

(** The cut-offs change the AI's move: on [cutoff_board] the pruned
    search reports the value 6 and the square (0, 4), where the same
    search without cut-offs gives 7 and (0, 3).  The distance added to a
    child's value after the recursive call is not taken off the window
    passed to it, so a child cut against [alpha] returns a bound that the
    correction then moves past the window. *)
Theorem pruning_changes_move :
  minimax_heuristic 2 (dh_fuel cutoff_board) cutoff_board false 0%Z NegInf PosInf 0%Z
    = Some ((Fin 6, Some (0, 4)), 52%Z) /\
  dh_exhaustive 2 (dh_fuel cutoff_board) cutoff_board false 0%Z = Some (Fin 7, Some (0, 3)) /\
  eval new_AI cutoff_board 0 = Some (mkAI 1 2 52, Some (0, 4)).
Proof. split_and!; vm_compute; reflexivity. Qed.

Lemma cutoff_board_dwf : dwf cutoff_board.
Proof.
  split; [|vm_compute; congruence]. split.
  - split; [reflexivity|repeat constructor].
  - vm_compute. reflexivity.
Qed.

Lemma minimax_heuristic_total_witness :
  exists z mv n', minimax_heuristic 2 (dh_fuel cutoff_board) cutoff_board false 0%Z NegInf PosInf 0%Z
                  = Some ((Fin z, mv), n') /\ (0 <= n')%Z /\
    (final_state cutoff_board = 0%Z -> isfull cutoff_board = false ->
     exists rc, mv = Some rc /\ rc ∈ get_empty_sqrs ROW COL cutoff_board).
Proof. apply (minimax_heuristic_total 2%Z ltac:(lia) cutoff_board false 0%Z NegInf PosInf 0%Z). exact cutoff_board_dwf. Defined.

Lemma final_state_reads_two_rows_witness :
  final_state (grid5 [[1;1;1;0;0];[0;0;0;0;0];[2;2;2;2;2];[0;0;0;0;0];[0;0;0;0;0]]%Z)
  = final_state (grid5 [[1;1;1;0;0];[0;0;0;0;0];[0;0;0;0;0];[0;0;0;0;0];[0;0;0;0;0]]%Z).
Proof.
  apply final_state_reads_two_rows.
  - split; [reflexivity|repeat constructor].
  - split; [reflexivity|repeat constructor].
  - intros c Hc. destruct c as [|[|[|[|[|c]]]]]; try lia; reflexivity.
  - intros c Hc. destruct c as [|[|[|[|c]]]]; try lia; reflexivity.
Defined.

End DistanceExamples.
