(* ===== verification/DistanceGame.v ===== *)
(** * The game loop of [distance_improve.py]

    [Game] of [distance_improve.py] (lines 151-193) keeps the 5x5 board,
    the AI, the side to move and the [running] flag; [main()] (lines
    195-225) loops [while True]: it handles the pygame events (quit, or a
    click on an empty square while the game runs) and then, when it is
    the AI's turn and the game runs, plays the square of [AI.eval].
    Unlike [tictactoe.py] it has no game modes, no keys and no rounds,
    and [isover] uses the 5x5 [final_state] of [Distance.v].

    [DistanceGame] models the state as the record [dgame] and one
    iteration of the loop as [iteration]; [dstep] is the loop and
    [dreachable] its reachable states.  [DistanceGameFacts] proves the
    invariant of the reachable states (a board of the game with at most
    nine marks, alternating sides, [running] exactly while the game is not
    over), that the AI's turn never raises, that a stopped game stays
    frozen, since [main()] never calls [reset], and that a click in the
    window only reaches the top-left 3x3 squares ([SQSIZE = WIDTH // 3]). *)

From Stdlib Require Import ZArith Lia.
From stdpp Require Import base list numbers options relations.
From S2P Require Import Prelude Board Distance.

Module DistanceGame.
Import Grid Distance.

(** [self.board], [self.ai], [self.player] and [self.running]. *)
Record dgame := mkDG { dboard : board; dai : AI; dplayer : Z; drunning : bool }.

(** [Game.__init__]: a new 5x5 board and AI, crosses to move, running. *)
Definition new_dgame : dgame := mkDG d_new_board new_AI 1 true.

(** [Game.next_turn]: [self.player = self.player % 2 + 1]. *)
Definition next_turn (g : dgame) : dgame :=
  mkDG (dboard g) (dai g) (dplayer g mod 2 + 1) (drunning g).

(** [Game.make_move]: mark the square for the side to move, then pass the
    turn. *)
Definition make_move (g : dgame) (row col : nat) : option dgame :=
  match mark_sqr (dboard g) row col (dplayer g) with
  | Some b' => Some (next_turn (mkDG b' (dai g) (dplayer g) (drunning g)))
  | None => None
  end.

(** [Game.isover]: [final_state] of the 5x5 board or nine marks. *)
Definition isover (g : dgame) : bool :=
  negb (Distance.final_state (dboard g) =? 0)%Z || isfull (dboard g).

(** [if game.isover(): game.running = False]. *)
Definition stop_if_over (g : dgame) : dgame :=
  if isover g then mkDG (dboard g) (dai g) (dplayer g) false else g.

(** [Game.reset]: [self.__init__()]; [main()] never calls it. *)
Definition reset (g : dgame) : dgame := new_dgame.

(** [WIDTH, HEIGHT = 600, 600] and [SQSIZE = WIDTH // 3] (lines 9-10):
    the window is cut in squares of a third of its width, although the
    board is 5x5. *)
Definition WIDTH : nat := 600.
Definition HEIGHT : nat := 600.
Definition SQSIZE : nat := WIDTH / 3.

(** [row = pos[1] // SQSIZE; col = pos[0] // SQSIZE] *)
Definition click_sqr (x y : nat) : nat * nat := (y / SQSIZE, x / SQSIZE).

(** The events [main()] reacts to; a click carries [event.pos]. *)
Inductive devent := DQuit | DClick (x y : nat) | DOther.

(** The body of [for event in pygame.event.get()]; [None] is
    [sys.exit()] or an exception. *)
Definition process_event (g : dgame) (ev : devent) : option dgame :=
  match ev with
  | DQuit => None
  | DClick x y =>
      let '(row, col) := click_sqr x y in
      if empty_sqr (dboard g) row col && drunning g then
        match make_move g row col with
        | Some g' => Some (stop_if_over g')
        | None => None
        end
      else Some g
  | DOther => Some g
  end.

Fixpoint process_events (g : dgame) (evs : list devent) : option dgame :=
  match evs with
  | [] => Some g
  | ev :: evs' =>
      match process_event g ev with
      | Some g' => process_events g' evs'
      | None => None
      end
  end.

(** The AI's turn: [row, col = game.ai.eval(game.board)] ([TypeError]
    when [eval] returns [None]), [game.make_move(row, col)], and
    [running = False] once the game is over. *)
Definition ai_turn (g : dgame) (idx : nat) : option dgame :=
  if (dplayer g =? player (dai g))%Z && drunning g then
    match eval (dai g) (dboard g) idx with
    | Some (ai', Some (row, col)) =>
        match make_move (mkDG (dboard g) ai' (dplayer g) (drunning g)) row col with
        | Some g' => Some (stop_if_over g')
        | None => None
        end
    | _ => None
    end
  else Some g.

(** One iteration of [while True]. *)
Definition iteration (g : dgame) (evs : list devent) (idx : nat) : option dgame :=
  match process_events g evs with
  | Some g1 => ai_turn g1 idx
  | None => None
  end.

Inductive dstep : dgame -> dgame -> Prop :=
  | dstep_iter g evs idx g' : iteration g evs idx = Some g' -> dstep g g'.

Definition dreachable (g : dgame) : Prop := rtc dstep new_dgame g.

End DistanceGame.

Module DistanceGameFacts.
Import Grid Distance DistanceFacts DistanceGame.

(** What a reachable state satisfies: a board of the game (5x5, at most
    nine marks), alternating sides, [running] exactly while the game is
    not over, and the AI playing circles. *)
Definition dgame_inv (g : dgame) : Prop :=
  dwf (dboard g) /\ alternating ROW COL (dplayer g) (dboard g) /\
  drunning g = negb (isover g) /\ player (dai g) = 2%Z.

Lemma disover_false g :
  isover g = false -> Distance.final_state (dboard g) = 0%Z /\ isfull (dboard g) = false.
Proof. unfold isover. rewrite orb_false_iff, negb_false_iff, Z.eqb_eq. done. Qed.

Lemma new_dgame_inv : dgame_inv new_dgame.
Proof.
  split_and!; [split; [apply new_board_wf|cbn; lia]|apply alternating_new|reflexivity|reflexivity].
Qed.

(** A move on an open square of a running game, then [running = False]
    if the game is over. *)
Lemma dmove_then_stop_inv g r c g' :
  dgame_inv g -> drunning g = true -> cell (dboard g) r c = 0%Z ->
  make_move g r c = Some g' -> dgame_inv (stop_if_over g').
Proof.
  intros ([Hwf H9] & Hbal & Hrun & Hai) Hr H0. unfold make_move.
  destruct (mark_sqr (dboard g) r c (dplayer g)) as [b'|] eqn:Hm; intros Heq; [|discriminate].
  injection Heq as <-.
  destruct (mark_sqr_alternating ROW COL _ _ _ _ _ Hwf Hbal H0 Hm) as [Hwf' Hbal'].
  rewrite Hr in Hrun. symmetry in Hrun. apply negb_true_iff, disover_false in Hrun as [_ Hfull].
  unfold isfull in Hfull. apply bool_decide_eq_false in Hfull.
  pose proof (mark_sqr_marked _ _ _ _ _ Hm) as Hmk.
  assert (dwf b') as Hd by (split; [done|lia]).
  unfold stop_if_over. destruct (isover _) eqn:Ho; (split_and!; [exact Hd|exact Hbal'| |exact Hai]);
    unfold isover in *; cbn in *; by rewrite ?Hr, ?Ho.
Qed.

Lemma dprocess_event_inv g ev g' : dgame_inv g -> process_event g ev = Some g' -> dgame_inv g'.
Proof.
  intros Hinv. destruct ev as [|x y|]; cbn [process_event]; intros Heq; [discriminate| |by injection Heq as <-].
  destruct (click_sqr x y) as [row col].
  destruct (empty_sqr (dboard g) row col && drunning g) eqn:Hc; [|by injection Heq as <-].
  apply andb_true_iff in Hc as [He Hr]. apply empty_sqr_true in He.
  destruct (make_move g row col) as [g1|] eqn:Hm; [|discriminate].
  injection Heq as <-. by eapply dmove_then_stop_inv.
Qed.

Lemma dprocess_events_inv g evs g' : dgame_inv g -> process_events g evs = Some g' -> dgame_inv g'.
Proof.
  revert g. induction evs as [|ev evs IH]; intros g Hinv; cbn; [by intros [= <-]|].
  destruct (process_event g ev) as [g1|] eqn:He; [|discriminate].
  apply IH. by eapply dprocess_event_inv.
Qed.

(** [AI.eval] on a board of a game that goes on returns an empty square
    and keeps [player]; it returns one at the search levels, and at
    level 0 when the random index is in range. *)
Lemma deval_open a b idx a' row col :
  dwf b -> player a = 2%Z -> Distance.final_state b = 0%Z -> isfull b = false ->
  eval a b idx = Some (a', Some (row, col)) ->
  (row, col) ∈ get_empty_sqrs ROW COL b /\ player a' = player a.
Proof.
  intros Hb Hp Hf Hfull. unfold eval.
  destruct (level a =? 0)%Z.
  - unfold rnd. destruct (get_empty_sqrs ROW COL b !! idx) as [mv|] eqn:Hl; [|discriminate].
    intros [= <- <-]. split; [by eapply list_elem_of_lookup_2|done].
  - destruct (dminimax_total_gen (player a) ltac:(lia) (dh_fuel b) b false 0%Z NegInf PosInf
                (nodes_expanded a)) as (z & mv & n' & Hk & _ & Hmv);
      [done|destruct Hb as [[_ Hc] H9]; unfold dh_fuel; lia|].
    rewrite Hk. intros [= <- ->]. destruct (Hmv Hf Hfull) as (rc & [= <-] & Hin). done.
Qed.

Lemma deval_total a b idx :
  dwf b -> player a = 2%Z -> Distance.final_state b = 0%Z -> isfull b = false ->
  (level a <> 0%Z \/ idx < length (get_empty_sqrs ROW COL b)) ->
  exists a' mv, eval a b idx = Some (a', Some mv).
Proof.
  intros Hb Hp Hf Hfull Hlvl. unfold eval.
  destruct (Z.eqb_spec (level a) 0) as [H0|H0].
  - destruct Hlvl as [?|Hidx]; [done|]. unfold rnd.
    case_match eqn:Hl; [eauto|]. apply lookup_ge_None in Hl. unfold move in *. lia.
  - destruct (dminimax_total_gen (player a) ltac:(lia) (dh_fuel b) b false 0%Z NegInf PosInf
                (nodes_expanded a)) as (z & mv & n' & Hk & _ & Hmv);
      [done|destruct Hb as [[_ Hc] H9]; unfold dh_fuel; lia|].
    rewrite Hk. destruct (Hmv Hf Hfull) as (rc & -> & _). eauto.
Qed.

Lemma dai_turn_inv g idx g' : dgame_inv g -> ai_turn g idx = Some g' -> dgame_inv g'.
Proof.
  intros Hinv. unfold ai_turn.
  destruct ((dplayer g =? player (dai g))%Z && drunning g) eqn:Hguard; [|by intros [= <-]].
  apply andb_true_iff in Hguard as [_ Hr].
  pose proof Hinv as (Hb & Hbal & Hrun & Hai).
  rewrite Hr in Hrun. symmetry in Hrun. apply negb_true_iff, disover_false in Hrun as [Hf Hfull].
  destruct (eval (dai g) (dboard g) idx) as [[ai' [[row col]|]]|] eqn:Hev; try discriminate.
  destruct (deval_open _ _ _ _ _ _ Hb Hai Hf Hfull Hev) as ((_ & _ & H0)%elem_of_get_empty_sqrs & Hp).
  destruct (make_move (mkDG (dboard g) ai' (dplayer g) (drunning g)) row col) as [g1|] eqn:Hm;
    [|discriminate].
  intros [= <-]. eapply (dmove_then_stop_inv (mkDG (dboard g) ai' (dplayer g) (drunning g)));
    [|exact Hr|exact H0|exact Hm].
  split_and!; [exact Hb|exact Hbal| |cbn; by rewrite Hp].
  unfold isover. cbn [dboard drunning]. by rewrite Hr, Hf, Hfull.
Qed.

Lemma dstep_inv g g' : dgame_inv g -> dstep g g' -> dgame_inv g'.
Proof.
  intros Hinv Hs. inversion Hs as [g0 evs idx g1 Hit]; subst. unfold iteration in Hit.
  destruct (process_events g evs) as [g2|] eqn:Hp; [|discriminate].
  eapply dai_turn_inv; [|exact Hit]. eapply dprocess_events_inv; [exact Hinv|exact Hp].
Qed.

Lemma dreachable_dgame_inv g : dreachable g -> dgame_inv g.
Proof.
  unfold dreachable. intros Hr. generalize new_dgame_inv.
  induction Hr as [|g1 g2 g3 Hs _ IH]; [done|]. intros Hinv. apply IH. by eapply dstep_inv.
Qed.

(** C22: Every state the loop of [distance_improve.py] reaches has a 5x5
    board with at most nine marks and alternating sides, runs exactly
    while [isover] is false, and has the AI playing circles. *)
Theorem dreachable_inv g : dreachable g -> dgame_inv g.
Proof. apply dreachable_dgame_inv. Qed.

(** The AI's turn never raises: on the search levels, or at level 0
    with a random index in range, [eval] returns an empty square and the
    move succeeds. *)
Theorem dai_turn_progress g idx :
  dreachable g -> (level (dai g) <> 0%Z \/ idx < length (get_empty_sqrs ROW COL (dboard g))) ->
  exists g', ai_turn g idx = Some g' /\ dgame_inv g'.
Proof.
  intros Hr Hlvl. pose proof (dreachable_dgame_inv g Hr) as Hinv.
  assert (exists g', ai_turn g idx = Some g') as [g' Hg'].
  { unfold ai_turn.
    destruct ((dplayer g =? player (dai g))%Z && drunning g) eqn:Hguard; [|eauto].
    apply andb_true_iff in Hguard as [_ Hr'].
    pose proof Hinv as (Hb & Hbal & Hrun & Hai).
    rewrite Hr' in Hrun. symmetry in Hrun. apply negb_true_iff, disover_false in Hrun as [Hf Hfull].
    destruct (deval_total _ _ idx Hb Hai Hf Hfull Hlvl) as (ai' & [row col] & Hev). rewrite Hev.
    destruct (deval_open _ _ _ _ _ _ Hb Hai Hf Hfull Hev) as ((Hrow & Hcol & _)%elem_of_get_empty_sqrs & _).
    destruct (mark_sqr_in_range ROW COL (dboard g) row col (dplayer g)) as [b' Hm];
      [apply Hb|done|done|].
    unfold make_move. cbn. rewrite Hm. eauto. }
  exists g'. split; [done|]. by eapply dai_turn_inv.
Qed.

(** Once the game is over nothing changes any more: [main()] never
    calls [reset], so every later iteration either exits or leaves the
    state as it is. *)
Lemma stopped_process_events g evs g' :
  drunning g = false -> process_events g evs = Some g' -> g' = g.
Proof.
  intros Hr. induction evs as [|[|x y|] evs IH]; cbn [process_events process_event];
    [by intros [= <-]|done| |done].
  destruct (click_sqr x y) as [row col]. by rewrite Hr, andb_false_r.
Qed.

(** C24: After the game is over the loop of [distance_improve.py] is
    frozen: an iteration from a stopped state either exits or returns the
    same state, so the board can never be played again. *)
Theorem dgame_over_frozen g g' : drunning g = false -> dstep g g' -> g' = g.
Proof.
  intros Hr Hs. inversion Hs as [g0 evs idx g1 Hit]; subst. unfold iteration in Hit.
  destruct (process_events g evs) as [g2|] eqn:Hp; [|discriminate].
  apply stopped_process_events in Hp as ->; [|done].
  unfold ai_turn in Hit. rewrite Hr, andb_false_r in Hit. by injection Hit as <-.
Qed.

Lemma click_sqr_range x y : x < WIDTH -> y < HEIGHT -> (click_sqr x y).1 < 3 /\ (click_sqr x y).2 < 3.
Proof.
  unfold click_sqr, WIDTH, HEIGHT. change SQSIZE with 200. cbn [fst snd]. intros Hx Hy.
  split; apply Nat.Div0.div_lt_upper_bound; lia.
Qed.

(** C23: on the 5x5 board the human can only play the top-left 3x3
    squares: [SQSIZE = WIDTH // 3], so a click anywhere in the 600x600
    window falls in a row and a column below 3, and the squares it
    changes are there, while the AI plays on all 25 squares. *)
Theorem dclick_top_left g x y g' r c :
  x < WIDTH -> y < HEIGHT -> process_event g (DClick x y) = Some g' ->
  cell (dboard g') r c <> cell (dboard g) r c -> r < 3 /\ c < 3.
Proof.
  intros Hx Hy. cbn [process_event]. destruct (click_sqr_range x y Hx Hy) as [Hr Hc].
  destruct (click_sqr x y) as [row col]. cbn [fst snd] in Hr, Hc.
  destruct (_ && _); [|by intros [= <-]].
  unfold make_move. destruct (mark_sqr (dboard g) row col (dplayer g)) as [b'|] eqn:Hm; [|discriminate].
  intros [= <-]. unfold stop_if_over. destruct (isover _); cbn [dboard next_turn];
    rewrite (cell_mark_sqr _ _ _ _ _ r c Hm); case_decide as Heq; try done; injection Heq as -> ->; lia.
Qed.

End DistanceGameFacts.

Module DistanceGameExamples.
Import Grid Distance DistanceGame DistanceGameFacts.

(** An iteration without clicks: the AI waits for the cross. *)
Lemma dreachable_inv_witness :
  dreachable new_dgame /\ dgame_inv new_dgame.
Proof.
  assert (dreachable new_dgame) as Hr.
  { apply (rtc_l dstep new_dgame new_dgame new_dgame); [|apply rtc_refl].
    apply (dstep_iter new_dgame [DOther] 0). reflexivity. }
  split; [exact Hr|]. apply (dreachable_inv new_dgame Hr).
Defined.

Lemma dai_turn_progress_witness :
  exists g', ai_turn new_dgame 0 = Some g' /\ dgame_inv g'.
Proof.
  apply (dai_turn_progress new_dgame 0); [apply rtc_refl|left; discriminate].
Defined.

(** A stopped game: the iteration with a click on an empty square leaves
    it unchanged. *)
Definition stopped : dgame := mkDG (new_board ROW COL) new_AI 1 false.

Lemma dgame_over_frozen_witness :
  iteration stopped [DClick 0 0] 0 = Some stopped /\
  forall g', dstep stopped g' -> g' = stopped.
Proof.
  split; [reflexivity|]. intros g' Hs. apply (dgame_over_frozen stopped g'); [reflexivity|exact Hs].
Defined.

(** A click at the bottom-right corner of the window marks (2, 2). *)
Lemma dclick_top_left_witness :
  exists g', process_event new_dgame (DClick 599 599) = Some g' /\ cell (dboard g') 2 2 = 1%Z /\
             (2 < 3 /\ 2 < 3).
Proof.
  eexists. split; [reflexivity|]. split; [reflexivity|].
  eapply (dclick_top_left new_dgame 599 599 _ 2 2); [unfold WIDTH; lia|unfold HEIGHT; lia|reflexivity|].
  vm_compute. discriminate.
Defined.

End DistanceGameExamples.
