(* ===== verification/Render.v ===== *)
(** * What the pygame programs draw: [show_lines] and [draw_fig]

    [tictactoe.py] (lines 210-237), [Alpha_beta.py] (lines 217-247) and
    [distance_improve.py] (lines 159-179) draw with the same two methods
    of [Game]: [show_lines] fills the shared [screen] and draws the four
    lines of the grid; [draw_fig(row, col)] draws a cross (two lines) for
    player 1 or a circle for player 2 in the square [(row, col)], and
    nothing for another value.  [Game.make_move] calls [draw_fig] before
    [next_turn], so with the player who moves.

    The constants of the drawing come from [constants.py] in
    [tictactoe.py] and [Alpha_beta.py]; that file is not in the
    repository, so they are the class [WindowConsts], and what the proofs
    need of them is the class [WindowLaws].  [distance_improve.py]
    defines its own (lines 9-21): [DistanceWindow] is that instance.  A
    shape is recorded with its pixel coordinates; [shape_box] is the box
    its points lie in (the end points of a line, the square around a
    circle), without the stroke width. *)

From Stdlib Require Import ZArith Lia.
From stdpp Require Import base list numbers options.

Module Render.
#[local] Open Scope Z_scope.

(** An RGB colour. *)
Definition rgb : Type := Z * Z * Z.

(** [screen.fill(color)], [pygame.draw.line(screen, color, start, end,
    width)] and [pygame.draw.circle(screen, color, center, radius,
    width)]. *)
Inductive shape :=
  | Fill (color : rgb)
  | Line (color : rgb) (start end_ : Z * Z) (width : Z)
  | Circle (color : rgb) (center : Z * Z) (radius width : Z).

(** The constants the drawing reads. *)
Class WindowConsts := {
  WIDTH : Z; HEIGHT : Z; SQSIZE : Z; OFFSET : Z;
  LINE_WIDTH : Z; CROSS_WIDTH : Z; CIR_WIDTH : Z; RADUIS : Z;
  BG_COLOR : rgb; LINE_COLOR : rgb; CROSS_COLOR : rgb; CIR_COLOR : rgb
}.

(** What the proofs need of them: squares of positive size, a margin of
    at most half a square, and a circle that fits in half a square. *)
Class WindowLaws `{!WindowConsts} : Prop := {
  sqsize_pos : (0 < SQSIZE)%Z;
  offset_range : (0 <= OFFSET <= SQSIZE / 2)%Z;
  radius_range : (0 <= RADUIS <= SQSIZE / 2)%Z
}.

Section Draw.
  Context `{!WindowConsts}.

(** [Game.show_lines]. *)
Definition show_lines : list shape :=
  [Fill BG_COLOR;
   Line LINE_COLOR (SQSIZE, 0%Z) (SQSIZE, HEIGHT) LINE_WIDTH;
   Line LINE_COLOR (WIDTH - SQSIZE, 0%Z) (WIDTH - SQSIZE, HEIGHT)%Z LINE_WIDTH;
   Line LINE_COLOR (0%Z, SQSIZE) (WIDTH, SQSIZE) LINE_WIDTH;
   Line LINE_COLOR (0%Z, HEIGHT - SQSIZE) (WIDTH, HEIGHT - SQSIZE)%Z LINE_WIDTH].

(** [Game.draw_fig(row, col)] with [self.player = player]. *)
Definition draw_fig (player : Z) (row col : nat) : list shape :=
  let r := Z.of_nat row in
  let c := Z.of_nat col in
  if (player =? 1)%Z then
    [Line CROSS_COLOR (c * SQSIZE + OFFSET, r * SQSIZE + OFFSET)
          (c * SQSIZE + SQSIZE - OFFSET, r * SQSIZE + SQSIZE - OFFSET) CROSS_WIDTH;
     Line CROSS_COLOR (c * SQSIZE + OFFSET, r * SQSIZE + SQSIZE - OFFSET)
          (c * SQSIZE + SQSIZE - OFFSET, r * SQSIZE + OFFSET) CROSS_WIDTH]%Z
  else if (player =? 2)%Z then
    [Circle CIR_COLOR (c * SQSIZE + SQSIZE / 2, r * SQSIZE + SQSIZE / 2) RADUIS CIR_WIDTH]%Z
  else [].

End Draw.

(** The box [(x0, y0, x1, y1)] that holds the points of a shape; a fill
    covers the whole surface. *)
Definition box : Type := Z * Z * Z * Z.

Definition shape_box (s : shape) : option box :=
  match s with
  | Fill _ => None
  | Line _ (x0, y0) (x1, y1) _ => Some (Z.min x0 x1, Z.min y0 y1, Z.max x0 x1, Z.max y0 y1)
  | Circle _ (x, y) r _ => Some (x - r, y - r, x + r, y + r)%Z
  end.

Definition box_within (b outer : box) : Prop :=
  let '(x0, y0, x1, y1) := b in
  let '(X0, Y0, X1, Y1) := outer in
  (X0 <= x0 /\ x1 <= X1 /\ Y0 <= y0 /\ y1 <= Y1)%Z.

(** The square [(row, col)] of the window. *)
Definition square_box `{!WindowConsts} (row col : nat) : box :=
  (Z.of_nat col * SQSIZE, Z.of_nat row * SQSIZE,
   Z.of_nat col * SQSIZE + SQSIZE, Z.of_nat row * SQSIZE + SQSIZE)%Z.

(** A box the [WIDTH] x [HEIGHT] window does not show any point of. *)
Definition off_window `{!WindowConsts} (b : box) : Prop :=
  let '(x0, y0, _, _) := b in (WIDTH <= x0 \/ HEIGHT <= y0)%Z.

(** The constants of [distance_improve.py], lines 9-21. *)
Definition DistanceWindow : WindowConsts := {|
  WIDTH := 600; HEIGHT := 600; SQSIZE := 600 / 3; OFFSET := 15;
  LINE_WIDTH := 15; CROSS_WIDTH := 25; CIR_WIDTH := 15; RADUIS := (600 / 3) / 3;
  BG_COLOR := (255, 255, 255); LINE_COLOR := (0, 0, 0);
  CROSS_COLOR := (255, 0, 0); CIR_COLOR := (0, 0, 255)
|}%Z.

(** [show_lines] and [draw_fig] of [distance_improve.py] (lines 159-179,
    without the stray [+] of line 169): the methods above on its
    constants.  [show_lines] still draws a 3x3 grid on the 5x5 board. *)
Definition d_show_lines : list shape := @show_lines DistanceWindow.
Definition d_draw_fig : Z -> nat -> nat -> list shape := @draw_fig DistanceWindow.

(** [draw_fig] and [show_lines] of [Alpha_beta.py] (lines 217-247), the
    code of [tictactoe.py] on the same [constants.py]. *)
Definition ab_draw_fig `{!WindowConsts} : Z -> nat -> nat -> list shape := draw_fig.
Definition ab_show_lines `{!WindowConsts} : list shape := show_lines.

End Render.

Module RenderFacts.
Import Render.
#[local] Open Scope Z_scope.

(** A shape whose points all lie in the box [outer]. *)
Definition shape_within (outer : box) (s : shape) : Prop :=
  match shape_box s with Some b => box_within b outer | None => False end.

(** A shape of which the window shows no point. *)
Definition shape_off_window `{!WindowConsts} (s : shape) : Prop :=
  match shape_box s with Some b => off_window b | None => False end.

Lemma half_bounds (q : Z) : 0 < q -> 0 <= q / 2 /\ 2 * (q / 2) <= q.
Proof. intros Hq. split; [apply Z.div_pos; lia|apply Z.mul_div_le; lia]. Qed.

(** C27: with constants that meet [WindowLaws], every figure [draw_fig]
    draws for a square lies inside that square: the two lines of a cross
    run between the corners moved in by [OFFSET], and the circle of radius
    [RADUIS] is centred in the square. *)
Theorem draw_fig_in_square `{!WindowConsts} `{!WindowLaws} player row col :
  Forall (shape_within (square_box row col)) (draw_fig player row col).
Proof.
  pose proof sqsize_pos as Hq. pose proof offset_range as Ho. pose proof radius_range as Hr.
  destruct (half_bounds SQSIZE Hq) as [Hh0 Hh2].
  unfold draw_fig, square_box.
  set (x := Z.of_nat col * SQSIZE). set (y := Z.of_nat row * SQSIZE).
  destruct (player =? 1); [|destruct (player =? 2)];
    repeat constructor; cbn; lia.
Qed.

(** C28: on the 600x600 window of [distance_improve.py], with squares of
    [WIDTH // 3 = 200] pixels, the figure of a square in row or column 3
    or 4 of the 5x5 board lies wholly outside the window: such a move is
    never shown. *)
Theorem distance_fig_off_window player row col :
  (3 <= row \/ 3 <= col)%nat ->
  Forall (@shape_off_window DistanceWindow) (d_draw_fig player row col).
Proof.
  intros Hrc. unfold d_draw_fig, draw_fig, shape_off_window. cbn [SQSIZE OFFSET RADUIS WIDTH HEIGHT DistanceWindow].
  change (600 / 3) with 200. change (200 / 3) with 66. change (200 / 2) with 100.
  destruct (player =? 1); [|destruct (player =? 2)];
    repeat (apply Forall_cons; [cbn; lia|]); apply Forall_nil.
Qed.

End RenderFacts.

Module RenderExamples.
Import Render RenderFacts.
#[local] Open Scope Z_scope.

(** The constants of [distance_improve.py] meet [WindowLaws]: squares of
    200 pixels, a margin of 15, circles of radius 66. *)
#[local] Instance distance_window_laws : @WindowLaws DistanceWindow.
Proof. split; cbn; Z.div_mod_to_equations; lia. Qed.

(** The circle of the AI's move (1, 1) on the 5x5 window lies in the
    square from (200, 200) to (400, 400). *)
Lemma draw_fig_in_square_witness :
  @draw_fig DistanceWindow 2 1 1 = [Circle (0, 0, 255) (300, 300) 66 15] /\
  Forall (shape_within (@square_box DistanceWindow 1 1)) (@draw_fig DistanceWindow 2 1 1).
Proof.
  split; [reflexivity|]. apply (@draw_fig_in_square DistanceWindow distance_window_laws 2 1 1).
Defined.

(** The AI of [distance_improve.py] answers (0, 4) on the board of
    [Distance.pruning_changes_move]; its circle is centred at (900, 100),
    outside the window. *)
Lemma distance_fig_off_window_witness :
  d_draw_fig 2 0 4 = [Circle (0, 0, 255) (900, 100) 66 15] /\
  Forall (@shape_off_window DistanceWindow) (d_draw_fig 2 0 4).
Proof. split; [reflexivity|]. apply (distance_fig_off_window 2 0 4). right. lia. Defined.

End RenderExamples.
