(* ===== verification/CharBoard.v ===== *)
(** * The character board of [BF_Search.py] and [heuristic reduction.py]

    Both tkinter programs keep the board as a list of three lists of
    one-character strings, [' '] for an empty square and ['X'] or ['O']
    for a mark, and share the helpers [check_winner], [check_draw] and
    [get_empty_positions] (BF_Search.py lines 26-40; the same text is at
    lines 25-39 of [additional cose/heuristic reduction.py]).  The searches
    of both files write a trial mark into the board in place and undo it:
    [cset] is that item assignment, which raises [IndexError] outside the
    lists.  The theorems here are the facts about reading and writing
    squares that the searches' proofs share. *)

From Stdlib Require Import Ascii Lia.
From stdpp Require Import base list strings options.
From S2P Require Import Prelude.

Module CharBoard.

Notation pos := (nat * nat)%type.

(** [board]: [[[' ' for _ in range(3)] for _ in range(3)]] and its
    updates. *)
Notation cboard := (list (list ascii)).

Definition blank : ascii := " ".
Definition cX : ascii := "X".
Definition cO : ascii := "O".

Definition new_cboard : cboard := replicate 3 (replicate 3 blank).

(** [board[i][j]] for indices inside the board; the code only reads
    indices below 3, inside the 3x3 shape that [shaped] states. *)
Definition cget (b : cboard) (i j : nat) : ascii :=
  default blank (b !! i ≫= fun row => row !! j).

(** [board[i][j] = v]: [IndexError] ([None]) outside the lists. *)
Definition cset (b : cboard) (i j : nat) (v : ascii) : option cboard :=
  match b !! i with
  | Some row => if decide (j < length row) then Some (<[i := <[j := v]> row]> b) else None
  | None => None
  end.

(** [all(f(k) for k in range(n))]. *)
Definition all_range (n : nat) (f : nat -> bool) : bool := forallb f (seq 0 n).

Definition is_mark (b : cboard) (player : ascii) (i j : nat) : bool :=
  bool_decide (cget b i j = player).

(** [check_winner(board, player)]: for each [i], row [i] or column [i]
    all equal to [player]; then the two diagonals. *)
Definition check_winner (b : cboard) (player : ascii) : bool :=
  existsb (fun i => all_range 3 (fun j => is_mark b player i j) ||
                    all_range 3 (fun j => is_mark b player j i)) (seq 0 3)
  || all_range 3 (fun i => is_mark b player i i)
  || all_range 3 (fun i => is_mark b player i (2 - i)).

(** [check_draw(board)]: no square is [' ']. *)
Definition check_draw (b : cboard) : bool :=
  forallb (fun i => all_range 3 (fun j => negb (is_mark b blank i j))) (seq 0 3).

(** [get_empty_positions(board)]: the comprehension over [i] then [j]. *)
Definition get_empty_positions (b : cboard) : list pos :=
  flat_map (fun i => flat_map (fun j => if is_mark b blank i j then [(i, j)] else [])
                              (seq 0 3)) (seq 0 3).

(** [player]'s opponent: ['X' if player == 'O' else 'O']. *)
Definition opponent (player : ascii) : ascii :=
  if bool_decide (player = cO) then cX else cO.

(** The squares in the order of the loops [for i in range(3): for j in
    range(3)]. *)
Definition all_positions : list pos := flat_map (fun i => map (fun j => (i, j)) (seq 0 3)) (seq 0 3).

(** The board invariant: three rows of three squares. *)
Definition shaped (b : cboard) : Prop :=
  length b = 3 /\ Forall (fun row => length row = 3) b.

(** The eight lines of the board, as the squares [check_winner] reads. *)
Definition lines : list (list pos) :=
  [ [(0,0);(0,1);(0,2)]; [(0,0);(1,0);(2,0)];
    [(1,0);(1,1);(1,2)]; [(0,1);(1,1);(2,1)];
    [(2,0);(2,1);(2,2)]; [(0,2);(1,2);(2,2)];
    [(0,0);(1,1);(2,2)]; [(0,2);(1,1);(2,0)] ].


(** [line_owned b player l]: every square of [l] holds [player]. *)
Definition line_owned (b : cboard) (player : ascii) (l : list pos) : bool :=
  forallb (fun ij => is_mark b player ij.1 ij.2) l.

(** The characters a square of the game holds: [' '], ['X'] or ['O']. *)
Definition mark_char (c : ascii) : bool :=
  bool_decide (c = blank) || bool_decide (c = cX) || bool_decide (c = cO).

(** Every square of the 3x3 grid holds one of them. *)
Definition marks_ok (b : cboard) : bool :=
  forallb (fun ij => mark_char (cget b ij.1 ij.2)) all_positions.

(** ** Reading and writing squares *)

Lemma cget_cset b i j v b' i' j' :
  cset b i j v = Some b' -> cget b' i' j' = if decide ((i', j') = (i, j)) then v else cget b i' j'.
Proof.
  unfold cset, cget. destruct (b !! i) as [row|] eqn:Hi; [|done].
  case_decide as Hj; [|done]. intros [= <-].
  destruct (decide (i' = i)) as [->|Hne].
  - rewrite list_lookup_insert_eq by (eapply lookup_lt_Some; eauto). cbn.
    rewrite Hi. cbn. destruct (decide (j' = j)) as [->|Hj'].
    + rewrite list_lookup_insert_eq by done. rewrite decide_True by done. done.
    + rewrite list_lookup_insert_ne by done. rewrite decide_False by congruence. done.
  - rewrite list_lookup_insert_ne by done. rewrite decide_False by congruence. done.
Qed.

Lemma marks_ok_cset b i j v b' :
  marks_ok b = true -> mark_char v = true -> cset b i j v = Some b' -> marks_ok b' = true.
Proof.
  unfold marks_ok. rewrite !forallb_forall. intros Hb Hv Hs [i' j'] Hin.
  rewrite (cget_cset _ _ _ _ _ _ _ Hs). case_decide; [done|]. by apply Hb.
Qed.

Lemma cset_in_range b i j v :
  shaped b -> i < 3 -> j < 3 -> exists b', cset b i j v = Some b' /\ shaped b'.
Proof.
  intros [Hlen Hrows] Hi Hj. unfold cset.
  destruct (b !! i) as [row|] eqn:Hr; [|apply lookup_ge_None in Hr; lia].
  pose proof (Forall_lookup_1 _ _ _ _ Hrows Hr) as Hrow. cbn in Hrow.
  rewrite decide_True by lia. eexists; split; [done|]. split.
  - by rewrite length_insert.
  - apply Forall_insert; [done|]. by rewrite length_insert.
Qed.

Lemma cset_out_of_range b i j v : shaped b -> (3 <= i \/ 3 <= j) -> cset b i j v = None.
Proof.
  intros [Hlen Hrows] Hij. unfold cset.
  destruct (b !! i) as [row|] eqn:Hr; [|done].
  pose proof (Forall_lookup_1 _ _ _ _ Hrows Hr) as Hrow. cbn in Hrow.
  assert (i < 3) by (apply lookup_lt_Some in Hr; lia).
  rewrite decide_False by lia. done.
Qed.

(** Two boards of the same shape with the same squares are equal. *)
Lemma cboard_ext b1 b2 :
  shaped b1 -> shaped b2 -> (forall i j, i < 3 -> j < 3 -> cget b1 i j = cget b2 i j) -> b1 = b2.
Proof.
  intros [H1 R1] [H2 R2] Heq. apply list_eq. intros i.
  destruct (decide (i < 3)) as [Hi|Hi].
  - destruct (b1 !! i) as [r1|] eqn:E1; [|apply lookup_ge_None in E1; lia].
    destruct (b2 !! i) as [r2|] eqn:E2; [|apply lookup_ge_None in E2; lia].
    f_equal. pose proof (Forall_lookup_1 _ _ _ _ R1 E1). pose proof (Forall_lookup_1 _ _ _ _ R2 E2).
    cbn in *. apply list_eq. intros j. destruct (decide (j < 3)) as [Hj|Hj].
    + specialize (Heq i j Hi Hj). unfold cget in Heq. rewrite E1, E2 in Heq. cbn in Heq.
      destruct (r1 !! j) eqn:F1; [|apply lookup_ge_None in F1; lia].
      destruct (r2 !! j) eqn:F2; [|apply lookup_ge_None in F2; lia]. cbn in Heq. by subst.
    + rewrite !lookup_ge_None_2 by lia. done.
  - rewrite !lookup_ge_None_2 by lia. done.
Qed.

(** Marking an empty square and writing [' '] back gives the board
    back: the undo step of every in-place search of these programs. *)
Lemma cset_undo b i j v b' :
  shaped b -> cget b i j = blank -> cset b i j v = Some b' ->
  exists b'', cset b' i j blank = Some b'' /\ b'' = b.
Proof.
  intros Hs Hb Hset.
  assert (i < 3 /\ j < 3) as [Hi Hj].
  { destruct (decide (i < 3 /\ j < 3)) as [|Hn]; [done|].
    rewrite cset_out_of_range in Hset by (done || lia). done. }
  destruct (cset_in_range b i j v Hs Hi Hj) as [b1 [Hb1 Hs1]].
  rewrite Hset in Hb1. injection Hb1 as <-.
  destruct (cset_in_range b' i j blank Hs1 Hi Hj) as [b2 [Hb2 Hs2]].
  exists b2. split; [done|]. apply cboard_ext; [done|done|]. intros i' j' _ _.
  rewrite (cget_cset _ _ _ _ _ _ _ Hb2), (cget_cset _ _ _ _ _ _ _ Hset).
  case_decide as E; [|done]. injection E as -> ->. by rewrite Hb.
Qed.


(** ** The helpers against their specifications *)

Lemma check_winner_lines b p : check_winner b p = existsb (line_owned b p) lines.
Proof.
  unfold check_winner, line_owned, lines, all_range. cbn.
  destruct (is_mark b p 0 0), (is_mark b p 0 1), (is_mark b p 0 2),
           (is_mark b p 1 0), (is_mark b p 1 1), (is_mark b p 1 2),
           (is_mark b p 2 0), (is_mark b p 2 1), (is_mark b p 2 2); reflexivity.
Qed.

Lemma check_winner_true b p :
  check_winner b p = true <-> exists l, l ∈ lines /\ forall ij, ij ∈ l -> cget b ij.1 ij.2 = p.
Proof.
  rewrite check_winner_lines, existsb_exists. unfold line_owned.
  setoid_rewrite forallb_forall. setoid_rewrite <- list_elem_of_In.
  unfold is_mark. setoid_rewrite bool_decide_eq_true. done.
Qed.

Lemma elem_of_get_empty_positions b i j :
  (i, j) ∈ get_empty_positions b <-> i < 3 /\ j < 3 /\ cget b i j = blank.
Proof.
  unfold get_empty_positions. rewrite list_elem_of_In, in_flat_map.
  setoid_rewrite in_flat_map. setoid_rewrite in_seq. split.
  - intros (i' & Hi' & j' & Hj' & Hin). unfold is_mark in Hin. case_bool_decide; [|done].
    destruct Hin as [[= <- <-]|[]]. split_and!; [lia|lia|done].
  - intros (Hi & Hj & Hc). exists i. split; [lia|]. exists j. split; [lia|].
    unfold is_mark. rewrite bool_decide_true by done. by left.
Qed.

Lemma NoDup_get_empty_positions b : NoDup (get_empty_positions b).
Proof.
  unfold get_empty_positions. cbn. unfold is_mark.
  repeat case_bool_decide; cbn; apply (bool_decide_unpack _); reflexivity.
Qed.

Lemma check_draw_empty b : check_draw b = true <-> get_empty_positions b = [].
Proof.
  unfold check_draw, get_empty_positions, all_range. cbn.
  destruct (is_mark b blank 0 0), (is_mark b blank 0 1), (is_mark b blank 0 2),
           (is_mark b blank 1 0), (is_mark b blank 1 1), (is_mark b blank 1 2),
           (is_mark b blank 2 0), (is_mark b blank 2 1), (is_mark b blank 2 2); cbn;
    split; congruence.
Qed.

Lemma elem_of_all_positions i j : (i, j) ∈ all_positions <-> i < 3 /\ j < 3.
Proof.
  unfold all_positions. rewrite list_elem_of_In, in_flat_map. setoid_rewrite in_map_iff.
  setoid_rewrite in_seq. split.
  - intros (i' & Hi & j' & [= -> ->] & Hj). lia.
  - intros [Hi Hj]. exists i. split; [lia|]. exists j. split; [done|lia].
Qed.

Lemma comprehension_filter (f : nat -> nat -> bool) :
  flat_map (fun i => flat_map (fun j => if f i j then [(i, j)] else []) (seq 0 3)) (seq 0 3)
  = filter (fun q => f q.1 q.2 = true) all_positions.
Proof.
  unfold all_positions. cbn.
  destruct (f 0 0), (f 0 1), (f 0 2), (f 1 0), (f 1 1), (f 1 2), (f 2 0), (f 2 1), (f 2 2);
    reflexivity.
Qed.

Lemma get_empty_positions_filter b :
  get_empty_positions b = filter (fun q => cget b q.1 q.2 = blank) all_positions.
Proof.
  unfold get_empty_positions. rewrite comprehension_filter.
  apply filter_ext_in. intros q _. unfold is_mark. apply bool_decide_eq_true.
Qed.

(** Marking an empty square closes exactly that square. *)
(** A 3x3 board has at most nine empty squares. *)
Lemma length_empty_le b : length (get_empty_positions b) <= 9.
Proof. rewrite get_empty_positions_filter. apply (length_filter _ all_positions). Qed.

Lemma length_empty_cset b i j v b' :
  v <> blank -> (i, j) ∈ get_empty_positions b -> cset b i j v = Some b' ->
  length (get_empty_positions b) = S (length (get_empty_positions b')).
Proof.
  intros Hv Hin Hset. pose proof Hin as (Hi & Hj & Hc)%elem_of_get_empty_positions.
  rewrite !get_empty_positions_filter.
  apply (length_filter_flip _ _ _ (i, j)).
  - apply (bool_decide_unpack _). reflexivity.
  - by apply elem_of_all_positions.
  - done.
  - cbn. rewrite (cget_cset _ _ _ _ _ _ _ Hset), decide_True by done. done.
  - intros [i' j'] _ Hne. cbn. rewrite (cget_cset _ _ _ _ _ _ _ Hset), decide_False by done. done.
Qed.

Lemma shaped_new_cboard : shaped new_cboard.
Proof. split; [done|repeat constructor]. Qed.

End CharBoard.
