(* ===== verification/BFSearch.v ===== *)
(** * The one-ply search of [BF_Search.py]

    [bfs_move(board, player, counter)] (lines 53-93) shuffles the empty
    squares, then tries in that order (1) a square where [player] wins at
    once, (2) a square where the opponent would win, to block it, and
    (3) the square whose mark maximises [bfs_heuristic] (centre 2, each
    owned corner 1).  Every trial writes the mark into the shared board,
    increments the shared list [counter], and writes [' '] back.  The
    tkinter class [TicTacToeGUI] (lines 97-221) plays ['X'] for the human
    and answers every move with [computer_move].

    [random.shuffle] and [random.choice] are oracles: the shuffled list is
    [shuffle (get_empty_positions board)] for a [shuffle] that the theorems
    take to be a permutation, and the corner is an index.  The state that
    [bfs_move] mutates ([board] and [counter[0]]) is a record threaded
    through the state monad [St] of the prelude. *)

From Stdlib Require Import Ascii ZArith Lia.
From stdpp Require Import base list strings options relations.
From S2P Require Import Prelude CharBoard.

Module BFSearch.
Import CharBoard.

(** [bfs_heuristic(board, player)]: 2 for the centre, then one more for
    each corner that holds [player]. *)
Definition bfs_heuristic (b : cboard) (player : ascii) : Z :=
  fold_left (fun h ij => if is_mark b player ij.1 ij.2 then (h + 1)%Z else h)
            [(0, 0); (0, 2); (2, 0); (2, 2)]
            (if is_mark b player 1 1 then 2%Z else 0%Z).

(** The objects [bfs_move] mutates: the board and [counter[0]]. *)
Record bstate := mkB { bboard : cboard; bcounter : Z }.

(** [board[i][j] = v] on the shared board. *)
Definition put_sq (i j : nat) (v : ascii) : St bstate unit :=
  fun s => match cset (bboard s) i j v with
           | Some b' => Some (tt, mkB b' (bcounter s))
           | None => None
           end.

(** [counter[0] += 1]. *)
Definition tick : St bstate unit := st_modify (fun s => mkB (bboard s) (bcounter s + 1)).

Definition get_board : St bstate cboard := fun s => Some (bboard s, s).

(** The first two loops of [bfs_move]: mark the square with [p], count
    it, test [check_winner(board, p)], undo, and return the square if it
    won. *)
Fixpoint first_win (p : ascii) (l : list pos) : St bstate (option pos) :=
  match l with
  | [] => st_ret None
  | (i, j) :: l' =>
      put_sq i j p ;;; tick ;;;
      b <- get_board ;;
      if check_winner b p then put_sq i j blank ;;; st_ret (Some (i, j))
      else put_sq i j blank ;;; first_win p l'
  end.

(** The third loop: [best_heuristic] starts at [float('-inf')] and is
    replaced when a square's heuristic is strictly greater. *)
Fixpoint heuristic_loop (p : ascii) (l : list pos) (best : ext) (best_move : option pos)
    : St bstate (option pos) :=
  match l with
  | [] => st_ret best_move
  | (i, j) :: l' =>
      put_sq i j p ;;; tick ;;;
      b <- get_board ;;
      let h := bfs_heuristic b p in
      put_sq i j blank ;;;
      if ext_lt best (Fin h) then heuristic_loop p l' (Fin h) (Some (i, j))
      else heuristic_loop p l' best best_move
  end.

(** [bfs_move]: the win loop, the block loop with the opponent, then the
    heuristic loop, all over the same shuffled list. *)
Definition bfs_move (shuffle : list pos -> list pos) (player : ascii) : St bstate (option pos) :=
  b <- get_board ;;
  let empty_positions := shuffle (get_empty_positions b) in
  w <- first_win player empty_positions ;;
  match w with
  | Some position => st_ret (Some position)
  | None =>
      blk <- first_win (opponent player) empty_positions ;;
      match blk with
      | Some position => st_ret (Some position)
      | None => heuristic_loop player empty_positions NegInf None
      end
  end.

(** ** The tkinter game

    The fields of [TicTacToeGUI] that the game logic changes: the board,
    [current_player], [search_space_counter[0]], [search_space_Sum[0]],
    [game_count[0]], and whether [reset_game] has disabled every button
    ([locked]).  A button is also disabled once its square is marked, but
    [make_move] ignores a marked square anyway, so that state is not
    observable and is not kept.  Memory and time statistics are prints. *)
Record gui := mkGui {
  board : cboard; current_player : ascii; counter : Z;
  space_sum : Z; game_count : Z; locked : bool }.

(** [TicTacToeGUI.__init__]. *)
Definition new_gui : gui := mkGui new_cboard cX 0 0 0 false.

Definition set_board (g : gui) (b : cboard) : gui :=
  mkGui b (current_player g) (counter g) (space_sum g) (game_count g) (locked g).

(** The end of a game, in [show_winner_message] and in the draw branch of
    [make_move]: buttons disabled, the counter added to the sum, one more
    game, the counter reset. *)
Definition finish_game (g : gui) : gui :=
  mkGui (board g) (current_player g) 0 (space_sum g + counter g) (game_count g + 1) true.

Definition corners : list pos := [(0, 0); (0, 2); (2, 0); (2, 2)].

(** [all(self.board[i][j] == ' ' ...)] of [computer_move]. *)
Definition all_blank (b : cboard) : bool :=
  forallb (fun i => all_range 3 (fun j => is_mark b blank i j)) (seq 0 3).

(** [computer_move], given the [make_move] it calls: a random corner on
    an empty board, else [bfs_move] on the shared board and counter;
    [row, col = None] raises [TypeError]. *)
Definition computer_move_with (mm : gui -> nat -> nat -> option gui)
    (corner : nat) (shuffle : list pos -> list pos) (g : gui) : option gui :=
  if all_blank (board g) then
    match corners !! corner with Some (row, col) => mm g row col | None => None end
  else
    match bfs_move shuffle (current_player g) (mkB (board g) (counter g)) with
    | Some (Some (row, col), s) =>
        mm (mkGui (bboard s) (current_player g) (bcounter s) (space_sum g) (game_count g) (locked g))
           row col
    | _ => None
    end.

(** [make_move(row, col)]: on an empty square, mark it; a win or a draw
    ends the game; otherwise switch players and let the computer answer
    when it is ['O']'s turn.  [make_move] and [computer_move] call each
    other; [fuel] bounds that recursion (2 is enough: see
    [BFSearchFacts.click_total]). *)
Fixpoint make_move (fuel : nat) (corner : nat) (shuffle : list pos -> list pos)
    (g : gui) (row col : nat) : option gui :=
  match fuel with
  | O => None
  | S fuel' =>
      if is_mark (board g) blank row col then
        match cset (board g) row col (current_player g) with
        | None => None
        | Some b' =>
            let g1 := set_board g b' in
            if check_winner b' (current_player g) then Some (finish_game g1)
            else if check_draw b' then Some (finish_game g1)
            else
              let p := if bool_decide (current_player g = cO) then cX else cO in
              let g2 := mkGui b' p (counter g) (space_sum g) (game_count g) (locked g) in
              if bool_decide (p = cO) then computer_move_with (make_move fuel' corner shuffle) corner shuffle g2
              else Some g2
        end
      else Some g
  end.


(** [restart_game] ('r' key): [self.board[i][j] = ' '] for every square,
    every button enabled, ['X'] to play.  The counter is not reset. *)
Definition restart_game (g : gui) : option gui :=
  foldl (fun ob ij => ob ≫= fun b => cset b ij.1 ij.2 blank) (Some (board g)) all_positions
  ≫= fun b => Some (mkGui b cX (counter g) (space_sum g) (game_count g) false).

(** [end_game] (lines 223-227), which nothing calls: every button
    disabled.  Its [self.search_space_Sum += self.search_space_counter]
    extends the list [search_space_Sum] with the list
    [search_space_counter], nine times, and leaves [search_space_Sum[0]]
    (the [space_sum] the program reads) as it was. *)
Definition end_game (g : gui) : gui :=
  mkGui (board g) (current_player g) (counter g) (space_sum g) (game_count g) true.

(** The tkinter event loop: a click on an enabled button (only buttons
    of the 3x3 grid exist) runs [make_move] with some shuffle and corner
    of the random module; the 'r' key restarts. *)
Inductive gui_step : gui -> gui -> Prop :=
  | step_click g row col corner shuffle g' :
      locked g = false -> row < 3 -> col < 3 -> (forall l, shuffle l ≡ₚ l) ->
      make_move 2 corner shuffle g row col = Some g' -> gui_step g g'
  | step_restart g g' : restart_game g = Some g' -> gui_step g g'.

Definition gui_reachable (g : gui) : Prop := rtc gui_step new_gui g.

End BFSearch.

Module BFSearchFacts.
Import CharBoard BFSearch.

(** [wins_at b p ij]: marking [ij] with [p] completes a line of [p]. *)
Definition wins_at (b : cboard) (p : ascii) (ij : pos) : bool :=
  match cset b ij.1 ij.2 p with Some b' => check_winner b' p | None => false end.

(** The heuristic value of marking [ij] with [p]. *)
Definition heur_after (b : cboard) (p : ascii) (ij : pos) : Z :=
  match cset b ij.1 ij.2 p with Some b' => bfs_heuristic b' p | None => 0%Z end.

(** What [bfs_move] promises, as a pure function of the board: the first
    winning square of the shuffled list, else the first blocking square,
    else the first square of best heuristic. *)
Definition bfs_spec (shuffle : list pos -> list pos) (b : cboard) (p : ascii) : option pos :=
  let l := shuffle (get_empty_positions b) in
  match find (wins_at b p) l with
  | Some ij => Some ij
  | None =>
      match find (wins_at b (opponent p)) l with
      | Some ij => Some ij
      | None => first_best (heur_after b p) l
      end
  end.

(** One trial of the loops: on an empty square of a 3x3 board, the mark
    and the undo both succeed and the undo gives the board back. *)
Lemma trial b i j v n m :
  shaped b -> (i, j) ∈ get_empty_positions b ->
  exists b1, cset b i j v = Some b1 /\
             put_sq i j v (mkB b n) = Some (tt, mkB b1 n) /\
             put_sq i j blank (mkB b1 m) = Some (tt, mkB b m).
Proof.
  intros Hs (Hi & Hj & Hc)%elem_of_get_empty_positions.
  destruct (cset_in_range b i j v Hs Hi Hj) as (b1 & Hb1 & _).
  destruct (cset_undo b i j v b1 Hs Hc Hb1) as (b2 & Hb2 & ->).
  exists b1. unfold put_sq. cbn. by rewrite Hb1, Hb2.
Qed.

Section Loops.
  Variable b : cboard.
  Hypothesis Hs : shaped b.

Lemma first_win_spec p l n :
  (forall ij, ij ∈ l -> ij ∈ get_empty_positions b) ->
  exists k, first_win p l (mkB b n) = Some (find (wins_at b p) l, mkB b (n + Z.of_nat k)) /\
            k <= length l.
Proof using Hs.
  revert n. induction l as [|[i j] l IH]; intros n Hl.
  - exists 0. cbn. rewrite Z.add_0_r. done.
  - destruct (trial b i j p n (n + 1) Hs) as (b1 & Hb1 & Hm & Hu); [apply Hl; left|].
    cbn. unfold st_bind at 1. rewrite Hm. cbn. unfold wins_at at 1. cbn. rewrite Hb1.
    destruct (check_winner b1 p).
    + exists 1. unfold st_bind. rewrite Hu. cbn. split; [do 3 f_equal; lia|lia].
    + destruct (IH (n + 1)%Z) as (k & Hk & Hle); [intros ij Hij; apply Hl; by right|].
      exists (S k). unfold st_bind. rewrite Hu, Hk. split; [do 3 f_equal; lia|cbn; lia].
Qed.

Lemma heuristic_loop_spec p l best bm n :
  (forall ij, ij ∈ l -> ij ∈ get_empty_positions b) ->
  heuristic_loop p l best bm (mkB b n)
  = Some (argmax_loop (heur_after b p) l best bm, mkB b (n + Z.of_nat (length l))).
Proof using Hs.
  revert best bm n. induction l as [|[i j] l IH]; intros best bm n Hl.
  - cbn. rewrite Z.add_0_r. done.
  - destruct (trial b i j p n (n + 1) Hs) as (b1 & Hb1 & Hm & Hu); [apply Hl; left|].
    cbn -[bfs_heuristic]. unfold st_bind at 1. rewrite Hm. cbn -[bfs_heuristic]. unfold st_bind. rewrite Hu.
    replace (heur_after b p (i, j)) with (bfs_heuristic b1 p) by (unfold heur_after; cbn; by rewrite Hb1).
    destruct (ext_lt best _); rewrite IH by (intros ij Hij; apply Hl; by right);
      do 3 f_equal; cbn [length]; lia.
Qed.

End Loops.

(** [bfs_move] against [bfs_spec]; see [bfs_move_spec] below. *)
Lemma bfs_move_correct shuffle p b n :
  shaped b -> (forall l, shuffle l ≡ₚ l) ->
  exists k, bfs_move shuffle p (mkB b n) = Some (bfs_spec shuffle b p, mkB b (n + Z.of_nat k)) /\
            k <= 3 * length (get_empty_positions b).
Proof.
  intros Hs Hsh.
  set (l := shuffle (get_empty_positions b)).
  assert (Hl : forall ij, ij ∈ l -> ij ∈ get_empty_positions b) by (intros ij; unfold l; by rewrite Hsh).
  assert (Hlen : length l = length (get_empty_positions b)) by (unfold l; by rewrite Hsh).
  unfold bfs_move, bfs_spec. cbn [get_board st_bind bboard]. fold l.
  destruct (first_win_spec b Hs p l n Hl) as (k1 & Hk1 & Hle1).
  unfold st_bind at 1. rewrite Hk1.
  destruct (find (wins_at b p) l) as [ij|].
  { exists k1. split; [done|lia]. }
  destruct (first_win_spec b Hs (opponent p) l (n + Z.of_nat k1) Hl) as (k2 & Hk2 & Hle2).
  unfold st_bind. rewrite Hk2.
  destruct (find (wins_at b (opponent p)) l) as [ij|].
  { exists (k1 + k2). split; [unfold st_ret; do 3 f_equal; lia|lia]. }
  rewrite (heuristic_loop_spec b Hs p l NegInf None _ Hl), argmax_loop_first_best.
  exists (k1 + k2 + length l). split; [do 3 f_equal; lia|lia].
Qed.

(** C6: [bfs_move] on a 3x3 board returns what [bfs_spec] describes:
    the first square of the shuffled empty squares where [player] wins,
    else the first where the opponent would win, else the first square of
    greatest [bfs_heuristic].  The board is left as it was (every trial
    mark is undone) and [counter[0]] grows by at most three trials per
    empty square. *)
Theorem bfs_move_spec shuffle p b n :
  shaped b -> (forall l, shuffle l ≡ₚ l) ->
  exists k, bfs_move shuffle p (mkB b n) = Some (bfs_spec shuffle b p, mkB b (n + Z.of_nat k)) /\
            k <= 3 * length (get_empty_positions b).
Proof. apply bfs_move_correct. Qed.

(** ** The tkinter game *)

Lemma bfs_spec_in shuffle b p :
  (forall l, shuffle l ≡ₚ l) -> get_empty_positions b <> [] ->
  exists ij, bfs_spec shuffle b p = Some ij /\ ij ∈ get_empty_positions b.
Proof.
  intros Hsh Hne. unfold bfs_spec.
  set (l := shuffle (get_empty_positions b)).
  assert (Hl : forall ij, ij ∈ l -> ij ∈ get_empty_positions b) by (intros ij; unfold l; by rewrite Hsh).
  destruct (find (wins_at b p) l) as [ij|] eqn:E1.
  { exists ij. split; [done|]. apply Hl, list_elem_of_In. by apply find_some in E1 as []. }
  destruct (find (wins_at b (opponent p)) l) as [ij|] eqn:E2.
  { exists ij. split; [done|]. apply Hl, list_elem_of_In. by apply find_some in E2 as []. }
  destruct (first_best_Some (heur_after b p) l) as (ij & Hij & Hin).
  { intros Heq. apply Hne. pose proof (Hsh (get_empty_positions b)) as P.
    fold l in P. rewrite Heq in P. by apply Permutation_nil in P. }
  exists ij. split; [done|]. by apply Hl.
Qed.

(** Writing a mark other than [p] never completes a line of [p]. *)
Lemma check_winner_cset_other b i j v b' p :
  v <> p -> cset b i j v = Some b' -> check_winner b' p = true -> check_winner b p = true.
Proof.
  intros Hv Hset. rewrite !check_winner_true. intros (l & Hl & Hall).
  exists l. split; [done|]. intros [i' j'] Hin. specialize (Hall _ Hin).
  rewrite (cget_cset _ _ _ _ _ _ _ Hset) in Hall. cbn in *. by case_decide.
Qed.

Lemma all_blank_false b i j : i < 3 -> j < 3 -> cget b i j <> blank -> all_blank b = false.
Proof.
  intros Hi Hj Hc. apply not_true_iff_false. intros H.
  unfold all_blank, all_range in H. rewrite forallb_forall in H.
  specialize (H i (proj2 (in_seq 3 0 i) ltac:(lia))). rewrite forallb_forall in H.
  specialize (H j (proj2 (in_seq 3 0 j) ltac:(lia))). unfold is_mark in H.
  by case_bool_decide.
Qed.

(** The computer's answer to a move that did not end the game: it plays
    the square [bfs_spec] picks, whatever the corner of [random.choice],
    and either ends the game or gives the turn back to ['X']. *)
Lemma computer_reply shuffle b n s gc :
  shaped b -> (forall l, shuffle l ≡ₚ l) -> all_blank b = false -> check_draw b = false ->
  exists ij b' k, bfs_spec shuffle b cO = Some ij /\ ij ∈ get_empty_positions b /\
    cset b ij.1 ij.2 cO = Some b' /\ shaped b' /\
    forall corner,
    computer_move_with (make_move 1 corner shuffle) corner shuffle (mkGui b cO n s gc false) =
      Some (if check_winner b' cO || check_draw b' then finish_game (mkGui b' cO (n + Z.of_nat k) s gc false)
            else mkGui b' cX (n + Z.of_nat k) s gc false).
Proof.
  intros Hs Hsh Hab Hd.
  assert (get_empty_positions b <> []) as Hne by (intros E; apply check_draw_empty in E; congruence).
  destruct (bfs_spec_in shuffle b cO Hsh Hne) as ([r c] & Hspec & Hin).
  destruct (bfs_move_correct shuffle cO b n Hs Hsh) as (k & Hk & _).
  pose proof Hin as (Hr & Hc & Hbl)%elem_of_get_empty_positions.
  destruct (cset_in_range b r c cO Hs Hr Hc) as (b' & Hb' & Hs').
  exists (r, c), b', k. split_and!; try done. intros corner.
  unfold computer_move_with. cbn [board current_player counter space_sum game_count locked bboard bcounter].
  rewrite Hab, Hk, Hspec.
  cbn [make_move board current_player bboard bcounter]. unfold is_mark at 1. rewrite bool_decide_true by done.
  rewrite Hb'. destruct (check_winner b' cO), (check_draw b'); reflexivity.
Qed.

(** What a reachable state satisfies: a 3x3 board, and while the buttons
    are enabled, ['X'] to play on a board where no line is complete and
    some square is empty. *)
Definition gui_inv (g : gui) : Prop :=
  shaped (board g) /\
  (locked g = false -> current_player g = cX /\ check_winner (board g) cX = false /\
                       check_winner (board g) cO = false /\ check_draw (board g) = false).

(** A click on an enabled square: the move and the computer's answer
    run to the end, whatever corner [random.choice] would give. *)
Lemma human_click shuffle g row col :
  gui_inv g -> locked g = false -> row < 3 -> col < 3 -> (forall l, shuffle l ≡ₚ l) ->
  exists g', gui_inv g' /\ forall corner, make_move 2 corner shuffle g row col = Some g'.
Proof.
  intros [Hs Hinv] Hl Hr Hc Hsh. destruct (Hinv Hl) as (Hx & HwX & HwO & Hd).
  destruct g as [b cur n sm gc lk]; cbn [board current_player locked] in *; subst cur lk.
  destruct (is_mark b blank row col) eqn:Hbl.
  2:{ exists (mkGui b cX n sm gc false). split; [by split|]. intros corner.
      cbn [make_move board]. by rewrite ?Hbl. }
  destruct (cset_in_range b row col cX Hs Hr Hc) as (b' & Hb' & Hs').
  destruct (check_winner b' cX) eqn:Hw.
  { exists (finish_game (mkGui b' cX n sm gc false)). split; [by split|].
    intros corner. cbn [make_move board current_player]. by rewrite ?Hbl, Hb', Hw. }
  destruct (check_draw b') eqn:Hd'.
  { exists (finish_game (mkGui b' cX n sm gc false)). split; [by split|].
    intros corner. cbn [make_move board current_player]. by rewrite ?Hbl, Hb', Hw, Hd'. }
  assert (all_blank b' = false) as Hab.
  { apply (all_blank_false b' row col Hr Hc). rewrite (cget_cset _ _ _ _ _ _ _ Hb').
    rewrite decide_True by done. done. }
  destruct (computer_reply shuffle b' n sm gc Hs' Hsh Hab Hd')
    as (ij & b'' & k & Hspec & Hin & Hb'' & Hs'' & Hrep).
  eexists. split; [|intros corner; cbn [make_move board current_player];
                    rewrite ?Hbl, Hb', Hw, Hd'; exact (Hrep corner)].
  destruct (check_winner b'' cO || check_draw b'') eqn:E; [by split|].
  apply orb_false_iff in E as [E1 E2]. split; [done|]. intros _. split_and!; try done.
  apply not_true_iff_false. intros HX. apply (check_winner_cset_other b' ij.1 ij.2 cO b'' cX) in HX;
    [congruence|done|done].
Qed.

Lemma clear_cells ps b :
  shaped b -> Forall (fun ij => ij.1 < 3 /\ ij.2 < 3) ps ->
  exists b', foldl (fun ob ij => ob ≫= fun b => cset b ij.1 ij.2 blank) (Some b) ps = Some b' /\
    shaped b' /\ forall i j, cget b' i j = if decide ((i, j) ∈ ps) then blank else cget b i j.
Proof.
  revert b. induction ps as [|[i j] ps IH]; intros b Hs Hps.
  - exists b. split_and!; [done|done|]. intros i j. rewrite decide_False by set_solver. done.
  - apply Forall_cons in Hps as [[Hi Hj] Hps]. cbn in Hi, Hj.
    destruct (cset_in_range b i j blank Hs Hi Hj) as (b1 & Hb1 & Hs1).
    cbn [foldl mbind option_bind fst snd]. rewrite Hb1.
    destruct (IH b1 Hs1 Hps) as (b' & Hf & Hs' & Hc). exists b'. split_and!; [done|done|].
    intros i' j'. rewrite Hc, (cget_cset _ _ _ _ _ _ _ Hb1).
    destruct (decide ((i', j') ∈ ps)), (decide ((i', j') = (i, j))),
             (decide ((i', j') ∈ (i, j) :: ps)); set_solver.
Qed.

Lemma restart_spec g :
  shaped (board g) ->
  restart_game g = Some (mkGui new_cboard cX (counter g) (space_sum g) (game_count g) false).
Proof.
  intros Hs. unfold restart_game.
  destruct (clear_cells all_positions (board g) Hs) as (b' & -> & Hs' & Hc).
  { apply Forall_forall. intros [i j] Hin%elem_of_all_positions. done. }
  cbn. do 2 f_equal. apply cboard_ext; [done|apply shaped_new_cboard|]. intros i j Hi Hj.
  rewrite Hc, decide_True by (by apply elem_of_all_positions).
  destruct i as [|[|[|i]]]; try lia; destruct j as [|[|[|j]]]; try lia; reflexivity.
Qed.

Lemma new_state_inv n s gc : gui_inv (mkGui new_cboard cX n s gc false).
Proof. split; [apply shaped_new_cboard|]. intros _. split_and!; reflexivity. Qed.

Lemma gui_step_inv g g' : gui_inv g -> gui_step g g' -> gui_inv g'.
Proof.
  intros Hinv Hstep. destruct Hstep as [g row col corner shuffle g' Hl Hr Hc Hsh Hm|g g' Hr].
  - destruct (human_click shuffle g row col Hinv Hl Hr Hc Hsh) as (g'' & Hinv' & Hall).
    rewrite Hall in Hm. by injection Hm as <-.
  - rewrite restart_spec in Hr by apply Hinv. injection Hr as <-. apply new_state_inv.
Qed.

Lemma gui_steps_inv g g' : rtc gui_step g g' -> gui_inv g -> gui_inv g'.
Proof. induction 1 as [|x y z Hxy Hyz IH]; [done|]. intros Hx. apply IH, (gui_step_inv x); done. Qed.

Lemma gui_reachable_gui_inv g : gui_reachable g -> gui_inv g.
Proof. intros Hr. apply (gui_steps_inv new_gui); [done|apply (new_state_inv 0 0 0)]. Qed.

(** C7: In every state of the game that the clicks and the 'r' key can
    reach, while the buttons are enabled ['X'] is to play, no line is
    complete and some square is empty: the buttons are disabled as soon
    as a game is won or drawn. *)
Theorem gui_reachable_inv g :
  gui_reachable g ->
  shaped (board g) /\
  (locked g = false -> current_player g = cX /\ check_winner (board g) cX = false /\
                       check_winner (board g) cO = false /\ check_draw (board g) = false).
Proof. apply gui_reachable_gui_inv. Qed.

(** C31: a click on an enabled square of a reachable state never raises:
    the computer always finds a square ([bfs_move] does not return
    [None] and the [row, col] unpacking succeeds), and the recursion of
    [make_move] and [computer_move] ends within two calls. *)
Theorem click_total g row col corner shuffle :
  gui_reachable g -> locked g = false -> row < 3 -> col < 3 -> (forall l, shuffle l ≡ₚ l) ->
  exists g', make_move 2 corner shuffle g row col = Some g' /\ gui_reachable g'.
Proof.
  intros Hr Hl Hrow Hcol Hsh.
  destruct (human_click shuffle g row col (gui_reachable_gui_inv g Hr) Hl Hrow Hcol Hsh) as (g' & _ & Hm).
  exists g'. split; [apply Hm|]. eapply rtc_r; [exact Hr|]. exact (step_click g row col corner shuffle g' Hl Hrow Hcol Hsh (Hm corner)).
Qed.

(** C32: the random corner of [computer_move] is never used: the
    computer only moves after a cross, so the board is never empty when
    it does, and the result of a click does not depend on
    [random.choice]. *)
Theorem corner_unused g row col corner1 corner2 shuffle :
  gui_reachable g -> locked g = false -> row < 3 -> col < 3 -> (forall l, shuffle l ≡ₚ l) ->
  make_move 2 corner1 shuffle g row col = make_move 2 corner2 shuffle g row col.
Proof.
  intros Hr Hl Hrow Hcol Hsh.
  destruct (human_click shuffle g row col (gui_reachable_gui_inv g Hr) Hl Hrow Hcol Hsh) as (g' & _ & Hm).
  by rewrite !Hm.
Qed.

End BFSearchFacts.

Module BFSearchExamples.
Import CharBoard BFSearch BFSearchFacts.

(** Crosses threaten row 0; circles to move. *)
Definition threat : cboard :=
  [["X"; "X"; " "]; ["O"; " "; " "]; [" "; " "; " "]]%char.

Lemma threat_shaped : shaped threat.
Proof. split; [reflexivity|repeat constructor]. Qed.

(** With the squares in the order of the comprehension, circles block
    the row at (0, 2) after 7 trial marks: six for its own wins, one to find the block. *)
Lemma threat_block : bfs_move id cO (mkB threat 0) = Some (Some (0, 2), mkB threat 7).
Proof. vm_compute. reflexivity. Qed.

Lemma bfs_move_spec_witness :
  exists k : nat, bfs_move id cO (mkB threat 0) = Some (bfs_spec id threat cO, mkB threat (0 + Z.of_nat k)) /\
                  k <= 3 * length (get_empty_positions threat).
Proof. apply (bfs_move_spec id cO threat 0); [exact threat_shaped|intros l; reflexivity]. Defined.

Lemma gui_reachable_inv_witness :
  shaped (board new_gui) /\
  (locked new_gui = false -> current_player new_gui = cX /\ check_winner (board new_gui) cX = false /\
                             check_winner (board new_gui) cO = false /\ check_draw (board new_gui) = false).
Proof. apply (gui_reachable_inv new_gui). apply rtc_refl. Defined.

Lemma click_total_witness :
  exists g', make_move 2 0 id new_gui 1 1 = Some g' /\ gui_reachable g'.
Proof. apply (click_total new_gui 1 1 0 id); [apply rtc_refl|reflexivity|lia|lia|intros l; reflexivity]. Defined.

Lemma corner_unused_witness : make_move 2 0 id new_gui 1 1 = make_move 2 3 id new_gui 1 1.
Proof. apply (corner_unused new_gui 1 1 0 3 id); [apply rtc_refl|reflexivity|lia|lia|intros l; reflexivity]. Defined.

End BFSearchExamples.
