(* ===== verification/Reduction.v ===== *)
(** * The search of [additional cose/heuristic reduction.py]

    [minimax(board, depth, maximizing_player, alpha, beta, player,
    counter)] (lines 41-74) is an alpha-beta search over the character
    board of [CharBoard.v]: it counts every call in the shared list
    [counter], returns -1 when ['X'] has a line, 1 when ['O'] has one, 0 on
    a full board, and otherwise marks each empty square with [player] in
    place, recurses with the other player, and undoes the mark.  Its
    [depth] argument is decremented but never tested, so the search always
    runs to the end of the game, although [find_best_move] (lines 76-90)
    calls it with [depth = 2].  The tkinter class (lines 92-161) is
    modelled in [ReductionGUI.v].

    [ReductionFacts] proves termination, that the depth is irrelevant,
    and, against the exhaustive value [red_value], that the cuts are
    sound: the search is fail-soft in every window (through the generic
    loops of [Prelude.v]), exact in the full window, and
    [find_best_move] keeps the first square of greatest value.

    The state the search mutates is [BFSearch.bstate] (the board and
    [counter[0]]); values are extended numbers because [max_eval] and
    [min_eval] start at [float('-inf')] and [float('inf')]. *)

From Stdlib Require Import Ascii ZArith Lia.
From stdpp Require Import base list strings options.
From S2P Require Import Prelude CharBoard BFSearch.

Module Reduction.
Import CharBoard BFSearch.

(** The helpers of [heuristic reduction.py] (lines 25-39) are those of
    [BF_Search.py] word for word: the functions of [CharBoard]. *)
Definition r_check_winner : cboard -> ascii -> bool := check_winner.
Definition r_check_draw : cboard -> bool := check_draw.
Definition r_get_empty_positions : cboard -> list pos := get_empty_positions.

(** The loop of the maximizing branch: [max_eval = max(max_eval, eval);
    alpha = max(alpha, eval); if beta <= alpha: break]. *)
Fixpoint red_max_loop (ev : ext -> ext -> pos -> St bstate ext) (l : list pos)
    (alpha beta max_eval : ext) : St bstate ext :=
  match l with
  | [] => st_ret max_eval
  | ij :: l' =>
      e <- ev alpha beta ij ;;
      let max_eval' := ext_max max_eval e in
      let alpha' := ext_max alpha e in
      if ext_le beta alpha' then st_ret max_eval'
      else red_max_loop ev l' alpha' beta max_eval'
  end.

(** The loop of the minimizing branch, with [min] and [beta]. *)
Fixpoint red_min_loop (ev : ext -> ext -> pos -> St bstate ext) (l : list pos)
    (alpha beta min_eval : ext) : St bstate ext :=
  match l with
  | [] => st_ret min_eval
  | ij :: l' =>
      e <- ev alpha beta ij ;;
      let min_eval' := ext_min min_eval e in
      let beta' := ext_min beta e in
      if ext_le beta' alpha then st_ret min_eval'
      else red_min_loop ev l' alpha beta' min_eval'
  end.

(** [minimax]: count the call, test the end of the game, then try every
    empty square with [player]'s mark and undo it.  [fuel] bounds the
    recursion (one more than the empty squares is enough:
    [ReductionFacts.red_minimax_total]). *)
Fixpoint minimax (fuel : nat) (depth : Z) (maximizing_player : bool) (alpha beta : ext)
    (player : ascii) : St bstate ext :=
  match fuel with
  | O => st_fail
  | S fuel' =>
      tick ;;;
      b <- get_board ;;
      if check_winner b cX then st_ret (Fin (-1))
      else if check_winner b cO then st_ret (Fin 1)
      else if check_draw b then st_ret (Fin 0)
      else
        let child mx alpha beta (ij : pos) :=
          put_sq ij.1 ij.2 player ;;;
          e <- minimax fuel' (depth - 1) mx alpha beta (opponent player) ;;
          put_sq ij.1 ij.2 blank ;;;
          st_ret e in
        if maximizing_player
        then red_max_loop (child false) (get_empty_positions b) alpha beta NegInf
        else red_min_loop (child true) (get_empty_positions b) alpha beta PosInf
  end.

(** The loop of [find_best_move]: each square is searched from the full
    window with [depth = 2] and the opponent to move; a strictly greater
    value replaces the best. *)
Fixpoint best_move_loop (fuel : nat) (player : ascii) (l : list pos) (best_val : ext)
    (best_move : option pos) : St bstate (option pos) :=
  match l with
  | [] => st_ret best_move
  | (i, j) :: l' =>
      put_sq i j player ;;;
      move_val <- minimax fuel 2 false NegInf PosInf (opponent player) ;;
      put_sq i j blank ;;;
      if ext_lt best_val move_val then best_move_loop fuel player l' move_val (Some (i, j))
      else best_move_loop fuel player l' best_val best_move
  end.

(** [find_best_move(board, player, counter)], with the fuel of the
    searches below it. *)
Definition find_best_move (fuel : nat) (player : ascii) : St bstate (option pos) :=
  b <- get_board ;;
  best_move_loop fuel player (get_empty_positions b) NegInf None.

End Reduction.

Module ReductionFacts.
Import CharBoard BFSearch BFSearchFacts Reduction.

Lemma red_max_loop_ext ev1 ev2 l alpha beta M s :
  (forall a bt ij s, ev1 a bt ij s = ev2 a bt ij s) ->
  red_max_loop ev1 l alpha beta M s = red_max_loop ev2 l alpha beta M s.
Proof.
  intros H. revert alpha M s. induction l as [|ij l IH]; intros alpha M s; cbn; [done|].
  unfold st_bind. rewrite H. destruct (ev2 _ _ _ _) as [[e s']|]; [|done].
  destruct (ext_le _ _); [done|apply IH].
Qed.

Lemma red_min_loop_ext ev1 ev2 l alpha beta M s :
  (forall a bt ij s, ev1 a bt ij s = ev2 a bt ij s) ->
  red_min_loop ev1 l alpha beta M s = red_min_loop ev2 l alpha beta M s.
Proof.
  intros H. revert beta M s. induction l as [|ij l IH]; intros beta M s; cbn; [done|].
  unfold st_bind. rewrite H. destruct (ev2 _ _ _ _) as [[e s']|]; [|done].
  destruct (ext_le _ _); [done|apply IH].
Qed.

(** C33: the [depth] argument of [minimax] has no effect: the function
    decrements it and never reads it, so [find_best_move]'s [depth = 2]
    does not limit the search, which always runs to the end of the game. *)
Theorem minimax_depth_irrelevant fuel d1 d2 mx alpha beta p s :
  minimax fuel d1 mx alpha beta p s = minimax fuel d2 mx alpha beta p s.
Proof.
  revert d1 d2 mx alpha beta p s. induction fuel as [|f IH]; intros d1 d2 mx alpha beta p s; [done|].
  cbn [minimax]. unfold st_bind. cbn [tick st_modify get_board bboard].
  destruct (check_winner (bboard s) cX); [done|]. destruct (check_winner (bboard s) cO); [done|].
  destruct (check_draw (bboard s)); [done|].
  destruct mx; [apply red_max_loop_ext|apply red_min_loop_ext]; intros a bt ij s';
    destruct (put_sq _ _ _ s') as [[[] s1]|]; try done;
    by rewrite (IH (d1 - 1)%Z (d2 - 1)%Z).
Qed.

Section Loops.
  Variable b : cboard.
  Variable ev : ext -> ext -> pos -> St bstate ext.

  (** Every child search returns a value in range and gives the board
      back. *)
Definition child_ok (l : list pos) : Prop :=
    forall ij, ij ∈ l -> forall a bt n', exists e k,
      ev a bt ij (mkB b n') = Some (e, mkB b (n' + Z.of_nat k)) /\ in_range e.

Lemma red_max_loop_total l alpha beta M n :
  child_ok l -> M = NegInf \/ in_range M ->
  exists r k, red_max_loop ev l alpha beta M (mkB b n) = Some (r, mkB b (n + Z.of_nat k)) /\
              (in_range r \/ (r = M /\ l = [])).
Proof.
  revert alpha M n. induction l as [|ij l IH]; intros alpha M n Hl HM.
  - exists M, 0. split; [cbn; by rewrite Z.add_0_r|by right].
  - destruct (Hl ij (list_elem_of_here _ _) alpha beta n) as (e & k & He & Hr).
    pose proof (max_in_range M e HM Hr) as HM'.
    cbn. unfold st_bind. rewrite He.
    destruct (ext_le _ _).
    + exists (ext_max M e), k. split; [done|by left].
    + destruct (IH (ext_max alpha e) (ext_max M e) (n + Z.of_nat k)%Z) as (r & k' & Hk' & Hr');
        [intros ij' Hij'; apply Hl; by right|by right|].
      exists r, (k + k'). rewrite Hk'. split; [do 3 f_equal; lia|].
      destruct Hr' as [|[-> _]]; by left.
Qed.

Lemma red_min_loop_total l alpha beta M n :
  child_ok l -> M = PosInf \/ in_range M ->
  exists r k, red_min_loop ev l alpha beta M (mkB b n) = Some (r, mkB b (n + Z.of_nat k)) /\
              (in_range r \/ (r = M /\ l = [])).
Proof.
  revert beta M n. induction l as [|ij l IH]; intros beta M n Hl HM.
  - exists M, 0. split; [cbn; by rewrite Z.add_0_r|by right].
  - destruct (Hl ij (list_elem_of_here _ _) alpha beta n) as (e & k & He & Hr).
    pose proof (min_in_range M e HM Hr) as HM'.
    cbn. unfold st_bind. rewrite He.
    destruct (ext_le _ _).
    + exists (ext_min M e), k. split; [done|by left].
    + destruct (IH (ext_min beta e) (ext_min M e) (n + Z.of_nat k)%Z) as (r & k' & Hk' & Hr');
        [intros ij' Hij'; apply Hl; by right|by right|].
      exists r, (k + k'). rewrite Hk'. split; [do 3 f_equal; lia|].
      destruct Hr' as [|[-> _]]; by left.
Qed.

End Loops.

Lemma opponent_not_blank p : opponent p <> blank.
Proof. unfold opponent. by case_bool_decide. Qed.

(** [minimax] at fuel [f] returns a value in range, gives the board
    back and counts at least its own call. *)
Definition total_at (f : nat) : Prop :=
  forall d mx alpha beta p b n, p <> blank -> shaped b -> length (get_empty_positions b) < f ->
  exists z k, minimax f d mx alpha beta p (mkB b n) = Some (Fin z, mkB b (n + Z.of_nat k)) /\
              (-1 <= z <= 1)%Z /\ 1 <= k.

Lemma child_total f d mx p b :
  total_at f -> p <> blank -> shaped b -> length (get_empty_positions b) <= f ->
  child_ok b (fun alpha beta ij =>
                put_sq ij.1 ij.2 p ;;;
                e <- minimax f (d - 1) mx alpha beta (opponent p) ;;
                put_sq ij.1 ij.2 blank ;;; st_ret e) (get_empty_positions b).
Proof.
  intros IH Hp Hs Hf [i j] Hij a bt n'.
  destruct (trial b i j p n' n' Hs Hij) as (b1 & Hb1 & Hm & _).
  assert (shaped b1) as Hs1 by
    (destruct (proj1 (elem_of_get_empty_positions b i j) Hij) as (Hi & Hj & _);
     destruct (cset_in_range b i j p Hs Hi Hj) as (b2 & Hb2 & ?); congruence).
  pose proof (length_empty_cset b i j p b1 Hp Hij Hb1) as Hlen.
  destruct (IH (d - 1)%Z mx a bt (opponent p) b1 n' (opponent_not_blank p) Hs1 ltac:(lia))
    as (z & k & Hk & Hz & _).
  destruct (trial b i j p n' (n' + Z.of_nat k) Hs Hij) as (b2 & Hb2 & _ & Hu).
  rewrite Hb1 in Hb2. injection Hb2 as <-.
  exists (Fin z), k. cbn [fst snd]. unfold st_bind. rewrite Hm, Hk, Hu.
  split; [done|by exists z].
Qed.

Lemma minimax_total_gen f : total_at f.
Proof.
  induction f as [|f IH]; intros d mx alpha beta p b n Hp Hs Hf; [lia|].
  cbn [minimax]. rewrite (st_bind_ret _ _ _ tt (mkB b (n + 1))) by reflexivity.
  rewrite (st_bind_ret _ _ _ b (mkB b (n + 1))) by reflexivity.
  destruct (check_winner b cX).
  { exists (-1)%Z, 1. split_and!; [unfold st_ret; do 3 f_equal; lia|lia|lia|lia]. }
  destruct (check_winner b cO).
  { exists 1%Z, 1. split_and!; [unfold st_ret; do 3 f_equal; lia|lia|lia|lia]. }
  destruct (check_draw b) eqn:Hd.
  { exists 0%Z, 1. split_and!; [unfold st_ret; do 3 f_equal; lia|lia|lia|lia]. }
  assert (get_empty_positions b <> []) as Hne by (intros E; apply check_draw_empty in E; congruence).
  destruct mx.
  - destruct (red_max_loop_total b _ (get_empty_positions b) alpha beta NegInf (n + 1)
                (child_total f d false p b IH Hp Hs ltac:(lia)) (or_introl eq_refl))
      as (r & k & Hk & [(z & -> & Hz)|[_ ?]]); [|done].
    exists z, (S k). rewrite Hk. split_and!; [do 3 f_equal; lia|lia|lia|lia].
  - destruct (red_min_loop_total b _ (get_empty_positions b) alpha beta PosInf (n + 1)
                (child_total f d true p b IH Hp Hs ltac:(lia)) (or_introl eq_refl))
      as (r & k & Hk & [(z & -> & Hz)|[_ ?]]); [|done].
    exists z, (S k). rewrite Hk. split_and!; [do 3 f_equal; lia|lia|lia|lia].
Qed.

Lemma best_move_loop_total fuel p b l best bm n :
  p <> blank -> shaped b -> length (get_empty_positions b) <= fuel ->
  (forall ij, ij ∈ l -> ij ∈ get_empty_positions b) ->
  exists r k, best_move_loop fuel p l best bm (mkB b n) = Some (r, mkB b (n + Z.of_nat k)) /\
    ((r = bm /\ (l = [] \/ best <> NegInf)) \/ exists ij, r = Some ij /\ ij ∈ l).
Proof.
  intros Hp Hs Hf. revert best bm n. induction l as [|[i j] l IH]; intros best bm n Hl.
  - exists bm, 0. split; [cbn; by rewrite Z.add_0_r|left; auto].
  - assert ((i, j) ∈ get_empty_positions b) as Hij by (apply Hl; left).
    destruct (trial b i j p n n Hs Hij) as (b1 & Hb1 & Hm & _).
    assert (shaped b1) as Hs1 by
      (destruct (proj1 (elem_of_get_empty_positions b i j) Hij) as (Hi & Hj & _);
       destruct (cset_in_range b i j p Hs Hi Hj) as (b2 & Hb2 & ?); congruence).
    pose proof (length_empty_cset b i j p b1 Hp Hij Hb1) as Hlen.
    destruct (minimax_total_gen fuel 2%Z false NegInf PosInf (opponent p) b1 n
                (opponent_not_blank p) Hs1 ltac:(lia)) as (z & k & Hk & _).
    destruct (trial b i j p n (n + Z.of_nat k) Hs Hij) as (b2 & Hb2 & _ & Hu).
    rewrite Hb1 in Hb2. injection Hb2 as <-.
    cbn [best_move_loop]. unfold st_bind. rewrite Hm, Hk, Hu.
    assert (forall ij, ij ∈ l -> ij ∈ get_empty_positions b) as Hl' by (intros; apply Hl; by right).
    destruct (ext_lt best (Fin z)) eqn:Hlt.
    + destruct (IH (Fin z) (Some (i, j)) (n + Z.of_nat k)%Z Hl') as (r & k' & Hk' & Hr).
      exists r, (k + k'). rewrite Hk'. split; [do 3 f_equal; lia|right].
      destruct Hr as [[-> _]|(ij & -> & Hin)]; eexists; split; [done|left|done|by right].
    + destruct (IH best bm (n + Z.of_nat k)%Z Hl') as (r & k' & Hk' & Hr).
      exists r, (k + k'). rewrite Hk'. split; [do 3 f_equal; lia|].
      destruct Hr as [[-> _]|(ij & -> & Hin)]; [left; split; [done|right]|right; eexists; split; [done|by right]].
      intros ->. done.
Qed.

(** ** The pruned search against the exhaustive game value *)

(** One trial on an empty square of a 3x3 board: the mark succeeds on a
    3x3 board with one empty square less, and the undo gives the board
    back, whatever the counter. *)
Lemma red_trial b i j p :
  p <> blank -> shaped b -> (i, j) ∈ get_empty_positions b ->
  exists b1, cset b i j p = Some b1 /\ shaped b1 /\
    length (get_empty_positions b) = S (length (get_empty_positions b1)) /\
    forall n m, put_sq i j p (mkB b n) = Some (tt, mkB b1 n) /\
                put_sq i j blank (mkB b1 m) = Some (tt, mkB b m).
Proof.
  intros Hp Hs Hij. destruct (trial b i j p 0 0 Hs Hij) as (b1 & Hb1 & _).
  pose proof Hij as (Hi & Hj & _)%elem_of_get_empty_positions.
  exists b1. split_and!; [done| |by apply (length_empty_cset b i j p b1 Hp Hij Hb1)|].
  - destruct (cset_in_range b i j p Hs Hi Hj) as (b2 & Hb2 & ?). congruence.
  - intros n m. destruct (trial b i j p n m Hs Hij) as (b2 & Hb2 & Hm & Hu).
    rewrite Hb1 in Hb2. injection Hb2 as <-. done.
Qed.

(** The exhaustive value of [minimax(board, depth, maximizing_player,
    alpha, beta, player, counter)] without the cuts: the same terminal
    tests, then the greatest or least value of the children, where
    [player] marks the square and the opponent plays next. *)
Fixpoint red_value (fuel : nat) (b : cboard) (mx : bool) (p : ascii) : ext :=
  match fuel with
  | O => Fin 0
  | S f =>
      if check_winner b cX then Fin (-1)
      else if check_winner b cO then Fin 1
      else if check_draw b then Fin 0
      else
        let child ij := match cset b ij.1 ij.2 p with
                        | Some b' => red_value f b' (negb mx) (opponent p)
                        | None => Fin 0
                        end in
        if mx then foldl (fun M ij => ext_max M (child ij)) NegInf (get_empty_positions b)
        else foldl (fun M ij => ext_min M (child ij)) PosInf (get_empty_positions b)
  end.

(** The value of the board after [p] marks [ij], the opponent to move. *)
Definition red_after (f : nat) (b : cboard) (mx : bool) (p : ascii) (ij : pos) : ext :=
  match cset b ij.1 ij.2 p with Some b' => red_value f b' mx (opponent p) | None => Fin 0 end.

(** [red_max_loop] and [red_min_loop] move [alpha] ([beta]) by the value
    of the child. *)
Lemma red_max_loop_fs ev l alpha beta M s :
  red_max_loop ev l alpha beta M s = fs_max_loop ev (fun a _ e => ext_max a e) l alpha beta M s.
Proof.
  revert alpha M s. induction l as [|ij l IH]; intros alpha M s; [done|]. cbn. unfold st_bind.
  destruct (ev _ _ _ _) as [[e s1]|]; [|done]. destruct (ext_le _ _); [done|apply IH].
Qed.

Lemma red_min_loop_fs ev l alpha beta M s :
  red_min_loop ev l alpha beta M s = fs_min_loop ev (fun b _ e => ext_min b e) l alpha beta M s.
Proof.
  revert beta M s. induction l as [|ij l IH]; intros beta M s; [done|]. cbn. unfold st_bind.
  destruct (ev _ _ _ _) as [[e s1]|]; [|done]. destruct (ext_le _ _); [done|apply IH].
Qed.

(** [minimax] at fuel [f], when it returns, gives the board back and is
    fail-soft with respect to [red_value f]. *)
Definition rsound_at (f : nat) : Prop :=
  forall d mx alpha beta p b n r s', p <> blank -> shaped b ->
  minimax f d mx alpha beta p (mkB b n) = Some (r, s') -> ext_ltP alpha beta ->
  bboard s' = b /\ failsoft_ext alpha beta (red_value f b mx p) r.

Lemma rchild_sound f d mx p b :
  rsound_at f -> p <> blank -> shaped b ->
  child_sound bboard b (fun alpha beta ij =>
                          put_sq ij.1 ij.2 p ;;;
                          e <- minimax f (d - 1) mx alpha beta (opponent p) ;;
                          put_sq ij.1 ij.2 blank ;;; st_ret e)
    (red_after f b mx p) (get_empty_positions b).
Proof.
  intros IH Hp Hs [i j] Hij a bt [b0 n] e s' Hb0 Hrun Hlt. cbn in Hb0. subst b0.
  destruct (red_trial b i j p Hp Hs Hij) as (b1 & Hb1 & Hs1 & _ & Ht).
  destruct (Ht n n) as [Hm _]. unfold red_after. cbn [fst snd] in *. rewrite Hb1.
  unfold st_bind in Hrun. rewrite Hm in Hrun.
  destruct (minimax f (d - 1) mx a bt (opponent p) (mkB b1 n)) as [[e1 [b2 n2]]|] eqn:Hk;
    [|discriminate].
  destruct (IH _ _ _ _ _ _ _ _ _ (opponent_not_blank p) Hs1 Hk Hlt) as [Hb2 Hv]. cbn in Hb2. subst.
  destruct (Ht n n2) as [_ Hu]. rewrite Hu in Hrun. by injection Hrun as <- <-.
Qed.

Lemma rsound_gen f : rsound_at f.
Proof.
  induction f as [|f IH]; intros d mx alpha beta p b n r s' Hp Hs Hrun Hlt; [discriminate|].
  cbn [minimax] in Hrun. rewrite (st_bind_ret _ _ _ tt (mkB b (n + 1))) in Hrun by reflexivity.
  rewrite (st_bind_ret _ _ _ b (mkB b (n + 1))) in Hrun by reflexivity.
  cbn [red_value].
  destruct (check_winner b cX); [injection Hrun as <- <-; split; [done|apply failsoft_ext_refl]|].
  destruct (check_winner b cO); [injection Hrun as <- <-; split; [done|apply failsoft_ext_refl]|].
  destruct (check_draw b); [injection Hrun as <- <-; split; [done|apply failsoft_ext_refl]|].
  destruct mx; [rewrite red_max_loop_fs in Hrun|rewrite red_min_loop_fs in Hrun].
  - eapply (fs_max_loop_sound bboard b); [apply max_upd_ok_child|by apply rchild_sound| |
      apply ext_leP_refl|apply ext_leP_max_r, ext_leP_refl|done|apply failsoft_ext_refl|exact Hrun];
      done.
  - eapply (fs_min_loop_sound bboard b); [apply min_upd_ok_child|by apply rchild_sound| |
      apply ext_leP_refl|apply ext_min_leP_r, ext_leP_refl|done|apply failsoft_ext_refl|exact Hrun];
      done.
Qed.

(** With one call of fuel more than the empty squares the exhaustive
    value is a number between -1 and 1, and more fuel does not change it. *)
Lemma red_value_in_range f b mx p :
  p <> blank -> shaped b -> length (get_empty_positions b) < f -> in_range (red_value f b mx p).
Proof.
  revert b mx p. induction f as [|f IH]; intros b mx p Hp Hs Hf; [lia|]. cbn [red_value].
  destruct (check_winner b cX); [exists (-1)%Z; split; [done|lia]|].
  destruct (check_winner b cO); [exists 1%Z; split; [done|lia]|].
  destruct (check_draw b) eqn:Hd; [exists 0%Z; split; [done|lia]|].
  assert (get_empty_positions b <> []) as Hne by (intros E; apply check_draw_empty in E; congruence).
  destruct mx; [apply foldl_max_in_range|apply foldl_min_in_range]; try by left.
  all: intros [i j] Hij; destruct (red_trial b i j p Hp Hs Hij) as (b1 & Hb1 & Hs1 & Hlen & _);
    cbn [fst snd]; rewrite Hb1; apply IH; first [apply opponent_not_blank|done|lia].
Qed.

Lemma red_value_stable f f' b mx p :
  p <> blank -> shaped b -> length (get_empty_positions b) < f -> length (get_empty_positions b) < f' ->
  red_value f b mx p = red_value f' b mx p.
Proof.
  revert f' b mx p. induction f as [|f IH]; intros [|f'] b mx p Hp Hs Hf Hf'; try lia.
  cbn [red_value]. destruct (check_winner b cX), (check_winner b cO), (check_draw b); try done.
  destruct mx; apply foldl_ext_in; intros [i j] acc Hij;
    destruct (red_trial b i j p Hp Hs Hij) as (b1 & Hb1 & Hs1 & Hlen & _);
    cbn [fst snd]; rewrite Hb1, (IH f' b1); first [done|apply opponent_not_blank|lia].
Qed.

(** The game value of a board: [red_value] with enough fuel. *)
Definition red_game_value (b : cboard) (mx : bool) (p : ascii) : ext :=
  red_value (S (length (get_empty_positions b))) b mx p.

(** The game value after [p] marks [ij], the opponent to move and
    minimizing, as [find_best_move] searches it. *)
Definition red_game_after (b : cboard) (p : ascii) (ij : pos) : ext :=
  match cset b ij.1 ij.2 p with Some b' => red_game_value b' false (opponent p) | None => Fin 0 end.

(** The loop of [find_best_move] keeps the first square of greatest
    exhaustive value: each child is searched in the full window. *)
Lemma best_move_loop_sound fuel p b l best bm n r s' :
  p <> blank -> shaped b -> (forall ij, ij ∈ l -> ij ∈ get_empty_positions b) ->
  (forall ij, ij ∈ l -> in_range (red_after fuel b false p ij)) ->
  best_move_loop fuel p l best bm (mkB b n) = Some (r, s') ->
  r = argmax_loop (fun ij => zval (red_after fuel b false p ij)) l best bm.
Proof.
  intros Hp Hs. revert best bm n.
  induction l as [|[i j] l IH]; intros best bm n Hl Hv Hrun; [by injection Hrun|].
  destruct (red_trial b i j p Hp Hs (Hl _ (list_elem_of_here _ _))) as (b1 & Hb1 & Hs1 & _ & Ht).
  destruct (Ht n n) as [Hm _]. cbn [best_move_loop argmax_loop] in *.
  unfold st_bind in Hrun. rewrite Hm in Hrun.
  destruct (minimax fuel 2 false NegInf PosInf (opponent p) (mkB b1 n)) as [[v [b2 n2]]|] eqn:Hk;
    [|discriminate].
  destruct (rsound_gen _ _ _ _ _ _ _ _ _ _ (opponent_not_blank p) Hs1 Hk) as [Hb2 Hfs];
    [unfold ext_ltP; cbn; tauto|]. cbn in Hb2. subst.
  apply failsoft_ext_full in Hfs. destruct (Ht n n2) as [_ Hu]. rewrite Hu in Hrun.
  destruct (Hv (i, j) (list_elem_of_here _ _)) as (z & Hz & _).
  unfold red_after in Hz |- *. cbn [fst snd] in Hz |- *. rewrite Hb1 in Hz |- *. rewrite Hz in Hfs |- *.
  subst v. cbn [zval].
  assert (forall ij, ij ∈ l -> ij ∈ get_empty_positions b) as Hl' by (intros; apply Hl; by right).
  assert (forall ij, ij ∈ l -> in_range (red_after fuel b false p ij)) as Hv'
    by (intros; apply Hv; by right).
  destruct (ext_lt best (Fin z)); exact (IH _ _ _ Hl' Hv' Hrun).
Qed.

(** [find_best_move] against [first_best] of the game values; see
    [find_best_move_best] below. *)
Lemma find_best_move_correct fuel p b n :
  p <> blank -> shaped b -> check_draw b = false -> length (get_empty_positions b) <= fuel ->
  exists k, find_best_move fuel p (mkB b n) =
    Some (first_best (fun ij => zval (red_game_after b p ij)) (get_empty_positions b),
          mkB b (n + Z.of_nat k)).
Proof.
  intros Hp Hs Hd Hf. unfold find_best_move. rewrite (st_bind_ret _ _ _ b (mkB b n)) by reflexivity.
  destruct (best_move_loop_total fuel p b (get_empty_positions b) NegInf None n Hp Hs Hf)
    as (r & k & Hk & _); [done|].
  exists k. rewrite Hk. do 2 f_equal.
  assert (forall i j, (i, j) ∈ get_empty_positions b -> forall b1, cset b i j p = Some b1 ->
            shaped b1 /\ length (get_empty_positions b1) < fuel) as Hc.
  { intros i j Hij b1 Hb1. destruct (red_trial b i j p Hp Hs Hij) as (b2 & Hb2 & Hs2 & Hlen & _).
    rewrite Hb1 in Hb2. injection Hb2 as <-. split; [done|lia]. }
  erewrite (best_move_loop_sound fuel p b _ NegInf None n r); [|done|done|done| |exact Hk].
  - rewrite argmax_loop_first_best. apply first_best_ext_in. intros [i j] Hij.
    unfold red_after, red_game_after, red_game_value. cbn [fst snd].
    destruct (cset b i j p) as [b1|] eqn:Hb1; [|done]. destruct (Hc i j Hij b1 Hb1).
    f_equal. apply red_value_stable; [apply opponent_not_blank|done|done|lia].
  - intros [i j] Hij. unfold red_after. cbn [fst snd].
    destruct (cset b i j p) as [b1|] eqn:Hb1; [|by exists 0%Z; split; [|lia]].
    destruct (Hc i j Hij b1 Hb1). apply red_value_in_range; [apply opponent_not_blank|done|done].
Qed.

(** [minimax] terminates with the fuel of one call per empty square
    and one more, returns -1, 0 or 1 or a value between, leaves the board
    as it found it (each trial mark is undone), and counts its own call in
    [counter[0]]. *)
Theorem red_minimax_total fuel d mx alpha beta p b n :
  p <> blank -> shaped b -> length (get_empty_positions b) < fuel ->
  exists z k, minimax fuel d mx alpha beta p (mkB b n) = Some (Fin z, mkB b (n + Z.of_nat k)) /\
              (-1 <= z <= 1)%Z /\ 1 <= k.
Proof. apply minimax_total_gen. Qed.

(** On a 3x3 board that is not full, [find_best_move] returns an
    empty square: the searches below it all terminate with the fuel
    [length (get_empty_positions board)], the board is left unchanged
    (every trial mark is undone) and the counter only grows. *)
Theorem find_best_move_total fuel p b n :
  p <> blank -> shaped b -> check_draw b = false -> length (get_empty_positions b) <= fuel ->
  exists ij k, find_best_move fuel p (mkB b n) = Some (Some ij, mkB b (n + Z.of_nat k)) /\
               ij ∈ get_empty_positions b.
Proof.
  intros Hp Hs Hd Hf. unfold find_best_move. rewrite (st_bind_ret _ _ _ b (mkB b n)) by reflexivity.
  assert (get_empty_positions b <> []) as Hne by (intros E; apply check_draw_empty in E; congruence).
  destruct (best_move_loop_total fuel p b (get_empty_positions b) NegInf None n Hp Hs Hf)
    as (r & k & Hk & [[-> [?|?]]|(ij & -> & Hin)]); [done|done|done|].
  by exists ij, k.
Qed.

(** C13: [minimax] called as [find_best_move] calls it, from the full
    window [(-inf, +inf)], returns the exhaustive game value of the board
    (the cuts never change it) and gives the board back. *)
Theorem red_minimax_exact fuel d mx p b n :
  p <> blank -> shaped b -> length (get_empty_positions b) < fuel ->
  exists k, minimax fuel d mx NegInf PosInf p (mkB b n) = Some (red_game_value b mx p, mkB b (n + Z.of_nat k)).
Proof.
  intros Hp Hs Hf. destruct (minimax_total_gen fuel d mx NegInf PosInf p b n Hp Hs Hf) as (z & k & Hk & _).
  exists k. rewrite Hk. destruct (rsound_gen _ _ _ _ _ _ _ _ _ _ Hp Hs Hk) as [_ Hfs];
    [unfold ext_ltP; cbn; tauto|].
  apply failsoft_ext_full in Hfs. unfold red_game_value.
  rewrite Hfs, (red_value_stable (S (length (get_empty_positions b))) fuel b mx p); auto.
Qed.

(** C11: on a 3x3 board that is not full, [find_best_move] returns the
    first empty square, in the order of [get_empty_positions], whose game
    value after [player] marks it (the opponent to move) is the greatest. *)
Theorem find_best_move_best fuel p b n :
  p <> blank -> shaped b -> check_draw b = false -> length (get_empty_positions b) <= fuel ->
  exists k, find_best_move fuel p (mkB b n) =
    Some (first_best (fun ij => zval (red_game_after b p ij)) (get_empty_positions b),
          mkB b (n + Z.of_nat k)).
Proof. apply find_best_move_correct. Qed.

End ReductionFacts.

Module ReductionExamples.
Import CharBoard BFSearch Reduction ReductionFacts.

Definition centre : cboard := [[" "; " "; " "]; [" "; "X"; " "]; [" "; " "; " "]]%char.

Lemma centre_shaped : shaped centre.
Proof. split; [reflexivity|repeat constructor]. Qed.

(** After the cross takes the centre, [find_best_move] answers with
    the corner (0, 0) and counts 6138 calls of [minimax]: the whole game
    tree below the eight replies, where a search that stopped at [depth]
    0 after the two levels that [depth = 2] announces would make at most
    8 + 8 * 7 + 8 * 7 * 6 = 400 calls. *)
Theorem centre_full_search :
  find_best_move 9 cO (mkB centre 0) = Some (Some (0, 0), mkB centre 6138).
Proof. vm_compute. reflexivity. Qed.

Lemma red_minimax_total_witness :
  exists z k, minimax 9 2 false NegInf PosInf cX (mkB centre 0) = Some (Fin z, mkB centre (0 + Z.of_nat k)) /\
              (-1 <= z <= 1)%Z /\ 1 <= k.
Proof. apply (red_minimax_total 9 2 false NegInf PosInf cX centre 0); [done|exact centre_shaped|vm_compute; lia]. Defined.

Lemma find_best_move_total_witness :
  exists ij k, find_best_move 9 cO (mkB centre 0) = Some (Some ij, mkB centre (0 + Z.of_nat k)) /\
               ij ∈ get_empty_positions centre.
Proof.
  apply (find_best_move_total 9 cO centre 0); [done|exact centre_shaped|reflexivity|vm_compute; lia].
Defined.

Lemma red_minimax_exact_witness :
  exists k, minimax 9 2 false NegInf PosInf cX (mkB centre 0) =
            Some (red_game_value centre false cX, mkB centre (0 + Z.of_nat k)).
Proof. apply (red_minimax_exact 9 2 false cX centre 0); [done|exact centre_shaped|vm_compute; lia]. Defined.

Lemma find_best_move_best_witness :
  exists k, find_best_move 9 cO (mkB centre 0) =
    Some (first_best (fun ij => zval (red_game_after centre cO ij)) (get_empty_positions centre),
          mkB centre (0 + Z.of_nat k)).
Proof.
  apply (find_best_move_best 9 cO centre 0); [done|exact centre_shaped|reflexivity|vm_compute; lia].
Defined.

End ReductionExamples.
