(* ===== verification/ReductionGUI.v ===== *)
(** * The tkinter game of [additional cose/heuristic reduction.py]

    [TicTacToeGUI] keeps [self.board] (a 3x3 list of lists of
    characters), [self.current_player] and [self.search_space_counter];
    a click on button [(i, j)] runs [make_move(i, j)], which marks the
    square, ends the game on a win or a draw (every button disabled), or
    hands the turn to ['O'], whose [computer_move] plays the square
    [find_best_move] returns.  The 'r' key runs [restart_game].

    [ReductionGUI] models the state as the record [rgui] (the disabled
    buttons as [rlocked]) and the handlers as [make_move],
    [computer_move_with] and [restart_game]; [rgui_step] is the event
    loop.  [ReductionGUIFacts] proves the invariant of the reachable
    states, that a click never raises, and that the computer's answer is
    the first square of greatest game value ([ReductionFacts]). *)

From Stdlib Require Import Ascii ZArith Lia.
From stdpp Require Import base list strings options relations.
From S2P Require Import Prelude CharBoard BFSearch Reduction.

Module ReductionGUI.
Import CharBoard BFSearch Reduction.

(** [self.board], [self.current_player], [self.search_space_counter[0]]
    and whether the buttons are disabled. *)
Record rgui := mkR { rboard : cboard; rcurrent : ascii; rcounter : Z; rlocked : bool }.

(** [TicTacToeGUI.__init__]: an empty board, ['X'] to play, [[0]]. *)
Definition new_rgui : rgui := mkR new_cboard cX 0 false.

(** [show_winner_message] (through [reset_game]) and [end_game]: every
    button disabled. *)
Definition end_game (g : rgui) : rgui := mkR (rboard g) (rcurrent g) (rcounter g) true.

(** The fuel of [find_best_move]'s searches: a 3x3 board has at most
    nine empty squares ([length_empty_le]). *)
Definition red_fuel : nat := 9.

(** [computer_move], given the [make_move] it calls: a random corner of
    [random.choice] on an empty board, else [find_best_move(self.board,
    self.current_player, self.search_space_counter)] on the shared board
    and counter; [row, col = None] raises [TypeError]. *)
Definition computer_move_with (mm : rgui -> nat -> nat -> option rgui) (corner : nat) (g : rgui)
    : option rgui :=
  if all_blank (rboard g) then
    match corners !! corner with Some (row, col) => mm g row col | None => None end
  else
    match find_best_move red_fuel (rcurrent g) (mkB (rboard g) (rcounter g)) with
    | Some (Some (row, col), s) => mm (mkR (bboard s) (rcurrent g) (bcounter s) (rlocked g)) row col
    | _ => None
    end.

(** [make_move(row, col)]: on an empty square, mark it with the current
    player; a win or a draw ends the game; otherwise switch players and
    let the computer answer when it is ['O']'s turn.  [make_move] and
    [computer_move] call each other; [fuel] bounds that recursion (2 is
    enough: [ReductionGUIFacts.red_click_total]). *)
Fixpoint make_move (fuel : nat) (corner : nat) (g : rgui) (row col : nat) : option rgui :=
  match fuel with
  | O => None
  | S fuel' =>
      if is_mark (rboard g) blank row col then
        match cset (rboard g) row col (rcurrent g) with
        | None => None
        | Some b' =>
            let g1 := mkR b' (rcurrent g) (rcounter g) (rlocked g) in
            if check_winner b' (rcurrent g) then Some (end_game g1)
            else if check_draw b' then Some (end_game g1)
            else
              let p := if bool_decide (rcurrent g = cO) then cX else cO in
              let g2 := mkR b' p (rcounter g) (rlocked g) in
              if bool_decide (p = cO) then computer_move_with (make_move fuel' corner) corner g2
              else Some g2
        end
      else Some g
  end.

(** [restart_game] ('r' key): [self.board[i][j] = ' '] for every square,
    every button enabled, ['X'] to play, [self.search_space_counter =
    [0]]. *)
Definition restart_game (g : rgui) : option rgui :=
  foldl (fun ob ij => ob ≫= fun b => cset b ij.1 ij.2 blank) (Some (rboard g)) all_positions
  ≫= fun b => Some (mkR b cX 0 false).

(** The tkinter event loop: a click on an enabled button (only buttons
    of the 3x3 grid exist) runs [make_move] with some corner of the
    random module; the 'r' key restarts. *)
Inductive rgui_step : rgui -> rgui -> Prop :=
  | rstep_click g row col corner g' :
      rlocked g = false -> row < 3 -> col < 3 ->
      make_move 2 corner g row col = Some g' -> rgui_step g g'
  | rstep_restart g g' : restart_game g = Some g' -> rgui_step g g'.

Definition rgui_reachable (g : rgui) : Prop := rtc rgui_step new_rgui g.

End ReductionGUI.

Module ReductionGUIFacts.
Import CharBoard BFSearch BFSearchFacts Reduction ReductionFacts ReductionGUI.

(** The computer's answer to a move that did not end the game: it plays
    the first square of greatest game value for ['O'], whatever the
    corner of [random.choice], and either ends the game or gives the
    turn back to ['X']. *)
Lemma red_computer_reply b n :
  shaped b -> all_blank b = false -> check_draw b = false ->
  exists ij b' k,
    first_best (fun ij => zval (red_game_after b cO ij)) (get_empty_positions b) = Some ij /\
    ij ∈ get_empty_positions b /\ cset b ij.1 ij.2 cO = Some b' /\ shaped b' /\
    forall corner,
    computer_move_with (ReductionGUI.make_move 1 corner) corner (mkR b cO n false) =
      Some (if check_winner b' cO || check_draw b' then end_game (mkR b' cO (n + Z.of_nat k) false)
            else mkR b' cX (n + Z.of_nat k) false).
Proof.
  intros Hs Hab Hd.
  assert (get_empty_positions b <> []) as Hne by (intros E; apply check_draw_empty in E; congruence).
  destruct (first_best_Some (fun ij => zval (red_game_after b cO ij)) _ Hne) as ([r c] & Hfb & Hin).
  destruct (find_best_move_correct red_fuel cO b n ltac:(done) Hs Hd (length_empty_le b)) as (k & Hk).
  pose proof Hin as (Hr & Hc & Hbl)%elem_of_get_empty_positions.
  destruct (cset_in_range b r c cO Hs Hr Hc) as (b' & Hb' & Hs').
  exists (r, c), b', k. split_and!; try done. intros corner.
  unfold computer_move_with. cbn [rboard rcurrent rcounter rlocked]. rewrite Hab, Hk, Hfb.
  cbn [ReductionGUI.make_move rboard rcurrent rcounter rlocked bboard bcounter].
  unfold is_mark at 1. rewrite bool_decide_true by done.
  rewrite Hb'. destruct (check_winner b' cO), (check_draw b'); reflexivity.
Qed.

(** What a reachable state satisfies: a 3x3 board whose squares hold
    [' '], ['X'] or ['O'], a current player ['X'] or ['O'], and while the
    buttons are enabled, ['X'] to play on a board where no line is
    complete and some square is empty. *)
Definition rgui_inv (g : rgui) : Prop :=
  shaped (rboard g) /\ marks_ok (rboard g) = true /\ (rcurrent g = cX \/ rcurrent g = cO) /\
  (rlocked g = false -> rcurrent g = cX /\ check_winner (rboard g) cX = false /\
                        check_winner (rboard g) cO = false /\ check_draw (rboard g) = false).

(** A click on an enabled square: the move and the computer's answer
    run to the end, whatever corner [random.choice] would give; a click
    on an empty square ends the game or closes squares. *)
Lemma red_human_click g row col :
  rgui_inv g -> rlocked g = false -> row < 3 -> col < 3 ->
  exists g', rgui_inv g' /\
    (is_mark (rboard g) blank row col = true ->
     rlocked g' = true \/ length (get_empty_positions (rboard g')) < length (get_empty_positions (rboard g))) /\
    forall corner, ReductionGUI.make_move 2 corner g row col = Some g'.
Proof.
  intros (Hs & Hm & _ & Hinv) Hl Hr Hc. destruct (Hinv Hl) as (Hx & HwX & HwO & Hd).
  destruct g as [b cur n lk]; cbn [rboard rcurrent rlocked] in *; subst cur lk.
  destruct (is_mark b blank row col) eqn:Hbl.
  2:{ exists (mkR b cX n false). split_and!; [by split_and!; auto|done|]. intros corner.
      cbn [ReductionGUI.make_move rboard]. by rewrite ?Hbl. }
  assert ((row, col) ∈ get_empty_positions b) as Hin.
  { apply elem_of_get_empty_positions. unfold is_mark in Hbl. by case_bool_decide. }
  destruct (cset_in_range b row col cX Hs Hr Hc) as (b' & Hb' & Hs').
  pose proof (marks_ok_cset b row col cX b' Hm ltac:(done) Hb') as Hm'.
  pose proof (length_empty_cset b row col cX b' ltac:(done) Hin Hb') as Hlen.
  destruct (check_winner b' cX) eqn:Hw.
  { exists (end_game (mkR b' cX n false)). split_and!; [split_and!; auto; by intros ?|by left|].
    intros corner. cbn [ReductionGUI.make_move rboard rcurrent]. by rewrite ?Hbl, Hb', Hw. }
  destruct (check_draw b') eqn:Hd'.
  { exists (end_game (mkR b' cX n false)). split_and!; [split_and!; auto; by intros ?|by left|].
    intros corner. cbn [ReductionGUI.make_move rboard rcurrent]. by rewrite ?Hbl, Hb', Hw, Hd'. }
  assert (all_blank b' = false) as Hab.
  { apply (all_blank_false b' row col Hr Hc). rewrite (cget_cset _ _ _ _ _ _ _ Hb').
    rewrite decide_True by done. done. }
  destruct (red_computer_reply b' n Hs' Hab Hd') as ([i j] & b'' & k & _ & Hij & Hb'' & Hs'' & Hrep).
  pose proof (marks_ok_cset b' i j cO b'' Hm' ltac:(done) Hb'') as Hm''.
  pose proof (length_empty_cset b' i j cO b'' ltac:(done) Hij Hb'') as Hlen'.
  eexists. split_and!; [| |intros corner; cbn [ReductionGUI.make_move rboard rcurrent];
                         rewrite ?Hbl, Hb', Hw, Hd'; exact (Hrep corner)].
  - destruct (check_winner b'' cO || check_draw b'') eqn:E; [split_and!; auto; by intros ?|].
    apply orb_false_iff in E as [E1 E2]. split_and!; auto. intros _. split_and!; try done.
    apply not_true_iff_false. intros HX. apply (check_winner_cset_other b' i j cO b'' cX) in HX;
      [congruence|done|done].
  - intros _. destruct (check_winner b'' cO || check_draw b''); [by left|right]. cbn [rboard]. lia.
Qed.

Lemma red_restart_spec g :
  shaped (rboard g) -> ReductionGUI.restart_game g = Some (mkR new_cboard cX 0 false).
Proof.
  intros Hs. unfold ReductionGUI.restart_game.
  destruct (clear_cells all_positions (rboard g) Hs) as (b' & -> & Hs' & Hc).
  { apply Forall_forall. intros [i j] Hin%elem_of_all_positions. done. }
  cbn. do 2 f_equal. apply cboard_ext; [done|apply shaped_new_cboard|]. intros i j Hi Hj.
  rewrite Hc, decide_True by (by apply elem_of_all_positions).
  destruct i as [|[|[|i]]]; try lia; destruct j as [|[|[|j]]]; try lia; reflexivity.
Qed.

Lemma new_rgui_inv : rgui_inv new_rgui.
Proof. split_and!; [apply shaped_new_cboard|reflexivity|by left|]. intros _. split_and!; reflexivity. Qed.

Lemma rgui_step_inv g g' : rgui_inv g -> rgui_step g g' -> rgui_inv g'.
Proof.
  intros Hinv Hstep. destruct Hstep as [g row col corner g' Hl Hr Hc Hm|g g' Hr].
  - destruct (red_human_click g row col Hinv Hl Hr Hc) as (g'' & Hinv' & _ & Hall).
    rewrite Hall in Hm. by injection Hm as <-.
  - rewrite red_restart_spec in Hr by apply Hinv. injection Hr as <-. apply new_rgui_inv.
Qed.

Lemma rgui_reachable_rgui_inv g : rgui_reachable g -> rgui_inv g.
Proof.
  unfold rgui_reachable. generalize new_rgui_inv. generalize new_rgui.
  intros g0 H0 Hr. induction Hr as [|x y z Hxy Hyz IH]; [done|]. apply IH, (rgui_step_inv x); done.
Qed.

(** From a state with at most [n] empty squares, clicks on empty squares
    end the game. *)
Lemma red_can_end_gen n g :
  rgui_inv g -> length (get_empty_positions (rboard g)) <= n ->
  exists g', rtc rgui_step g g' /\ rlocked g' = true.
Proof.
  revert g. induction n as [|n IH]; intros g Hinv Hn.
  all: destruct (rlocked g) eqn:Hl; [by exists g|].
  all: pose proof Hinv as (Hs & _ & _ & Hin); destruct (Hin Hl) as (_ & _ & _ & Hd).
  all: destruct (get_empty_positions (rboard g)) as [|[i j] l] eqn:He;
         [apply check_draw_empty in He; congruence|].
  all: assert ((i, j) ∈ get_empty_positions (rboard g)) as Hij by (rewrite He; left).
  all: pose proof Hij as (Hi & Hj & Hc)%elem_of_get_empty_positions.
  all: destruct (red_human_click g i j Hinv Hl Hi Hj) as (g1 & Hinv1 & Hprog & Hm).
  all: assert (rgui_step g g1) as Hstep by exact (rstep_click g i j 0 g1 Hl Hi Hj (Hm 0)).
  all: destruct (Hprog ltac:(unfold is_mark; by rewrite bool_decide_true)) as [Hl1|Hlt];
         [exists g1; split; [by apply rtc_once|done]|].
  - cbn [length] in Hn. lia.
  - destruct (IH g1 Hinv1) as (g' & Hr & Hl'); [rewrite He in Hlt; cbn [length] in Hn, Hlt; lia|].
    exists g'. split; [by eapply rtc_l|done].
Qed.

(** C15: in every state of the game that the clicks and the 'r' key can
    reach, the board is 3x3 and, while the buttons are enabled, ['X'] is
    to play, no line is complete and some square is empty. *)
Theorem red_gui_reachable_inv g :
  rgui_reachable g ->
  shaped (rboard g) /\
  (rlocked g = false -> rcurrent g = cX /\ check_winner (rboard g) cX = false /\
                        check_winner (rboard g) cO = false /\ check_draw (rboard g) = false).
Proof. intros Hr. destruct (rgui_reachable_rgui_inv g Hr) as (? & _ & _ & ?). done. Qed.

(** C40: A click on an enabled square of a reachable state never raises:
    [find_best_move] always returns a square (the [row, col] unpacking
    succeeds), the recursion of [make_move] and [computer_move] ends
    within two calls, and the new state is reachable. *)
Theorem red_click_total g row col corner :
  rgui_reachable g -> rlocked g = false -> row < 3 -> col < 3 ->
  exists g', ReductionGUI.make_move 2 corner g row col = Some g' /\ rgui_reachable g'.
Proof.
  intros Hr Hl Hrow Hcol.
  destruct (red_human_click g row col (rgui_reachable_rgui_inv g Hr) Hl Hrow Hcol) as (g' & _ & _ & Hm).
  exists g'. split; [apply Hm|]. eapply rtc_r; [exact Hr|].
  exact (rstep_click g row col corner g' Hl Hrow Hcol (Hm corner)).
Qed.

(** C14: when a cross on an empty square of a reachable state neither wins
    nor fills the board, the computer answers on the first empty square,
    in the order of [get_empty_positions], of greatest game value for
    ['O'], whatever [random.choice] would give; the game then ends if that
    mark wins or fills the board, and otherwise ['X'] plays next. *)
Theorem red_computer_plays_best g row col b' :
  rgui_reachable g -> rlocked g = false -> row < 3 -> col < 3 ->
  is_mark (rboard g) blank row col = true -> cset (rboard g) row col cX = Some b' ->
  check_winner b' cX = false -> check_draw b' = false ->
  exists ij b'' k,
    first_best (fun ij => zval (red_game_after b' cO ij)) (get_empty_positions b') = Some ij /\
    cset b' ij.1 ij.2 cO = Some b'' /\
    forall corner, ReductionGUI.make_move 2 corner g row col =
      Some (if check_winner b'' cO || check_draw b'' then end_game (mkR b'' cO (rcounter g + Z.of_nat k) false)
            else mkR b'' cX (rcounter g + Z.of_nat k) false).
Proof.
  intros Hr Hl Hrow Hcol Hbl Hb' Hw Hd.
  destruct (rgui_reachable_rgui_inv g Hr) as (Hs & _ & _ & Hinv). destruct (Hinv Hl) as (Hx & _).
  destruct g as [b cur n lk]; cbn [rboard rcurrent rlocked rcounter] in *; subst cur lk.
  destruct (cset_in_range b row col cX Hs Hrow Hcol) as (b1 & Hb1 & Hs').
  rewrite Hb' in Hb1. injection Hb1 as <-.
  assert (all_blank b' = false) as Hab.
  { apply (all_blank_false b' row col Hrow Hcol). rewrite (cget_cset _ _ _ _ _ _ _ Hb').
    rewrite decide_True by done. done. }
  destruct (red_computer_reply b' n Hs' Hab Hd) as (ij & b'' & k & Hfb & _ & Hb'' & _ & Hrep).
  exists ij, b'', k. split_and!; [done|done|]. intros corner.
  cbn [ReductionGUI.make_move rboard rcurrent]. rewrite Hbl, Hb', Hw, Hd. exact (Hrep corner).
Qed.

(** C16: in every reachable state the attributes hold the values the
    code gives them: every square of the board is [' '], ['X'] or ['O']
    and [self.current_player] is ['X'] or ['O']. *)
Theorem red_gui_typed g :
  rgui_reachable g -> marks_ok (rboard g) = true /\ (rcurrent g = cX \/ rcurrent g = cO).
Proof. intros Hr. destruct (rgui_reachable_rgui_inv g Hr) as (_ & ? & ? & _). done. Qed.

(** C17: every game can be finished: from any reachable state, clicks on
    empty squares reach a state where the game is over and the buttons
    are disabled (each such click ends the game or closes two squares). *)
Theorem red_game_can_end g :
  rgui_reachable g -> exists g', rtc rgui_step g g' /\ rlocked g' = true.
Proof. intros Hr. apply (red_can_end_gen 9); [by apply rgui_reachable_rgui_inv|apply length_empty_le]. Qed.

End ReductionGUIFacts.

Module ReductionGUIExamples.
Import CharBoard BFSearch Reduction ReductionFacts ReductionGUI ReductionGUIFacts.

(** The board after the first cross takes the centre. *)
Definition centre_x : cboard := [[" "; " "; " "]; [" "; "X"; " "]; [" "; " "; " "]]%char.

Lemma red_gui_reachable_inv_witness :
  shaped (rboard new_rgui) /\
  (rlocked new_rgui = false -> rcurrent new_rgui = cX /\ check_winner (rboard new_rgui) cX = false /\
                               check_winner (rboard new_rgui) cO = false /\ check_draw (rboard new_rgui) = false).
Proof. apply (red_gui_reachable_inv new_rgui). apply rtc_refl. Defined.

Lemma red_click_total_witness :
  exists g', ReductionGUI.make_move 2 0 new_rgui 1 1 = Some g' /\ rgui_reachable g'.
Proof. apply red_click_total; [apply rtc_refl|reflexivity|lia|lia]. Defined.

Lemma red_computer_plays_best_witness :
  exists ij b'' k,
    first_best (fun ij => zval (red_game_after centre_x cO ij)) (get_empty_positions centre_x) = Some ij /\
    cset centre_x ij.1 ij.2 cO = Some b'' /\
    forall corner, ReductionGUI.make_move 2 corner new_rgui 1 1 =
      Some (if check_winner b'' cO || check_draw b'' then end_game (mkR b'' cO (rcounter new_rgui + Z.of_nat k) false)
            else mkR b'' cX (rcounter new_rgui + Z.of_nat k) false).
Proof.
  apply red_computer_plays_best; [apply rtc_refl|reflexivity|lia|lia|reflexivity|reflexivity|reflexivity|reflexivity].
Defined.

Lemma red_gui_typed_witness :
  marks_ok (rboard new_rgui) = true /\ (rcurrent new_rgui = cX \/ rcurrent new_rgui = cO).
Proof. apply red_gui_typed. apply rtc_refl. Defined.

Lemma red_game_can_end_witness : exists g', rtc rgui_step new_rgui g' /\ rlocked g' = true.
Proof. apply red_game_can_end. apply rtc_refl. Defined.

End ReductionGUIExamples.
