(* ===== verification/HeuristicFun.v ===== *)
(** * The flat-board alpha-beta AI of [minimax by heuristic fun(winning moves).py]

    This program keeps the board as one list of nine one-character
    strings, square [row * 3 + col], and counts the trial marks of its
    searches in [stats.nodes_explored_with_pruning].  [get_ai_move]
    (lines 119-141) tries every empty square for ['O'], searches the reply
    with [minimax] (lines 143-177: ['O'] maximizes, ['X'] minimizes,
    alpha-beta pruning, marks written into the shared board and undone),
    and keeps the first square of greatest value.  [has_winning_move],
    [evaluate_winning_moves] and [evaluate_board] (lines 36-67) are the
    heuristic the file is named after; no search calls them.  The tkinter
    class (lines 69-188) plays ['X'] for the human, answers at once with
    [get_ai_move], and clears the board after a win.

    [HeuristicFunFacts] proves termination and, against the exhaustive
    value [hf_value], that the cuts are sound: [minimax] is fail-soft in
    every window, and [get_ai_move], whose searches start from the best
    score so far, keeps the first square of greatest game value.

    The state the searches mutate, the board and the counter, is the
    record [hstate] threaded through the monad [St]. *)

From Stdlib Require Import Ascii ZArith Lia.
From stdpp Require Import base list strings options.
From S2P Require Import Prelude CharBoard.

Module HeuristicFun.
Import CharBoard.

(** [board[i]], for indices below 9 on the nine-square board. *)
Definition fget (b : list ascii) (i : nat) : ascii := default blank (b !! i).

(** [board[i] = v]: [IndexError] outside the list. *)
Definition fset (b : list ascii) (i : nat) (v : ascii) : option (list ascii) :=
  if decide (i < length b) then Some (<[i := v]> b) else None.

(** [get_possible_moves(board)]: the indices [i] of [enumerate(board)]
    whose value [board[i]] is [' ']. *)
Definition get_possible_moves (b : list ascii) : list nat :=
  filter (fun i => b !! i = Some blank) (seq 0 (length b)).

(** [board[a] == board[b] == board[c] == player], a chained comparison. *)
Definition line3 (b : list ascii) (x y z : nat) (player : ascii) : bool :=
  bool_decide (fget b x = fget b y) && bool_decide (fget b y = fget b z) &&
  bool_decide (fget b z = player).

(** [check_winner(board, player)]: rows [0, 3, 6], columns [0, 1, 2],
    then the two diagonals. *)
Definition check_winner (b : list ascii) (player : ascii) : bool :=
  existsb (fun i => line3 b i (i + 1) (i + 2) player) [0; 3; 6]
  || existsb (fun i => line3 b i (i + 3) (i + 6) player) [0; 1; 2]
  || line3 b 0 4 8 player || line3 b 2 4 6 player.

(** [has_winning_move(board, player)]: try each empty square in place,
    test [check_winner], undo; [True] at the first win. *)
Fixpoint winning_loop (player : ascii) (l : list nat) : St (list ascii) bool :=
  match l with
  | [] => st_ret false
  | mv :: l' =>
      b <- st_get ;;
      b1 <- st_lift (fset b mv player) ;;
      st_modify (fun _ => b1) ;;;
      if check_winner b1 player then
        b2 <- st_lift (fset b1 mv blank) ;; st_modify (fun _ => b2) ;;; st_ret true
      else
        b2 <- st_lift (fset b1 mv blank) ;; st_modify (fun _ => b2) ;;; winning_loop player l'
  end.

Definition has_winning_move (player : ascii) : St (list ascii) bool :=
  b <- st_get ;; winning_loop player (get_possible_moves b).

(** [evaluate_winning_moves(board, player, stats)]: 1 when [player] has a
    winning move, else 0 (the print is not modelled). *)
Definition evaluate_winning_moves (player : ascii) : St (list ascii) Z :=
  w <- has_winning_move player ;; st_ret (if w then 1%Z else 0%Z).

(** [evaluate_board(board, stats)]: the winning-move score of ['O']. *)
Definition evaluate_board : St (list ascii) Z := evaluate_winning_moves cO.

(** The objects [get_ai_move] and [minimax] mutate: [self.board] and
    [self.stats.nodes_explored_with_pruning]. *)
Record hstate := mkH { fboard : list ascii; nodes : Z }.

Definition hput (i : nat) (v : ascii) : St hstate unit :=
  fun s => match fset (fboard s) i v with
           | Some b' => Some (tt, mkH b' (nodes s))
           | None => None
           end.

Definition hcount : St hstate unit := st_modify (fun s => mkH (fboard s) (nodes s + 1)).

Definition hget : St hstate (list ascii) := fun s => Some (fboard s, s).

(** The maximizing loop of [minimax]: [max_eval = max(max_eval, eval)],
    then [alpha = max(alpha, max_eval)], and [break] when
    [beta <= alpha]. *)
Fixpoint hf_max_loop (ev : ext -> ext -> nat -> St hstate ext) (l : list nat)
    (alpha beta max_eval : ext) : St hstate ext :=
  match l with
  | [] => st_ret max_eval
  | mv :: l' =>
      e <- ev alpha beta mv ;;
      let max_eval' := ext_max max_eval e in
      let alpha' := ext_max alpha max_eval' in
      if ext_le beta alpha' then st_ret max_eval'
      else hf_max_loop ev l' alpha' beta max_eval'
  end.

(** The minimizing loop, with [min_eval] and [beta]. *)
Fixpoint hf_min_loop (ev : ext -> ext -> nat -> St hstate ext) (l : list nat)
    (alpha beta min_eval : ext) : St hstate ext :=
  match l with
  | [] => st_ret min_eval
  | mv :: l' =>
      e <- ev alpha beta mv ;;
      let min_eval' := ext_min min_eval e in
      let beta' := ext_min beta min_eval' in
      if ext_le beta' alpha then st_ret min_eval'
      else hf_min_loop ev l' alpha beta' min_eval'
  end.

(** [TicTacToeGUI.minimax(board, depth, is_maximizing, alpha, beta)]:
    -1 when ['X'] has a line, 1 when ['O'] has one, 0 when [' '] is not
    in the board; otherwise ['O'] (maximizing) or ['X'] tries each empty
    square: mark, count, recurse, undo. *)
Fixpoint minimax (fuel : nat) (depth : Z) (is_maximizing : bool) (alpha beta : ext)
    : St hstate ext :=
  match fuel with
  | O => st_fail
  | S fuel' =>
      b <- hget ;;
      if check_winner b cX then st_ret (Fin (-1))
      else if check_winner b cO then st_ret (Fin 1)
      else if negb (bool_decide (blank ∈ b)) then st_ret (Fin 0)
      else if is_maximizing then
        hf_max_loop (fun alpha beta mv =>
                       hput mv cO ;;; hcount ;;;
                       e <- minimax fuel' (depth + 1) false alpha beta ;;
                       hput mv blank ;;; st_ret e)
                    (get_possible_moves b) alpha beta NegInf
      else
        hf_min_loop (fun alpha beta mv =>
                       hput mv cX ;;; hcount ;;;
                       e <- minimax fuel' (depth + 1) true alpha beta ;;
                       hput mv blank ;;; st_ret e)
                    (get_possible_moves b) alpha beta PosInf
  end.

(** The loop of [get_ai_move]: mark ['O'], count, search the reply from
    the current window, undo; keep a strictly better score; then
    [alpha = max(alpha, best_score)] and [break] when [beta <= alpha]. *)
Fixpoint ai_loop (fuel : nat) (l : list nat) (best_score : ext) (best_move : option nat)
    (alpha beta : ext) : St hstate (option nat) :=
  match l with
  | [] => st_ret best_move
  | mv :: l' =>
      hput mv cO ;;; hcount ;;;
      score <- minimax fuel 0 false alpha beta ;;
      hput mv blank ;;;
      let best_score' := if ext_lt best_score score then score else best_score in
      let best_move' := if ext_lt best_score score then Some mv else best_move in
      let alpha' := ext_max alpha best_score' in
      if ext_le beta alpha' then st_ret best_move'
      else ai_loop fuel l' best_score' best_move' alpha' beta
  end.

(** [get_ai_move()]: from [best_score = alpha = float('-inf')] and
    [beta = float('inf')]. *)
Definition get_ai_move (fuel : nat) : St hstate (option nat) :=
  b <- hget ;; ai_loop fuel (get_possible_moves b) NegInf None NegInf PosInf.

(** ** The tkinter game *)

(** [self.board], [self.current_player] and the shared statistics. *)
Record hgui := mkHG { gboard : list ascii; gcurrent : ascii; gnodes : Z }.

Definition new_hgui : hgui := mkHG (replicate 9 blank) cX 0.

(** The squares in the order of [reset_game]'s loops: [row * 3 + col]. *)
Definition reset_order : list nat := flat_map (fun row => map (fun col => row * 3 + col) (seq 0 3)) (seq 0 3).

(** [reset_game()]: every square back to [' '], ['X'] to play. *)
Definition reset_game (g : hgui) : option hgui :=
  foldl (fun ob i => ob ≫= fun b => fset b i blank) (Some (gboard g)) reset_order
  ≫= fun b => Some (mkHG b cX (gnodes g)).

(** The fuel of the searches of the game: nine squares. *)
Definition ai_fuel : nat := 9.

(** [make_move(row, col)]: the human's mark; a win clears the board;
    otherwise ['O'] answers with [get_ai_move()] when it finds a square,
    and a win of ['O'] clears the board. *)
Definition make_move (g : hgui) (row col : nat) : option hgui :=
  let idx := row * 3 + col in
  if bool_decide (fget (gboard g) idx = blank) then
    fset (gboard g) idx (gcurrent g) ≫= fun b1 =>
    if check_winner b1 (gcurrent g) then reset_game (mkHG b1 (gcurrent g) (gnodes g))
    else
      match get_ai_move ai_fuel (mkH b1 (gnodes g)) with
      | None => None
      | Some (None, s) => Some (mkHG (fboard s) cO (nodes s))
      | Some (Some mv, s) =>
          fset (fboard s) mv cO ≫= fun b2 =>
          if check_winner b2 cO then reset_game (mkHG b2 cO (nodes s))
          else Some (mkHG b2 cX (nodes s))
      end
  else Some g.

End HeuristicFun.

Module HeuristicFunFacts.
Import CharBoard HeuristicFun.

(** ** Squares of the flat board *)

Lemma elem_of_get_possible_moves b i : i ∈ get_possible_moves b <-> b !! i = Some blank.
Proof.
  unfold get_possible_moves. rewrite list_elem_of_filter, elem_of_seq. split; [tauto|].
  intros H. split; [done|]. apply lookup_lt_Some in H. lia.
Qed.

Lemma get_possible_moves_nil b : get_possible_moves b = [] <-> blank ∉ b.
Proof.
  split.
  - intros E Hin. apply list_elem_of_lookup in Hin as [i Hi].
    apply elem_of_get_possible_moves in Hi. rewrite E in Hi. by apply not_elem_of_nil in Hi.
  - intros Hn. destruct (get_possible_moves b) as [|i l] eqn:E; [done|].
    assert (i ∈ get_possible_moves b) as Hi by (rewrite E; left).
    apply elem_of_get_possible_moves, list_elem_of_lookup_2 in Hi. done.
Qed.

(** Marking an empty square closes exactly that square. *)
Lemma length_moves_set b i v :
  b !! i = Some blank -> v <> blank ->
  length (get_possible_moves b) = S (length (get_possible_moves (<[i := v]> b))).
Proof.
  intros Hi Hv. unfold get_possible_moves. rewrite length_insert.
  apply (length_filter_flip _ _ _ i).
  - apply NoDup_seq.
  - apply elem_of_seq. apply lookup_lt_Some in Hi. lia.
  - done.
  - rewrite list_lookup_insert_eq by (eapply lookup_lt_Some; eauto). congruence.
  - intros k _ Hk. by rewrite list_lookup_insert_ne by done.
Qed.

(** One call of fuel per empty square is enough below a marked square. *)
Lemma length_moves_fuel b i v f :
  b !! i = Some blank -> v <> blank -> length (get_possible_moves b) < S f ->
  length (get_possible_moves (<[i := v]> b)) < f.
Proof. intros Hi Hv. pose proof (length_moves_set b i v Hi Hv). lia. Qed.

(** One trial of the searches: mark an empty square, then undo. *)
Lemma htrial b i v n m :
  b !! i = Some blank ->
  hput i v (mkH b n) = Some (tt, mkH (<[i := v]> b) n) /\
  hput i blank (mkH (<[i := v]> b) m) = Some (tt, mkH b m).
Proof.
  intros Hi. pose proof (lookup_lt_Some _ _ _ Hi) as Hlt. unfold hput, fset. cbn.
  rewrite decide_True by done. rewrite length_insert, decide_True by done.
  rewrite list_insert_insert_eq, (list_insert_id b i blank Hi). by split.
Qed.

(** ** [check_winner] and [has_winning_move] *)

(** The eight lines of the flat board. *)
Definition flat_lines : list (list nat) :=
  [[0; 1; 2]; [3; 4; 5]; [6; 7; 8]; [0; 3; 6]; [1; 4; 7]; [2; 5; 8]; [0; 4; 8]; [2; 4; 6]].

Lemma line3_forallb b x y z p :
  line3 b x y z p = forallb (fun i => bool_decide (fget b i = p)) [x; y; z].
Proof. unfold line3. cbn. repeat case_bool_decide; cbn; congruence. Qed.

Lemma check_winner_lines_flat b p :
  check_winner b p = existsb (forallb (fun i => bool_decide (fget b i = p))) flat_lines.
Proof.
  unfold check_winner. cbn [existsb]. rewrite !line3_forallb. cbn.
  destruct (bool_decide (fget b 0 = p)), (bool_decide (fget b 1 = p)), (bool_decide (fget b 2 = p)),
           (bool_decide (fget b 3 = p)), (bool_decide (fget b 4 = p)), (bool_decide (fget b 5 = p)),
           (bool_decide (fget b 6 = p)), (bool_decide (fget b 7 = p)), (bool_decide (fget b 8 = p));
    reflexivity.
Qed.

Lemma winning_loop_spec p b l :
  (forall i, i ∈ l -> b !! i = Some blank) ->
  winning_loop p l b = Some (existsb (fun i => check_winner (<[i := p]> b) p) l, b).
Proof.
  induction l as [|i l IH]; intros Hl; [done|].
  assert (b !! i = Some blank) as Hi by (apply Hl; left).
  pose proof (lookup_lt_Some _ _ _ Hi) as Hlt.
  cbn [winning_loop existsb]. unfold st_bind, st_get, st_lift, st_modify, fset.
  rewrite decide_True by done. rewrite length_insert, decide_True by done.
  rewrite list_insert_insert_eq, (list_insert_id b i blank Hi).
  destruct (check_winner (<[i:=p]> b) p); [done|]. apply IH. intros j Hj. apply Hl. by right.
Qed.

(** ** Termination of the searches *)

Section Loops.
  Variable b : list ascii.
  Variable ev : ext -> ext -> nat -> St hstate ext.

  (** Every child search returns a value in range and gives the board
      back. *)
Definition hchild_ok (l : list nat) : Prop :=
    forall mv, mv ∈ l -> forall a bt n', exists e k,
      ev a bt mv (mkH b n') = Some (e, mkH b (n' + Z.of_nat k)) /\ in_range e.

Lemma hf_max_loop_total l alpha beta M n :
  hchild_ok l -> M = NegInf \/ in_range M ->
  exists r k, hf_max_loop ev l alpha beta M (mkH b n) = Some (r, mkH b (n + Z.of_nat k)) /\
              (in_range r \/ (r = M /\ l = [])).
Proof.
  revert alpha M n. induction l as [|mv l IH]; intros alpha M n Hl HM.
  - exists M, 0. split; [cbn; by rewrite Z.add_0_r|by right].
  - destruct (Hl mv (list_elem_of_here _ _) alpha beta n) as (e & k & He & Hr).
    pose proof (max_in_range M e HM Hr) as HM'.
    cbn. unfold st_bind. rewrite He. destruct (ext_le _ _).
    + exists (ext_max M e), k. split; [done|by left].
    + destruct (IH (ext_max alpha (ext_max M e)) (ext_max M e) (n + Z.of_nat k)%Z)
        as (r & k' & Hk' & Hr'); [intros mv' Hmv'; apply Hl; by right|by right|].
      exists r, (k + k'). rewrite Hk'. split; [do 3 f_equal; lia|].
      destruct Hr' as [|[-> _]]; by left.
Qed.

Lemma hf_min_loop_total l alpha beta M n :
  hchild_ok l -> M = PosInf \/ in_range M ->
  exists r k, hf_min_loop ev l alpha beta M (mkH b n) = Some (r, mkH b (n + Z.of_nat k)) /\
              (in_range r \/ (r = M /\ l = [])).
Proof.
  revert beta M n. induction l as [|mv l IH]; intros beta M n Hl HM.
  - exists M, 0. split; [cbn; by rewrite Z.add_0_r|by right].
  - destruct (Hl mv (list_elem_of_here _ _) alpha beta n) as (e & k & He & Hr).
    pose proof (min_in_range M e HM Hr) as HM'.
    cbn. unfold st_bind. rewrite He. destruct (ext_le _ _).
    + exists (ext_min M e), k. split; [done|by left].
    + destruct (IH (ext_min beta (ext_min M e)) (ext_min M e) (n + Z.of_nat k)%Z)
        as (r & k' & Hk' & Hr'); [intros mv' Hmv'; apply Hl; by right|by right|].
      exists r, (k + k'). rewrite Hk'. split; [do 3 f_equal; lia|].
      destruct Hr' as [|[-> _]]; by left.
Qed.

End Loops.

(** [minimax] at fuel [f] returns a value in range and gives the board
    back. *)
Definition htotal_at (f : nat) : Prop :=
  forall d mx alpha beta b n, length (get_possible_moves b) < f ->
  exists z k, minimax f d mx alpha beta (mkH b n) = Some (Fin z, mkH b (n + Z.of_nat k)) /\
              (-1 <= z <= 1)%Z.

Lemma hchild_total f d mx p b :
  htotal_at f -> p <> blank -> length (get_possible_moves b) <= f ->
  hchild_ok b (fun alpha beta mv =>
                 hput mv p ;;; hcount ;;;
                 e <- minimax f (d + 1) mx alpha beta ;;
                 hput mv blank ;;; st_ret e) (get_possible_moves b).
Proof.
  intros IH Hp Hf mv Hmv a bt n'. apply elem_of_get_possible_moves in Hmv.
  pose proof (length_moves_set b mv p Hmv Hp) as Hlen.
  destruct (IH (d + 1)%Z mx a bt (<[mv := p]> b) (n' + 1)%Z ltac:(lia)) as (z & k & Hk & Hz).
  destruct (htrial b mv p n' (n' + 1 + Z.of_nat k) Hmv) as [Hm Hu].
  exists (Fin z), (S k). unfold st_bind. rewrite Hm. cbn [hcount st_modify fboard nodes].
  rewrite Hk, Hu. split; [unfold st_ret; do 3 f_equal; lia|by exists z].
Qed.

Lemma hminimax_total_gen f : htotal_at f.
Proof.
  induction f as [|f IH]; intros d mx alpha beta b n Hf; [lia|].
  cbn [minimax]. rewrite (st_bind_ret _ _ _ b (mkH b n)) by reflexivity.
  destruct (check_winner b cX).
  { exists (-1)%Z, 0. split; [unfold st_ret; do 3 f_equal; lia|lia]. }
  destruct (check_winner b cO).
  { exists 1%Z, 0. split; [unfold st_ret; do 3 f_equal; lia|lia]. }
  destruct (bool_decide (blank ∈ b)) eqn:Hbl; cbn [negb].
  2:{ exists 0%Z, 0. split; [unfold st_ret; do 3 f_equal; lia|lia]. }
  assert (get_possible_moves b <> []) as Hne.
  { rewrite get_possible_moves_nil. apply bool_decide_eq_true in Hbl. tauto. }
  destruct mx.
  - destruct (hf_max_loop_total b _ (get_possible_moves b) alpha beta NegInf n
                (hchild_total f d false cO b IH ltac:(done) ltac:(lia)) (or_introl eq_refl))
      as (r & k & Hk & [(z & -> & Hz)|[_ ?]]); [|done].
    exists z, k. by rewrite Hk.
  - destruct (hf_min_loop_total b _ (get_possible_moves b) alpha beta PosInf n
                (hchild_total f d true cX b IH ltac:(done) ltac:(lia)) (or_introl eq_refl))
      as (r & k & Hk & [(z & -> & Hz)|[_ ?]]); [|done].
    exists z, k. by rewrite Hk.
Qed.

Lemma ai_loop_total fuel b l bs bm alpha beta n :
  length (get_possible_moves b) <= fuel -> (forall mv, mv ∈ l -> b !! mv = Some blank) ->
  exists r k, ai_loop fuel l bs bm alpha beta (mkH b n) = Some (r, mkH b (n + Z.of_nat k)) /\
    ((r = bm /\ (l = [] \/ bs <> NegInf)) \/ exists mv, r = Some mv /\ mv ∈ l).
Proof.
  intros Hf. revert bs bm alpha n. induction l as [|mv l IH]; intros bs bm alpha n Hl.
  - exists bm, 0. split; [cbn; by rewrite Z.add_0_r|left; auto].
  - assert (b !! mv = Some blank) as Hmv by (apply Hl; left).
    pose proof (length_moves_set b mv cO Hmv ltac:(done)) as Hlen.
    destruct (hminimax_total_gen fuel 0%Z false alpha beta (<[mv := cO]> b) (n + 1)%Z ltac:(lia))
      as (z & k & Hk & _).
    destruct (htrial b mv cO n (n + 1 + Z.of_nat k) Hmv) as [Hm Hu].
    cbn [ai_loop]. unfold st_bind. rewrite Hm. cbn [hcount st_modify fboard nodes]. rewrite Hk, Hu.
    assert (forall mv', mv' ∈ l -> b !! mv' = Some blank) as Hl' by (intros; apply Hl; by right).
    assert (Hbs : ext_lt bs (Fin z) = false -> bs <> NegInf) by (intros H ->; done).
    destruct (ext_le beta _).
    + exists (if ext_lt bs (Fin z) then Some mv else bm), (S k). split; [unfold st_ret; do 3 f_equal; lia|].
      destruct (ext_lt bs (Fin z)) eqn:Hlt; [right; eexists; split; [done|left]|left; auto].
    + destruct (IH (if ext_lt bs (Fin z) then Fin z else bs) (if ext_lt bs (Fin z) then Some mv else bm)
                  (ext_max alpha (if ext_lt bs (Fin z) then Fin z else bs)) (n + 1 + Z.of_nat k)%Z Hl')
        as (r & k' & Hk' & Hr).
      exists r, (S k + k'). rewrite Hk'. split; [do 3 f_equal; lia|].
      destruct (ext_lt bs (Fin z)) eqn:Hlt;
        destruct Hr as [[-> _]|(mv' & -> & Hin)]; try (right; eexists; split; [done|by right]).
      * right. eexists; split; [done|left].
      * left. split; [done|right; auto].
Qed.

(** ** The pruned search against the exhaustive game value *)

(** The exhaustive minimax value of [TicTacToeGUI.minimax] without the
    cuts: the same terminal tests, then the greatest (['O'] to move) or
    least (['X'] to move) value of the children, as a left fold over the
    empty squares. *)
Fixpoint hf_value (fuel : nat) (b : list ascii) (is_max : bool) : ext :=
  match fuel with
  | O => Fin 0
  | S f =>
      if check_winner b cX then Fin (-1)
      else if check_winner b cO then Fin 1
      else if negb (bool_decide (blank ∈ b)) then Fin 0
      else if is_max
      then foldl (fun M mv => ext_max M (hf_value f (<[mv := cO]> b) false)) NegInf
             (get_possible_moves b)
      else foldl (fun M mv => ext_min M (hf_value f (<[mv := cX]> b) true)) PosInf
             (get_possible_moves b)
  end.

(** [hf_max_loop] and [hf_min_loop] move [alpha] ([beta]) by the running
    best [max_eval] ([min_eval]). *)
Lemma hf_max_loop_fs ev l alpha beta M s :
  hf_max_loop ev l alpha beta M s = fs_max_loop ev (fun a M _ => ext_max a M) l alpha beta M s.
Proof.
  revert alpha M s. induction l as [|mv l IH]; intros alpha M s; [done|]. cbn. unfold st_bind.
  destruct (ev _ _ _ _) as [[e s1]|]; [|done]. destruct (ext_le _ _); [done|apply IH].
Qed.

Lemma hf_min_loop_fs ev l alpha beta M s :
  hf_min_loop ev l alpha beta M s = fs_min_loop ev (fun b M _ => ext_min b M) l alpha beta M s.
Proof.
  revert beta M s. induction l as [|mv l IH]; intros beta M s; [done|]. cbn. unfold st_bind.
  destruct (ev _ _ _ _) as [[e s1]|]; [|done]. destruct (ext_le _ _); [done|apply IH].
Qed.

(** [minimax] at fuel [f], when it returns, gives the board back and is
    fail-soft with respect to [hf_value f]. *)
Definition hsound_at (f : nat) : Prop :=
  forall d mx alpha beta b n r s', minimax f d mx alpha beta (mkH b n) = Some (r, s') ->
  ext_ltP alpha beta -> fboard s' = b /\ failsoft_ext alpha beta (hf_value f b mx) r.

(** [hrun_search] runs the mark, count and search of a child in a
    hypothesis [Hrun]: it names the search's result and the state after. *)
Ltac hrun_search Hm Hk e b2 n2 :=
  match goal with
  | Hrun : _ = Some _ |- _ =>
      unfold st_bind in Hrun; rewrite Hm in Hrun; cbn [hcount st_modify fboard nodes] in Hrun;
      match type of Hrun with
      | context [minimax ?f ?d ?mx ?a ?bt ?s] =>
          destruct (minimax f d mx a bt s) as [[e [b2 n2]]|] eqn:Hk; [|discriminate]
      end
  end.

Lemma hchild_sound_search f d mx p b :
  hsound_at f ->
  child_sound fboard b (fun alpha beta mv =>
                          hput mv p ;;; hcount ;;;
                          e <- minimax f (d + 1) mx alpha beta ;;
                          hput mv blank ;;; st_ret e)
    (fun mv => hf_value f (<[mv := p]> b) mx) (get_possible_moves b).
Proof.
  intros IH mv Hmv a bt [b0 n] e s' Hb0 Hrun Hlt. cbn in Hb0. subst b0.
  apply elem_of_get_possible_moves in Hmv.
  destruct (htrial b mv p n n Hmv) as [Hm _]. hrun_search Hm Hk e1 b2 n2.
  destruct (IH _ _ _ _ _ _ _ _ Hk Hlt) as [Hb2 Hv]. cbn in Hb2. subst.
  destruct (htrial b mv p n n2 Hmv) as [_ Hu]. rewrite Hu in Hrun. by injection Hrun as <- <-.
Qed.

Lemma hsound_gen f : hsound_at f.
Proof.
  induction f as [|f IH]; intros d mx alpha beta b n r s' Hrun Hlt; [discriminate|].
  cbn [minimax] in Hrun. rewrite (st_bind_ret _ _ _ b (mkH b n)) in Hrun by reflexivity.
  cbn [hf_value].
  destruct (check_winner b cX); [injection Hrun as <- <-; split; [done|apply failsoft_ext_refl]|].
  destruct (check_winner b cO); [injection Hrun as <- <-; split; [done|apply failsoft_ext_refl]|].
  destruct (bool_decide (blank ∈ b)); cbn [negb] in *;
    [|injection Hrun as <- <-; split; [done|apply failsoft_ext_refl]].
  destruct mx; [rewrite hf_max_loop_fs in Hrun|rewrite hf_min_loop_fs in Hrun].
  - eapply (fs_max_loop_sound fboard b); [apply max_upd_ok_running|by apply hchild_sound_search| |
      apply ext_leP_refl|apply ext_leP_max_r, ext_leP_refl|done|apply failsoft_ext_refl|exact Hrun];
      done.
  - eapply (fs_min_loop_sound fboard b); [apply min_upd_ok_running|by apply hchild_sound_search| |
      apply ext_leP_refl|apply ext_min_leP_r, ext_leP_refl|done|apply failsoft_ext_refl|exact Hrun];
      done.
Qed.

(** With one more call than empty squares the exhaustive value is a
    number between -1 and 1, and more fuel does not change it. *)
Lemma hf_value_in_range f b mx : length (get_possible_moves b) < f -> in_range (hf_value f b mx).
Proof.
  revert b mx. induction f as [|f IH]; intros b mx Hf; [lia|]. cbn [hf_value].
  destruct (check_winner b cX); [exists (-1)%Z; split; [done|lia]|].
  destruct (check_winner b cO); [exists 1%Z; split; [done|lia]|].
  destruct (bool_decide (blank ∈ b)) eqn:Hbl; cbn [negb]; [|exists 0%Z; split; [done|lia]].
  assert (get_possible_moves b <> []) as Hne.
  { rewrite get_possible_moves_nil. apply bool_decide_eq_true in Hbl. tauto. }
  destruct mx; [apply foldl_max_in_range|apply foldl_min_in_range]; try by left.
  all: intros mv Hmv%elem_of_get_possible_moves; by apply IH, length_moves_fuel.
Qed.

Lemma hf_value_stable f f' b mx :
  length (get_possible_moves b) < f -> length (get_possible_moves b) < f' ->
  hf_value f b mx = hf_value f' b mx.
Proof.
  revert f' b mx. induction f as [|f IH]; intros [|f'] b mx Hf Hf'; try lia. cbn [hf_value].
  destruct (check_winner b cX), (check_winner b cO), (bool_decide (blank ∈ b)); cbn [negb]; try done.
  destruct mx; apply foldl_ext_in; intros mv acc Hmv%elem_of_get_possible_moves; f_equal;
    by apply IH; apply length_moves_fuel.
Qed.

(** The game value of a board: [hf_value] with enough fuel. *)
Definition game_value (b : list ascii) (is_max : bool) : ext :=
  hf_value (S (length (get_possible_moves b))) b is_max.

(** The root loop of [get_ai_move], started with [alpha = best_score]
    and [beta = +inf], keeps the first square of greatest exhaustive
    value. *)
Lemma ai_loop_sound fuel b l bs bm n r s' :
  (forall mv, mv ∈ l -> b !! mv = Some blank) ->
  (forall mv, mv ∈ l -> in_range (hf_value fuel (<[mv := cO]> b) false)) ->
  ext_ltP bs PosInf ->
  ai_loop fuel l bs bm bs PosInf (mkH b n) = Some (r, s') ->
  r = argmax_loop (fun mv => zval (hf_value fuel (<[mv := cO]> b) false)) l bs bm.
Proof.
  revert bs bm n. induction l as [|mv l IH]; intros bs bm n Hl Hv Hbs Hrun; [by injection Hrun|].
  assert (b !! mv = Some blank) as Hmv by (apply Hl; left).
  destruct (Hv mv ltac:(left)) as (z & Hz & _).
  destruct (htrial b mv cO n n Hmv) as [Hm _]. cbn [ai_loop argmax_loop] in *. hrun_search Hm Hk sc b2 n2.
  destruct (hsound_gen _ _ _ _ _ _ _ _ _ Hk Hbs) as [Hb2 Hf]. cbn in Hb2. subst.
  destruct (htrial b mv cO n n2 Hmv) as [_ Hu]. rewrite Hu in Hrun.
  rewrite Hz in Hf |- *. cbn [zval]. destruct (failsoft_ext_root _ _ _ Hf) as [Hlt Heq].
  rewrite Hlt in Hrun.
  assert (forall mv', mv' ∈ l -> b !! mv' = Some blank) as Hl' by (intros; apply Hl; by right).
  assert (forall mv', mv' ∈ l -> in_range (hf_value fuel (<[mv' := cO]> b) false)) as Hv'
    by (intros; apply Hv; by right).
  destruct (ext_lt bs (Fin z)) eqn:Hb.
  - rewrite (Heq eq_refl) in Hrun. replace (ext_max bs (Fin z)) with (Fin z) in Hrun by (unfold ext_max; by rewrite Hb).
    cbn [ext_le ext_lt negb] in Hrun. eapply IH; [exact Hl'|exact Hv'| |exact Hrun]. unfold ext_ltP. cbn. tauto.
  - rewrite ext_max_idem, (proj2 (ext_le_false _ _) Hbs) in Hrun. apply (IH _ _ _ Hl' Hv' Hbs Hrun).
Qed.

(** ** Claims *)

(** The chained comparisons of [check_winner] hold exactly when one
    of the eight lines of the flat board holds [player] in its three
    squares. *)
Theorem check_winner_flat_spec b p :
  check_winner b p = true <-> exists l, l ∈ flat_lines /\ forall i, i ∈ l -> fget b i = p.
Proof.
  rewrite check_winner_lines_flat, existsb_exists. setoid_rewrite forallb_forall.
  setoid_rewrite <- list_elem_of_In. setoid_rewrite bool_decide_eq_true. done.
Qed.

(** C34: [has_winning_move(board, player)] answers whether marking one of
    the empty squares completes a line of [player], and the board it
    mutates in place is given back unchanged. *)
Theorem has_winning_move_spec p b :
  has_winning_move p b =
  Some (existsb (fun i => check_winner (<[i := p]> b) p) (get_possible_moves b), b).
Proof.
  unfold has_winning_move. rewrite (st_bind_ret _ _ _ b b) by reflexivity.
  apply winning_loop_spec. intros i. apply elem_of_get_possible_moves.
Qed.

(** When the board has an empty square, [get_ai_move] returns one
    of the empty squares (never [None]), all its searches terminate with
    the fuel of one call per empty square, and the board is given back
    unchanged. *)
Theorem get_ai_move_total fuel b n :
  blank ∈ b -> length (get_possible_moves b) <= fuel ->
  exists mv k, get_ai_move fuel (mkH b n) = Some (Some mv, mkH b (n + Z.of_nat k)) /\
               b !! mv = Some blank.
Proof.
  intros Hbl Hf. unfold get_ai_move. rewrite (st_bind_ret _ _ _ b (mkH b n)) by reflexivity.
  assert (get_possible_moves b <> []) as Hne by (rewrite get_possible_moves_nil; tauto).
  destruct (ai_loop_total fuel b (get_possible_moves b) NegInf None NegInf PosInf n Hf)
    as (r & k & Hk & [[-> [?|?]]|(mv & -> & Hin)]);
    [by intros; apply elem_of_get_possible_moves|done|done|].
  exists mv, k. split; [done|]. by apply elem_of_get_possible_moves.
Qed.

(** C12: [TicTacToeGUI.minimax] with alpha-beta cuts, from a window
    [alpha < beta] and one call of fuel more than the empty squares,
    returns and gives the board back, and its value is fail-soft with
    respect to the exhaustive game value: at most [alpha] when the game
    value is at most [alpha], equal to it inside the window, at least
    [beta] when the game value is at least [beta]. *)
Theorem hf_minimax_failsoft f d mx alpha beta b n :
  length (get_possible_moves b) < f -> ext_ltP alpha beta ->
  exists v k, minimax f d mx alpha beta (mkH b n) = Some (v, mkH b (n + Z.of_nat k)) /\
              failsoft_ext alpha beta (game_value b mx) v.
Proof.
  intros Hf Hlt. destruct (hminimax_total_gen f d mx alpha beta b n Hf) as (z & k & Hk & _).
  exists (Fin z), k. split; [done|]. destruct (hsound_gen _ _ _ _ _ _ _ _ _ Hk Hlt) as [_ Hs].
  unfold game_value. by rewrite (hf_value_stable _ f) by lia.
Qed.

(** C10: [get_ai_move] on a board with an empty square returns the first
    empty square, in index order, whose game value for ['O'] (with
    ['X'] to reply) is the greatest: the cuts of the searches, which
    start each square from [alpha = best_score], never change the move
    an exhaustive search would choose. *)
Theorem get_ai_move_best fuel b n :
  blank ∈ b -> length (get_possible_moves b) <= fuel ->
  exists k, get_ai_move fuel (mkH b n) =
    Some (first_best (fun mv => zval (game_value (<[mv := cO]> b) false)) (get_possible_moves b),
          mkH b (n + Z.of_nat k)).
Proof.
  intros Hbl Hf. unfold get_ai_move. rewrite (st_bind_ret _ _ _ b (mkH b n)) by reflexivity.
  assert (forall mv, mv ∈ get_possible_moves b -> b !! mv = Some blank) as Hl
    by (intros; by apply elem_of_get_possible_moves).
  assert (forall mv, mv ∈ get_possible_moves b -> length (get_possible_moves (<[mv := cO]> b)) < fuel)
    as Hc by (intros mv Hmv; apply length_moves_fuel; [by apply Hl|done|lia]).
  destruct (ai_loop_total fuel b _ NegInf None NegInf PosInf n Hf Hl) as (r & k & Hk & _).
  exists k. rewrite Hk. do 2 f_equal.
  erewrite (ai_loop_sound fuel b _ NegInf None n r); [| |intros mv Hmv; by apply hf_value_in_range, Hc
                                                      |unfold ext_ltP; cbn; tauto|exact Hk]; [|done].
  rewrite argmax_loop_first_best. apply first_best_ext_in. intros mv Hmv. unfold game_value.
  f_equal. apply hf_value_stable; [apply Hc, Hmv|lia].
Qed.

(** A click on a square of a board with no [' '] does nothing. *)
Lemma make_move_full g row col :
  row * 3 + col < length (gboard g) -> blank ∉ gboard g -> make_move g row col = Some g.
Proof.
  intros Hlt Hfull. unfold make_move. rewrite bool_decide_false; [done|].
  destruct (lookup_lt_is_Some_2 (gboard g) (row * 3 + col) Hlt) as [x Hx].
  unfold fget. rewrite Hx. cbn. intros ->. apply Hfull. by eapply list_elem_of_lookup_2.
Qed.

(** C39: a drawn game is never cleared: when the mark of the player to
    move fills the board without completing a line, [get_ai_move] finds no
    square, ['O'] stays to play on the full board, and every later click
    on the 3x3 grid is ignored, so the window stays frozen; only a win
    calls [reset_game]. *)
Theorem draw_freezes g row col b1 :
  length (gboard g) = 9 -> row < 3 -> col < 3 ->
  fget (gboard g) (row * 3 + col) = blank ->
  fset (gboard g) (row * 3 + col) (gcurrent g) = Some b1 ->
  blank ∉ b1 -> check_winner b1 (gcurrent g) = false ->
  make_move g row col = Some (mkHG b1 cO (gnodes g)) /\
  forall row' col', row' < 3 -> col' < 3 ->
    make_move (mkHG b1 cO (gnodes g)) row' col' = Some (mkHG b1 cO (gnodes g)).
Proof.
  intros Hlen Hr Hc Hopen Hset Hfull Hwin. split.
  - unfold make_move. rewrite bool_decide_true by done. rewrite Hset. cbn. rewrite Hwin.
    unfold get_ai_move, hget, st_bind. cbn [fboard].
    fold (get_possible_moves b1). rewrite (proj2 (get_possible_moves_nil b1) Hfull). done.
  - intros row' col' Hr' Hc'. apply make_move_full; [|done].
    unfold fset in Hset. case_decide; [|discriminate]. injection Hset as <-.
    cbn. rewrite length_insert. lia.
Qed.

End HeuristicFunFacts.

Module HeuristicFunExamples.
Import CharBoard HeuristicFun HeuristicFunFacts.

(** Crosses to play the last empty square (2, 2) of a game that ends in
    a draw. *)
Definition before_draw : hgui :=
  mkHG ["X"; "O"; "X"; "X"; "O"; "O"; "O"; "X"; " "]%char cX 0.

Definition full_draw : list ascii := ["X"; "O"; "X"; "X"; "O"; "O"; "O"; "X"; "X"]%char.

Lemma draw_freezes_witness :
  make_move before_draw 2 2 = Some (mkHG full_draw cO 0) /\
  forall row col, row < 3 -> col < 3 ->
    make_move (mkHG full_draw cO 0) row col = Some (mkHG full_draw cO 0).
Proof.
  apply (draw_freezes before_draw 2 2 full_draw); [reflexivity|lia|lia|reflexivity|reflexivity| |reflexivity].
  apply get_possible_moves_nil. reflexivity.
Defined.

Definition open_board : list ascii := ["X"; " "; " "; " "; " "; " "; " "; " "; " "]%char.

Lemma get_ai_move_total_witness :
  exists mv k, get_ai_move 9 (mkH open_board 0) = Some (Some mv, mkH open_board (0 + Z.of_nat k)) /\
               open_board !! mv = Some blank.
Proof. apply (get_ai_move_total 9 open_board 0); [apply list_elem_of_lookup; exists 1; reflexivity|vm_compute; lia]. Defined.

Lemma hf_minimax_failsoft_witness :
  exists v k, minimax 9 0 false NegInf PosInf (mkH open_board 0) = Some (v, mkH open_board (0 + Z.of_nat k)) /\
              failsoft_ext NegInf PosInf (game_value open_board false) v.
Proof. apply hf_minimax_failsoft; [vm_compute; lia|unfold ext_ltP; cbn; tauto]. Defined.

Lemma get_ai_move_best_witness :
  exists k, get_ai_move 9 (mkH open_board 0) =
    Some (first_best (fun mv => zval (game_value (<[mv := cO]> open_board) false)) (get_possible_moves open_board),
          mkH open_board (0 + Z.of_nat k)).
Proof. apply get_ai_move_best; [apply list_elem_of_lookup; exists 1; reflexivity|vm_compute; lia]. Defined.

End HeuristicFunExamples.
