(* ===== verification/Launcher.v ===== *)
(** * The launcher [main.py]

    [main.py] opens a tkinter window with one button per program of the
    list [program_paths] (lines 17-24); the button [i] (from 1) is
    labelled [f"Button {i} ({program_path})"] and its command runs the
    program with [subprocess.run([sys.executable, program_path],
    check=True)], printing the [CalledProcessError] of a non-zero exit
    status ([open_program], lines 6-10).

    The buttons are built in a [for] loop whose variable [program_path]
    is one variable, rebound at each pass; a Python [lambda] reads the
    variables of its body when it is called, so after the loop they all
    hold the last path.  The code writes [lambda path=program_path: ...],
    whose default is evaluated when the lambda is built.  The model keeps
    that distinction: a command reads the loop's environment [loop_env]
    at call time, and [main.py]'s commands ignore it.  The exit status of
    the child program, which the launcher does not control, is an
    argument. *)

From Stdlib Require Import ZArith String Lia.
From stdpp Require Import base list numbers options pretty.

Module Launcher.

(** [program_paths], lines 17-24. *)
Definition program_paths : list string := [
  "D:\AI Project\AI\tictactoe.py";
  "D:\AI Project\AI\Alpha_beta.py";
  "D:\AI Project\AI\minimax by heuristic fun(winning moves).py";
  "D:\AI Project\AI\distance_improve.py";
  "D:\AI Project\AI\symmtry.py";
  "D:\AI Project\AI\BF_Search.py"]%string.

(** What [open_program] does: the child ran to a zero exit status, or
    [check=True] raised [CalledProcessError] and the [except] printed
    it. *)
Inductive launch :=
  | Finished (path : string)
  | ErrorPrinted (path : string) (status : Z).

(** [open_program(program_path)], with the child's exit status. *)
Definition open_program (program_path : string) (status : Z) : launch :=
  if (status =? 0)%Z then Finished program_path else ErrorPrinted program_path status.

(** The variables of the loop at the time a command is called:
    [i] and [program_path]. *)
Record loop_env := mkEnv { env_i : nat; env_path : string }.

(** A [tk.Button]: its [text] and its [command], which may read the
    loop's variables when it is called. *)
Record button := mkButton { button_text : string; command : loop_env -> Z -> launch }.

(** [f"Button {i} ({program_path})"] *)
Definition button_text_of (i : nat) (program_path : string) : string :=
  String.append "Button " (String.append (pretty i)
    (String.append " (" (String.append program_path ")")))%string.

(** One pass of the loop: the button with
    [command=lambda path=program_path: open_program(path)]. *)
Definition make_button (i : nat) (program_path : string) : button :=
  mkButton (button_text_of i program_path) (fun _ status => open_program program_path status).

(** [for i, program_path in enumerate(program_paths, start=1): ...;
    buttons.append(button)]: the buttons, and the loop's variables once
    it is done. *)
Fixpoint build_buttons (i : nat) (paths : list string) (env : loop_env) : list button * loop_env :=
  match paths with
  | [] => ([], env)
  | program_path :: paths' =>
      let env' := mkEnv i program_path in
      let '(bs, env'') := build_buttons (S i) paths' env' in
      (make_button i program_path :: bs, env'')
  end.

Definition buttons_env : list button * loop_env :=
  build_buttons 1 program_paths (mkEnv 0 ""%string).

Definition buttons : list button := buttons_env.1.

(** A click on the [k]-th button (from 0) once [window.mainloop()] runs:
    its command, called in the environment the loop left. *)
Definition click (k : nat) (status : Z) : option launch :=
  b ← buttons !! k; Some (command b buttons_env.2 status).

End Launcher.

Module LauncherFacts.
Import Launcher.

Lemma build_buttons_spec i paths env k :
  k < length paths ->
  exists path, paths !! k = Some path /\
    (build_buttons i paths env).1 !! k = Some (make_button (i + k) path).
Proof.
  revert i env k. induction paths as [|p paths IH]; intros i env k Hk; cbn in *; [lia|].
  destruct (build_buttons (S i) paths (mkEnv i p)) as [bs env''] eqn:Hb. cbn.
  destruct k as [|k]; [exists p; rewrite Nat.add_0_r; done|].
  destruct (IH (S i) (mkEnv i p) k ltac:(lia)) as (path & Hp & Hbk). rewrite Hb in Hbk.
  exists path. rewrite Nat.add_succ_r. done.
Qed.

(** C26: each button of [main.py] runs its own program: the [k]-th button
    (from 0) is labelled [Button k+1 (path)] and a click on it runs the
    [k]-th path of [program_paths], although the loop leaves its variable
    [program_path] on the last path when the commands are called; the
    default argument [path=program_path] captures each path. *)
Theorem click_runs_own_program k path status :
  program_paths !! k = Some path ->
  click k status = Some (open_program path status) /\
  button_text <$> buttons !! k = Some (button_text_of (S k) path).
Proof.
  intros Hk. pose proof (lookup_lt_Some _ _ _ Hk) as Hlt.
  destruct (build_buttons_spec 1 program_paths (mkEnv 0 ""%string) k Hlt) as (path' & Hp & Hb).
  rewrite Hk in Hp. injection Hp as <-.
  unfold click, buttons, buttons_env. rewrite Hb. done.
Qed.

End LauncherFacts.

Module LauncherExamples.
Import Launcher LauncherFacts.

(** The fifth button runs [symmtry.py], which is not in the repository:
    Python exits with status 2 and the launcher prints the error; the
    loop's variable is then on [BF_Search.py]. *)
Lemma click_runs_own_program_witness :
  env_path buttons_env.2 = "D:\AI Project\AI\BF_Search.py"%string /\
  click 4 2 = Some (ErrorPrinted "D:\AI Project\AI\symmtry.py" 2) /\
  button_text <$> buttons !! 4 = Some "Button 5 (D:\AI Project\AI\symmtry.py)"%string.
Proof.
  split; [reflexivity|].
  apply (click_runs_own_program 4 "D:\AI Project\AI\symmtry.py" 2). reflexivity.
Defined.

End LauncherExamples.
